(** * supabase-api-generator: naming, extraction and assembly pipeline

    A shallow embedding of [src/supabase-api-generator.ts].

    - JavaScript strings are lists of characters. The derivation of
      the names is given for the strings of any runtime, with the case
      conversions of the runtime as parameters ([AnyRuntime]), and for
      ASCII text ([str]), on which the conversions act letter by letter;
      the generated text is computed on ASCII text.
    - JavaScript numbers are the binary64 numbers of [SpecFloat].
    - The TypeScript syntax tree is an inductive [Node]; the parent
      pointers that [createSourceFile(..., true)] sets are passed down
      the traversal.
    - The file system, the console and the timer queue form a [World]
      that every [fs] call threads; a thrown exception keeps the world
      reached so far. *)

From Stdlib Require Import Ascii String List ZArith Lia Sorted SpecFloat.
From stdpp Require Import gmap strings list sorting.
Import ListNotations.

Local Open Scope list_scope.

(** ** JavaScript strings *)

Module JS.

Abbreviation str := (list ascii).

(** A string literal of the source. *)
Definition lit (s : string) : str := list_ascii_of_string s.

Definition newline : str := lit "
".

Definition underscore : ascii := "_"%char.
Definition dollar : ascii := "$"%char.

(** [String.prototype.toUpperCase] / [toLowerCase] on ASCII text: each
    letter is converted by itself and every other character is kept.
    Outside ASCII text the conversions of the runtime follow the Unicode
    case mappings, which are not given here: see [AnyRuntime]. *)
Definition toUpperCaseChar (c : ascii) : ascii :=
  let n := nat_of_ascii c in
  if (97 <=? n)%nat && (n <=? 122)%nat then ascii_of_nat (n - 32) else c.

Definition toLowerCaseChar (c : ascii) : ascii :=
  let n := nat_of_ascii c in
  if (65 <=? n)%nat && (n <=? 90)%nat then ascii_of_nat (n + 32) else c.

Definition toUpperCase (s : str) : str := map toUpperCaseChar s.
Definition toLowerCase (s : str) : str := map toLowerCaseChar s.

(** [s.charAt(i)]: the one-character string at [i], or the empty string. *)
Definition charAt {A : Type} (s : list A) (i : nat) : list A :=
  match nth_error s i with
  | Some c => [c]
  | None => []
  end.

(** [s.slice(start, end)]; a missing [end] is the length, a negative
    index counts from the end. *)
Definition slice {A : Type} (s : list A) (start : Z) (end_ : option Z) : list A :=
  let len := Z.of_nat (length s) in
  let rel (x : Z) := if (x <? 0)%Z then Z.max (len + x) 0 else Z.min x len in
  let from := rel start in
  let to := match end_ with None => len | Some e => rel e end in
  firstn (Z.to_nat (to - from)) (skipn (Z.to_nat from) s).

(** [s.endsWith(search)]. *)
Definition endsWith (s search : str) : bool :=
  let len := length s in
  let n := length search in
  if (len <? n)%nat then false
  else bool_decide (skipn (len - n) s = search).

(** [s.split(sep)] for a one-character separator. *)
Fixpoint split {A : Type} `{EqDecision A} (sep : A) (s : list A) : list (list A) :=
  match s with
  | [] => [[]]
  | c :: r =>
      if bool_decide (c = sep) then [] :: split sep r
      else match split sep r with
           | w :: ws => (c :: w) :: ws
           | [] => [[c]]
           end
  end.

(** [parts.join(sep)]. *)
Fixpoint join {A : Type} (sep : list A) (parts : list (list A)) : list A :=
  match parts with
  | [] => []
  | [w] => w
  | w :: ws => w ++ sep ++ join sep ws
  end.

(** [isPrefix p s]: [s] starts with [p]. *)
Fixpoint isPrefix (p s : str) : bool :=
  match p, s with
  | [], _ => true
  | _ :: _, [] => false
  | a :: p', b :: s' => bool_decide (a = b) && isPrefix p' s'
  end.

(** [s.indexOf(search)]: the prefix before the first occurrence and the
    rest after it, when there is one. *)
Fixpoint cut (search s : str) : option (str * str) :=
  if isPrefix search s then Some ([], skipn (length search) s)
  else match s with
       | [] => None
       | c :: r =>
           match cut search r with
           | Some (pre, post) => Some (c :: pre, post)
           | None => None
           end
       end.

(** [GetSubstitution] of ECMAScript for a string pattern (no capture
    groups): [$$] is a dollar sign, [$&] the matched text, [$`] the text
    before the match and [$'] the text after it; every other character,
    a dollar sign before a digit or [<] included, stands for itself. *)
Fixpoint GetSubstitution (matched pre post : str) (replacement : str) : str :=
  match replacement with
  | [] => []
  | c :: r =>
      if bool_decide (c = dollar) then
        match r with
        | c' :: r' =>
            if bool_decide (c' = dollar) then
              dollar :: GetSubstitution matched pre post r'
            else if bool_decide (c' = "&"%char) then
              matched ++ GetSubstitution matched pre post r'
            else if bool_decide (c' = "`"%char) then
              pre ++ GetSubstitution matched pre post r'
            else if bool_decide (c' = "'"%char) then
              post ++ GetSubstitution matched pre post r'
            else c :: GetSubstitution matched pre post r
        | [] => [c]
        end
      else c :: GetSubstitution matched pre post r
  end.

(** [s.replace(search, replacement)] with a string pattern and a string
    replacement: the first occurrence only. *)
Definition replace (s search replacement : str) : str :=
  match cut search s with
  | None => s
  | Some (pre, post) =>
      pre ++ GetSubstitution search pre post replacement ++ post
  end.

End JS.

Import JS.

(** ** Identifier derivation (lines 70-118) *)

(** The two conversions for the strings of any runtime. [Char] is the
    type of the units that a string is made of, and [toUpperCase] and
    [toLowerCase] are [String.prototype.toUpperCase] and
    [String.prototype.toLowerCase] of the runtime; they follow the
    Unicode case mappings, need not work unit by unit and may change the
    length of a string. *)
Module AnyRuntime.
Section Conversions.

Context {Char : Type} `{EqDecision Char}.
Variable underscore : Char.
Variables toUpperCase toLowerCase : list Char -> list Char.

(** [toCamelCase], lines 73-83. *)
Definition toCamelCase (s : list Char) : list Char :=
  join []
    (imap (fun index word =>
             if bool_decide (index = 0%nat) then toLowerCase word
             else toUpperCase (charAt word 0) ++ toLowerCase (slice word 1 None))
          (split underscore s)).

(** [toPascalCase], lines 88-93. *)
Definition toPascalCase (s : list Char) : list Char :=
  join []
    (map (fun word => toUpperCase (charAt word 0) ++ toLowerCase (slice word 1 None))
         (split underscore s)).

(** A segment with its first character converted to upper case and the
    rest of it converted to lower case. *)
Definition capitalized (w : list Char) : list Char :=
  toUpperCase (take 1 w) ++ toLowerCase (drop 1 w).

End Conversions.
End AnyRuntime.

(** The same two functions on ASCII text, with the conversions of
    [JS]. *)

(** [toCamelCase], lines 73-83. *)
Definition toCamelCase (s : str) : str :=
  join []
    (imap (fun index word =>
             if bool_decide (index = 0%nat) then toLowerCase word
             else toUpperCase (charAt word 0) ++ toLowerCase (slice word 1 None))
          (split underscore s)).

(** [toPascalCase], lines 88-93. *)
Definition toPascalCase (s : str) : str :=
  join []
    (map (fun word => toUpperCase (charAt word 0) ++ toLowerCase (slice word 1 None))
         (split underscore s)).

(** The singular and plural forms of a table, a pair of mutable locals in
    the source. *)
Record Forms := mkForms { singular : str; plural : str }.

(** Lines 103-112: the general rule on the PascalCase name. *)
Definition generalForms (pascalCaseName : str) : Forms :=
  if endsWith pascalCaseName (lit "s")
     && negb (endsWith pascalCaseName (lit "ss"))
     && negb (endsWith pascalCaseName (lit "us"))
     && negb (endsWith pascalCaseName (lit "is"))
  then mkForms (slice pascalCaseName 0 (Some (-1)%Z)) pascalCaseName
  else mkForms pascalCaseName (pascalCaseName ++ lit "s").

(** Lines 114-118: the special case, applied after the general rule. *)
Definition overrideForms (tableName : str) (f : Forms) : Forms :=
  if bool_decide (tableName = lit "user_type")
  then mkForms (lit "UserType") (lit "UserTypes")
  else f.

Definition nameForms (tableName : str) : Forms :=
  overrideForms tableName (generalForms (toPascalCase tableName)).

Definition singularPascalCase (tableName : str) : str := singular (nameForms tableName).
Definition pluralPascalCase (tableName : str) : str := plural (nameForms tableName).

(** [generateMethodsForTable], lines 98-129. *)
Definition generateMethodsForTable (tableName : str) : str :=
  let pascalCaseName := toPascalCase tableName in
  let singularPascalCase := singularPascalCase tableName in
  let pluralPascalCase := pluralPascalCase tableName in
  lit "
  // " ++ pascalCaseName ++ lit "
  get" ++ pluralPascalCase ++ lit " = (options?: { select?: string, idField?: string, limit?: number, page?: number, filters?: Record<string, any> }) => this.getAll('" ++ tableName ++ lit "', options);
  get" ++ singularPascalCase ++ lit " = (id: string, options?: { select?: string, idField?: string }) => this.getById('" ++ tableName ++ lit "', id, options);
  create" ++ singularPascalCase ++ lit " = (data: Database['public']['Tables']['" ++ tableName ++ lit "']['Insert']) => this.create('" ++ tableName ++ lit "', data);
  createMany" ++ pluralPascalCase ++ lit " = (data: Database['public']['Tables']['" ++ tableName ++ lit "']['Insert'][]) => this.createMany('" ++ tableName ++ lit "', data);
  update" ++ singularPascalCase ++ lit " = (id: string, data: Database['public']['Tables']['" ++ tableName ++ lit "']['Update'], options?: { idField?: string }) => this.update('" ++ tableName ++ lit "', id, data, options);
  updateMany" ++ pluralPascalCase ++ lit " = (updates: Array<{ id: string, data: Database['public']['Tables']['" ++ tableName ++ lit "']['Update'] }>, options?: { idField?: string }) => this.updateMany('" ++ tableName ++ lit "', updates, options);
  delete" ++ singularPascalCase ++ lit " = (id: string, options?: { idField?: string }) => this.delete('" ++ tableName ++ lit "', id, options);".

(** ** The syntax tree and table extraction (lines 31-68) *)

(** The node kinds the traversal tells apart; every other kind of the
    TypeScript parser is an [OtherKind]. *)
Inductive SyntaxKind :=
  | SourceFile
  | TypeAliasDeclaration
  | InterfaceDeclaration
  | PropertySignature
  | TypeLiteral
  | Identifier
  | StringLiteral
  | ComputedPropertyName
  | OtherKind (code : nat).

#[global] Instance SyntaxKind_eq_dec : EqDecision SyntaxKind.
Proof. solve_decision. Defined.

(** A [ts.Node]: its kind, its text (identifiers and literals), its
    extent in the source text, its [name] property when it has one, and
    the children that [ts.forEachChild] visits, in that order. *)
#[warnings="-register-all"]
Inductive Node := mkNode {
  kind : SyntaxKind;
  text : str;
  pos : nat;
  end_ : nat;
  name : option Node;
  children : list Node
}.

(** Induction on a tree, with the property known for the children. *)
Fixpoint Node_rose_ind (P : Node -> Prop)
    (step : forall k t p e nm cs, Forall P cs -> P (mkNode k t p e nm cs))
    (n : Node) : P n :=
  match n with
  | mkNode k t p e nm cs =>
      step k t p e nm cs
        ((fix all (l : list Node) : Forall P l :=
            match l with
            | [] => Forall_nil_2 P
            | c :: l' => Forall_cons_2 P c l' (Node_rose_ind P step c) (all l')
            end) cs)
  end.

Definition isPropertySignature (n : Node) : bool := bool_decide (kind n = PropertySignature).
Definition isTypeLiteralNode (n : Node) : bool := bool_decide (kind n = TypeLiteral).
Definition isIdentifier (n : Node) : bool := bool_decide (kind n = Identifier).

(** The condition of lines 46-57. [ancestors] is the chain of parent
    pointers of [node], nearest first: [node.parent] is its head and
    [node.parent.parent] the head of its tail. *)
Definition isTableProperty (ancestors : list Node) (node : Node) : bool :=
  isPropertySignature node &&
  match ancestors with
  | parent :: grand :: _ =>
      isTypeLiteralNode parent &&
      isPropertySignature grand &&
      match name grand with
      | Some gname => isIdentifier gname && bool_decide (text gname = lit "Tables")
      | None => false
      end
  | _ => false
  end &&
  match name node with
  | Some nname => isIdentifier nname
  | None => false
  end.

(** [node.name.text] *)
Definition nameText (node : Node) : str :=
  match name node with
  | Some nname => text nname
  | None => []
  end.

(** [visit], lines 45-62: [tableNames] is the array the closure pushes
    to. The callback returns nothing, so [ts.forEachChild] goes through
    every child. *)
Fixpoint visit (ancestors : list Node) (node : Node) (tableNames : list str) : list str :=
  let tableNames :=
    if isTableProperty ancestors node then tableNames ++ [nameText node]
    else tableNames in
  fold_left (fun acc child => visit (node :: ancestors) child acc)
            (children node) tableNames.

Definition tableNamesOf (sourceFile : Node) : list str := visit [] sourceFile [].

(** Pre-order listing of a tree: every node with its chain of parents. *)
Fixpoint preorder (ancestors : list Node) (node : Node) : list (list Node * Node) :=
  (ancestors, node) :: flat_map (preorder (node :: ancestors)) (children node).

(** The selected declarations of a pre-order listing. *)
Definition selected (l : list (list Node * Node)) : list Node :=
  map snd (filter (fun an => isTableProperty an.1 an.2) l).

(** The declarations the extraction selects, in pre-order. *)
Definition tableNodes (sourceFile : Node) : list Node := selected (preorder [] sourceFile).

(** ** The world: file system, console, timers *)

(** A resolved path: its segments below the root. *)
Abbreviation path := (list string).

(** [path.dirname] of a resolved path. *)
Definition dirname (p : path) : path := removelast p.

(** [path.resolve(process.cwd(), ...)] of relative arguments without
    [.] and [..] segments: the segments are appended to the working
    directory. *)
Definition resolve (cwd : path) (parts : list path) : path := cwd ++ concat parts.

Inductive entry :=
  | File (content : str)
  | Dir.

Inductive errno := ENOENT | EISDIR | ENOTDIR | EEXIST | EACCES | EPERM | EBUSY.

Inductive syscall :=
  | SysRead (p : path)
  | SysWrite (p : path)
  | SysUnlink (p : path)
  | SysMkdir (p : path).

(** What [fs] throws. *)
Inductive Error := FsError (code : errno) (call : syscall).

Inductive Stream := Stdout | Stderr.

(** The lines the generator prints. *)
Inductive Message :=
  | CreatedTemplate (p : path)
  | CreatedOutputDir (p : path)
  | DeletedExisting (p : path)
  | ErrorDeleting (p : path) (e : Error)
  | Generated (tables : nat)
  | Tables (names : str).

(** The closure of lines 480-486, with the variables it captures. *)
Inductive Timer := WriteOutput (outputContent : str) (tableNames : list str).

(** [refused] is the part of the operating system the model does not
    compute (permissions, busy files): the calls it refuses, and with
    which code. *)
Record World := mkWorld {
  fs : gmap path entry;
  refused : syscall -> option errno;
  console : list (Stream * Message);
  timers : list Timer
}.

Definition setFs (m : gmap path entry) (w : World) : World :=
  mkWorld m (refused w) (console w) (timers w).
Definition addMessage (to : Stream) (msg : Message) (w : World) : World :=
  mkWorld (fs w) (refused w) (console w ++ [(to, msg)]) (timers w).
Definition addTimer (t : Timer) (w : World) : World :=
  mkWorld (fs w) (refused w) (console w) (timers w ++ [t]).
Definition clearTimers (w : World) : World :=
  mkWorld (fs w) (refused w) (console w) [].

(** The root always is a directory. *)
Definition entryAt (w : World) (p : path) : option entry :=
  match p with
  | [] => Some Dir
  | _ => fs w !! p
  end.

Inductive Outcome (A : Type) :=
  | Returned (a : A)
  | Thrown (e : Error).
Arguments Returned {A} a.
Arguments Thrown {A} e.

(** A computation on the world; an exception keeps the world it was
    thrown in. *)
Definition M (A : Type) : Type := World -> Outcome A * World.

Definition ret {A} (a : A) : M A := fun w => (Returned a, w).
Definition bind {A B} (m : M A) (k : A -> M B) : M B :=
  fun w => match m w with
           | (Returned a, w') => k a w'
           | (Thrown e, w') => (Thrown e, w')
           end.
Definition tryCatch {A} (body : M A) (handler : Error -> M A) : M A :=
  fun w => match body w with
           | (Returned a, w') => (Returned a, w')
           | (Thrown e, w') => handler e w'
           end.

Notation "x <- m ;; k" := (bind m (fun x => k))
  (at level 100, m at next level, right associativity).
Notation "m ;;; k" := (bind m (fun _ => k))
  (at level 100, right associativity).

Definition console_log (msg : Message) : M unit :=
  fun w => (Returned tt, addMessage Stdout msg w).
Definition console_error (msg : Message) : M unit :=
  fun w => (Returned tt, addMessage Stderr msg w).

(** A call the operating system may refuse before it does anything. *)
Definition sys {A} (c : syscall) (body : M A) : M A :=
  fun w => match refused w c with
           | Some code => (Thrown (FsError code c), w)
           | None => body w
           end.

Definition existsSync (p : path) : M bool :=
  fun w => (Returned (bool_decide (is_Some (entryAt w p))), w).

Definition readFileSync (p : path) : M str :=
  sys (SysRead p) (fun w =>
    match entryAt w p with
    | Some (File content) => (Returned content, w)
    | Some Dir => (Thrown (FsError EISDIR (SysRead p)), w)
    | None => (Thrown (FsError ENOENT (SysRead p)), w)
    end).

Definition writeFileSync (p : path) (content : str) : M unit :=
  sys (SysWrite p) (fun w =>
    match entryAt w p with
    | Some Dir => (Thrown (FsError EISDIR (SysWrite p)), w)
    | _ =>
        match entryAt w (dirname p) with
        | Some Dir => (Returned tt, setFs (<[p := File content]> (fs w)) w)
        | Some (File _) => (Thrown (FsError ENOTDIR (SysWrite p)), w)
        | None => (Thrown (FsError ENOENT (SysWrite p)), w)
        end
    end).

Definition unlinkSync (p : path) : M unit :=
  sys (SysUnlink p) (fun w =>
    match entryAt w p with
    | Some (File _) => (Returned tt, setFs (delete p (fs w)) w)
    | Some Dir => (Thrown (FsError EISDIR (SysUnlink p)), w)
    | None => (Thrown (FsError ENOENT (SysUnlink p)), w)
    end).

(** [mkdir -p]: [made] is the part of the path already known to be a
    directory, [rest] what remains to create below it. *)
Fixpoint mkdirp (made rest : path) (m : gmap path entry) : option (gmap path entry) :=
  match rest with
  | [] => Some m
  | seg :: rest' =>
      let d := made ++ [seg] in
      match m !! d with
      | Some (File _) => None
      | Some Dir => mkdirp d rest' m
      | None => mkdirp d rest' (<[d := Dir]> m)
      end
  end.

(** [fs.mkdirSync(p, { recursive: true })] *)
Definition mkdirSync (p : path) : M unit :=
  sys (SysMkdir p) (fun w =>
    match mkdirp [] p (fs w) with
    | Some m => (Returned tt, setFs m w)
    | None => (Thrown (FsError EEXIST (SysMkdir p)), w)
    end).

Definition setTimeout (t : Timer) : M unit := fun w => (Returned tt, addTimer t w).

(** ** The generator (lines 13-26, 131-487) *)

(** The two command-line arguments, as relative paths, and the working
    directory. *)
Record Config := mkConfig {
  cwd : path;
  typeFilePath : path;
  outputFilePath : path
}.

Definition placeholder : str := lit "// [TABLE_METHODS]".

(** The template literal of lines 136-433. *)
Definition templateContent : str := lit "import { createClient } from './supabase';
import { Database } from '../types/supabase';
import { PostgrestError } from '@supabase/supabase-js';

/**
 * SupabaseApiGenerator - Generates CRUD operations for database tables
 * 
 * This class automatically creates CRUD operations for tables defined in the 
 * Database type interface. It provides methods to get, create, update, and delete
 * records for each table.
 */
export class SupabaseApiGenerator {
  private supabase = createClient();
  
  /**
   * Apply filters to a query
   * @param query - The query to apply filters to
   * @param filters - Object where keys are column names and values are values to filter by
   * @returns The query with filters applied
   */
  private applyFilters(query: any, filters?: Record<string, any>): any {
    if (!filters) return query;
    
    let filteredQuery = query;
    
    // Apply each filter
    Object.entries(filters).forEach(([column, value]) => {
      if (value === null) {
        filteredQuery = filteredQuery.is(column, null);
      } else if (Array.isArray(value)) {
        filteredQuery = filteredQuery.in(column, value);
      } else if (typeof value === 'object') {
        // Handle special operators
        if ('gt' in value) filteredQuery = filteredQuery.gt(column, value.gt);
        if ('gte' in value) filteredQuery = filteredQuery.gte(column, value.gte);
        if ('lt' in value) filteredQuery = filteredQuery.lt(column, value.lt);
        if ('lte' in value) filteredQuery = filteredQuery.lte(column, value.lte);
        if ('neq' in value) filteredQuery = filteredQuery.neq(column, value.neq);
        if ('like' in value) filteredQuery = filteredQuery.like(column, value.like);
        if ('ilike' in value) filteredQuery = filteredQuery.ilike(column, value.ilike);
        if ('is' in value) filteredQuery = filteredQuery.is(column, value.is);
      } else {
        filteredQuery = filteredQuery.eq(column, value);
      }
    });
    
    return filteredQuery;
  }
  
  /**
   * Get all records from a specific table
   * @param tableName - The name of the table
   * @param options - Additional options for the query
   * @returns Promise with all records
   */
  async getAll<
    T extends keyof Database['public']['Tables']
  >(tableName: T, options?: { 
    select?: string, 
    idField?: string,
    limit?: number,
    page?: number,
    filters?: Record<string, any>
  }): Promise<Database['public']['Tables'][T]['Row'][]> {
    try {
      let query = this.supabase.from(tableName).select(options?.select || '*');
      
      // Apply filters if provided
      if (options?.filters) {
        query = this.applyFilters(query, options.filters);
      }
      
      // Add pagination if needed
      if (options?.limit !== undefined) {
        const page = options.page || 0;
        const offset = page * options.limit;
        query = query.range(offset, offset + options.limit - 1);
      }
      
      const { data, error } = await query;
      
      if (error) {
        throw error;
      }
      
      // Explicitly cast through unknown to ensure type safety
      return (data || []) as unknown as Database['public']['Tables'][T]['Row'][];
    } catch (error) {
      console.error(`Error in getAll for ${String(tableName)}:`, error);
      throw error;
    }
  }
  
  /**
   * Get a record by ID from a specific table
   * @param tableName - The name of the table
   * @param id - The ID of the record
   * @param options - Additional options for the query
   * @returns Promise with the record
   */
  async getById<
    T extends keyof Database['public']['Tables']
  >(tableName: T, id: string | number, options?: { select?: string, idField?: string }): Promise<Database['public']['Tables'][T]['Row'] | null> {
    try {
      const idField = options?.idField || 'id';
      
      const { data, error } = await this.supabase
        .from(tableName)
        .select(options?.select || '*')
        .eq(idField, id)
        .single();
      
      if (error) {
        if (error.code === 'PGRST116') {
          return null; // Record not found
        }
        throw error;
      }
      
      // Explicitly cast through unknown to ensure type safety
      return data as unknown as Database['public']['Tables'][T]['Row'];
    } catch (error) {
      console.error(`Error in getById for ${String(tableName)}:`, error);
      throw error;
    }
  }
  
  /**
   * Create a new record in a specific table
   * @param tableName - The name of the table
   * @param data - The data to insert
   * @returns Promise with the created record
   */
  async create<
    T extends keyof Database['public']['Tables']
  >(tableName: T, data: Database['public']['Tables'][T]['Insert']): Promise<Database['public']['Tables'][T]['Row']> {
    try {
      const { data: createdData, error } = await this.supabase
        .from(tableName)
        .insert(data)
        .select('*')
        .single();
      
      if (error) {
        throw error;
      }
      
      // Explicitly cast through unknown to ensure type safety
      return createdData as unknown as Database['public']['Tables'][T]['Row'];
    } catch (error) {
      console.error(`Error in create for ${String(tableName)}:`, error);
      throw error;
    }
  }
  
  /**
   * Create multiple records in a specific table
   * @param tableName - The name of the table
   * @param data - Array of data to insert
   * @returns Promise with the created records
   */
  async createMany<
    T extends keyof Database['public']['Tables']
  >(tableName: T, data: Database['public']['Tables'][T]['Insert'][]): Promise<Database['public']['Tables'][T]['Row'][]> {
    try {
      const { data: createdData, error } = await this.supabase
        .from(tableName)
        .insert(data)
        .select('*');
      
      if (error) {
        throw error;
      }
      
      // Explicitly cast through unknown to ensure type safety
      return (createdData || []) as unknown as Database['public']['Tables'][T]['Row'][];
    } catch (error) {
      console.error(`Error in createMany for ${String(tableName)}:`, error);
      throw error;
    }
  }
  
  /**
   * Update a record in a specific table
   * @param tableName - The name of the table
   * @param id - The ID of the record
   * @param data - The data to update
   * @param options - Additional options for the query
   * @returns Promise with the updated record
   */
  async update<
    T extends keyof Database['public']['Tables']
  >(tableName: T, id: string | number, data: Database['public']['Tables'][T]['Update'], options?: { idField?: string }): Promise<Database['public']['Tables'][T]['Row']> {
    try {
      const idField = options?.idField || 'id';
      
      const { data: updatedData, error } = await this.supabase
        .from(tableName)
        .update(data)
        .eq(idField, id)
        .select('*')
        .single();
      
      if (error) {
        throw error;
      }
      
      // Explicitly cast through unknown to ensure type safety
      return updatedData as unknown as Database['public']['Tables'][T]['Row'];
    } catch (error) {
      console.error(`Error in update for ${String(tableName)}:`, error);
      throw error;
    }
  }

  /**
   * Update multiple records in a specific table
   * @param tableName - The name of the table
   * @param updates - Array of objects with id and data to update
   * @param options - Additional options for the query
   * @returns Promise with the updated records
   */
  async updateMany<
    T extends keyof Database['public']['Tables']
  >(
    tableName: T, 
    updates: Array<{ 
      id: string | number, 
      data: Database['public']['Tables'][T]['Update'] 
    }>,
    options?: { idField?: string }
  ): Promise<Database['public']['Tables'][T]['Row'][]> {
    try {
      const idField = options?.idField || 'id';
      
      // We need to perform the updates one by one since Supabase doesn't support
      // updating multiple records with different values in a single query
      const updatedRecords: Database['public']['Tables'][T]['Row'][] = [];
      
      for (const update of updates) {
        const { data: updatedData, error } = await this.supabase
          .from(tableName)
          .update(update.data)
          .eq(idField, update.id)
          .select('*')
          .single();
        
        if (error) {
          throw error;
        }
        
        // Explicitly cast through unknown to ensure type safety
        updatedRecords.push(updatedData as unknown as Database['public']['Tables'][T]['Row']);
      }
      
      return updatedRecords;
    } catch (error) {
      console.error(`Error in updateMany for ${String(tableName)}:`, error);
      throw error;
    }
  }
  
  /**
   * Delete a record from a specific table
   * @param tableName - The name of the table
   * @param id - The ID of the record
   * @param options - Additional options for the query
   * @returns Promise with the deleted record
   */
  async delete<
    T extends keyof Database['public']['Tables']
  >(tableName: T, id: string | number, options?: { idField?: string }): Promise<void> {
    try {
      const idField = options?.idField || 'id';
      
      const { error } = await this.supabase
        .from(tableName)
        .delete()
        .eq(idField, id);
      
      if (error) {
        throw error;
      }
    } catch (error) {
      console.error(`Error in delete for ${String(tableName)}:`, error);
      throw error;
    }
  }
  
  // Generated CRUD methods for specific tables
  // [TABLE_METHODS]
}

// Create and export a singleton instance
export const API = new SupabaseApiGenerator();

// Export default as the singleton instance
export default API;".

Section Generator.

(** The TypeScript parser, [ts.createSourceFile]. *)
Variable createSourceFile : str -> Node.
Variable cfg : Config.

Definition TYPE_FILE_PATH : path := resolve (cwd cfg) [typeFilePath cfg].
Definition OUTPUT_FILE_PATH : path := resolve (cwd cfg) [outputFilePath cfg].
Definition TEMPLATE_FILE_PATH : path :=
  resolve (cwd cfg) [dirname (outputFilePath cfg); ["SupabaseApi.ts"%string]].

(** [extractTableNames], lines 31-68. *)
Definition extractTableNames : M (list str) :=
  fileContent <- readFileSync TYPE_FILE_PATH ;;
  let sourceFile := createSourceFile fileContent in
  ret (visit [] sourceFile []).

(** [generateTemplateFile], lines 134-438. *)
Definition generateTemplateFile : M unit :=
  present <- existsSync TEMPLATE_FILE_PATH ;;
  if negb present then
    writeFileSync TEMPLATE_FILE_PATH templateContent ;;;
    console_log (CreatedTemplate TEMPLATE_FILE_PATH)
  else ret tt.

(** Lines 444-459: the text to write, and the table names the timer
    callback prints. *)
Definition assemble : M (str * list str) :=
  generateTemplateFile ;;;
  tableNames <- extractTableNames ;;
  let tableMethods := join newline (map generateMethodsForTable tableNames) in
  templateContent <- readFileSync TEMPLATE_FILE_PATH ;;
  let outputContent := replace templateContent placeholder tableMethods in
  ret (outputContent, tableNames).

(** Lines 461-466. *)
Definition ensureOutputDir : M unit :=
  let outputDir := dirname OUTPUT_FILE_PATH in
  present <- existsSync outputDir ;;
  if negb present then
    mkdirSync outputDir ;;;
    console_log (CreatedOutputDir outputDir)
  else ret tt.

(** Lines 468-477. *)
Definition removeExistingOutput : M unit :=
  present <- existsSync OUTPUT_FILE_PATH ;;
  if present then
    tryCatch
      (unlinkSync OUTPUT_FILE_PATH ;;;
       console_log (DeletedExisting OUTPUT_FILE_PATH))
      (fun error => console_error (ErrorDeleting OUTPUT_FILE_PATH error))
  else ret tt.

(** [generateApiClass], lines 443-487. *)
Definition generateApiClass : M unit :=
  assembled <- assemble ;;
  let outputContent := assembled.1 in
  let tableNames := assembled.2 in
  ensureOutputDir ;;;
  removeExistingOutput ;;;
  setTimeout (WriteOutput outputContent tableNames).

(** The callback of lines 480-486. *)
Definition fireTimer (t : Timer) : M unit :=
  match t with
  | WriteOutput outputContent tableNames =>
      writeFileSync OUTPUT_FILE_PATH outputContent ;;;
      console_log (Generated (length tableNames)) ;;;
      console_log (Tables (join (lit ", ") tableNames))
  end.

Fixpoint fireAll (ts : list Timer) : M unit :=
  match ts with
  | [] => ret tt
  | t :: ts' => fireTimer t ;;; fireAll ts'
  end.

(** One run of the program: the module body calls [generateApiClass];
    when it returns, the event loop fires the timers it left. An
    exception that nothing catches ends the process. *)
Definition run : M unit :=
  generateApiClass ;;;
  (fun w => fireAll (timers w) (clearTimers w)).

End Generator.

(** ** The generated class at run time: [updateMany] (lines 358-396 of
    the template text) *)

Module Runtime.

Section Client.

Context {Row Update Id PostgrestError Store : Type}.

(** One call [from(table).update(data).eq(idField, id).select('*').single()]. *)
Record Request := mkRequest {
  table : str;
  idField : str;
  id : Id;
  data : Update
}.

(** What the awaited call resolves to: [{ data, error }]. *)
Record Response := mkResponse {
  resData : option Row;
  resError : option PostgrestError
}.

(** The data store behind the Supabase client. *)
Variable single : Request -> Store -> Response * Store.

(** The state at run time: the store, the requests that have reached
    the client so far, in order, and the lines of [console.error]. *)
Record Session := mkSession {
  store : Store;
  sent : list Request;
  errorLog : list (str * PostgrestError)
}.

(** What an [async] method settles to. *)
Inductive Settled (A : Type) :=
  | Resolved (a : A)
  | Rejected (error : PostgrestError).
Arguments Resolved {A} a.
Arguments Rejected {A} error.

Record Options := mkOptions { optIdField : option str }.

(** [options?.idField || 'id']: an empty string is falsy. *)
Definition idFieldOf (options : option Options) : str :=
  match options with
  | Some (mkOptions (Some f)) => if bool_decide (f = []) then lit "id" else f
  | _ => lit "id"
  end.

(** The [for ... of] loop of lines 375-389; [updatedRecords] is the
    array it pushes to. *)
Fixpoint updateLoop (tableName idField : str) (updates : list (Id * Update))
    (updatedRecords : list (option Row)) (s : Session)
  : Settled (list (option Row)) * Session :=
  match updates with
  | [] => (Resolved updatedRecords, s)
  | update :: rest =>
      let request := mkRequest tableName idField update.1 update.2 in
      let '(response, store') := single request (store s) in
      let s' := mkSession store' (sent s ++ [request]) (errorLog s) in
      match resError response with
      | Some error => (Rejected error, s')
      | None => updateLoop tableName idField rest (updatedRecords ++ [resData response]) s'
      end
  end.

(** [updateMany], lines 358-396: the [catch] logs and throws again. *)
Definition updateMany (tableName : str) (updates : list (Id * Update))
    (options : option Options) (s : Session)
  : Settled (list (option Row)) * Session :=
  let idField := idFieldOf options in
  match updateLoop tableName idField updates [] s with
  | (Resolved updatedRecords, s') => (Resolved updatedRecords, s')
  | (Rejected error, s') =>
      (Rejected error, mkSession (store s') (sent s') (errorLog s' ++ [(tableName, error)]))
  end.

(** The store after the requests [updates], when each of them succeeds
    in its turn. *)
Fixpoint allSucceed (tableName idField : str) (updates : list (Id * Update)) (st : Store)
  : option Store :=
  match updates with
  | [] => Some st
  | update :: rest =>
      let '(response, st') := single (mkRequest tableName idField update.1 update.2) st in
      match resError response with
      | Some _ => None
      | None => allSucceed tableName idField rest st'
      end
  end.

End Client.

Arguments Resolved {PostgrestError A} a.
Arguments Rejected {PostgrestError A} error.

(** A store that counts the updates applied and rejects the record with
    id 2. *)
Definition sampleSingle (r : @Request nat nat) (applied : nat)
  : @Response nat string * nat :=
  if bool_decide (id r = 2%nat)
  then (mkResponse None (Some "PGRST116"%string), applied)
  else (mkResponse (Some (data r)) None, S applied).

End Runtime.

(** ** Notions the properties are stated with *)


(** [endsIn s suffix]: the text [s] ends in [suffix]. *)
Definition endsIn (s suffix : str) : Prop := exists stem, s = stem ++ suffix.

(** A segment with its first character in upper case and the others in
    lower case. *)
Definition capitalized (w : str) : str :=
  match w with
  | [] => []
  | c :: r => toUpperCaseChar c :: map toLowerCaseChar r
  end.

Definition noUnderscore (s : str) : Prop := underscore ∉ s.

(** ASCII text: every character is one of the 128 of ASCII. *)
Definition isAscii (s : str) : Prop := Forall (fun c => (nat_of_ascii c < 128)%nat) s.

(** Characters that the case conversions neither produce nor consume. *)
Definition caseStable (x : ascii) : Prop :=
  forall c : ascii, c <> x -> toUpperCaseChar c <> x /\ toLowerCaseChar c <> x.

(** [occursIn search s]: the text [search] is a part of [s]. *)
Definition occursIn (search s : str) : Prop := exists pre post, s = pre ++ search ++ post.

(** What [visit] pushes at one node. *)
Definition pushed (an : list Node * Node) : list str :=
  if isTableProperty an.1 an.2 then [nameText an.2] else [].

(** What the parser guarantees about the extents of the nodes: a node
    ends no earlier than it starts, its children lie inside it, and each
    child starts where the one before it has ended, or later. *)
Fixpoint chained (from limit : nat) (cs : list Node) : bool :=
  match cs with
  | [] => (from <=? limit)%nat
  | c :: cs' => (from <=? pos c)%nat && chained (end_ c) limit cs'
  end.

(** The tokens of a node itself: a property signature is not empty, and
    the members of a type literal start after its opening brace. *)
Definition ownTokens (n : Node) : bool :=
  match kind n with
  | PropertySignature => (pos n <? end_ n)%nat
  | TypeLiteral => forallb (fun c => (pos n <? pos c)%nat) (children n)
  | _ => true
  end.

Fixpoint wellPlaced (n : Node) : bool :=
  (pos n <=? end_ n)%nat &&
  forallb wellPlaced (children n) &&
  chained (pos n) (end_ n) (children n) &&
  ownTokens n.

(** [a] is declared before [b] in the source text. *)
Definition declaredBefore (a b : Node) : Prop := (pos a < pos b)%nat.

(** [search] occurs in [s] between [pre] and [post], and nowhere
    earlier. *)
Definition firstOccurrence (search pre post s : str) : Prop :=
  s = pre ++ search ++ post /\
  forall pre' post' : str, s = pre' ++ search ++ post' -> (length pre <= length pre')%nat.

Definition noDollar (s : str) : Prop := dollar ∉ s.

(** [preserves P m]: the computation [m] keeps the property [P] of the
    world, whether it returns or throws. *)
Definition preserves {A : Type} (P : World -> Prop) (m : M A) : Prop :=
  forall w : World, P w -> P (m w).2.

(** The file at [p] has the content [c]. *)
Definition holds (p : path) (c : str) (w : World) : Prop := fs w !! p = Some (File c).

(** The output text for a schema text and a template text: lines
    451-459 without the file system. *)
Definition outputFor (createSourceFile : str -> Node) (schema template : str) : str :=
  replace template placeholder
    (join newline (map generateMethodsForTable (tableNamesOf (createSourceFile schema)))).

(** The block of a table as [replace] writes it between [pre] and
    [post]. *)
Definition written (pre post : str) (tableName : str) : str :=
  GetSubstitution placeholder pre post (generateMethodsForTable tableName).

(** ** Sample inputs *)

Definition ident (p e : nat) (s : string) : Node := mkNode Identifier (lit s) p e None [].
Definition prop (p e : nat) (nm : Node) (cs : list Node) : Node :=
  mkNode PropertySignature [] p e (Some nm) (nm :: cs).
Definition tlit (p e : nat) (cs : list Node) : Node := mkNode TypeLiteral [] p e None cs.

Definition sampleTree : Node :=
  mkNode SourceFile [] 0 100 None
    [ mkNode TypeAliasDeclaration [] 0 100 (Some (ident 5 13 "Database"))
        [ ident 5 13 "Database";
          tlit 16 100
            [ prop 17 99 (ident 17 24 "public")
                [ tlit 25 99
                   [ prop 26 98 (ident 26 33 "Tables")
                       [ tlit 34 98
                           [ prop 35 60 (ident 35 40 "posts")
                               [ tlit 41 60 [ prop 42 59 (ident 42 46 "Row") [] ] ];
                             prop 61 97 (ident 61 71 "user_type") [ tlit 72 97 [] ] ] ] ] ] ] ] ].

Definition emptySourceFile : Node := mkNode SourceFile [] 0 0 None [].

Definition sampleSchema : str :=
  lit "export type Database = { public: { Tables: { posts: { Row: {} }; user_type: {} } } }".

(** A schema with a table whose name ends in a dollar sign. *)
Definition dollarSchema : str := lit "type T = { Tables: { price$: {} } }".

Definition dollarTree : Node :=
  mkNode SourceFile [] 0 40 None
    [ prop 0 40 (ident 0 6 "Tables")
        [ tlit 8 40 [ prop 9 39 (ident 9 15 "price$") [ tlit 17 39 [] ] ] ] ].

Definition sampleParser (schema : str) : Node :=
  if bool_decide (schema = sampleSchema) then sampleTree
  else if bool_decide (schema = dollarSchema) then dollarTree
  else emptySourceFile.

Definition sampleConfig : Config :=
  mkConfig ["home"; "app"]%string ["types"; "supabase.ts"]%string ["lib"; "Api.ts"]%string.

Definition sampleFiles : gmap path entry :=
  <[ ["home"; "app"; "types"; "supabase.ts"]%string := File sampleSchema ]>
  (<[ ["home"; "app"; "types"]%string := Dir ]>
  (<[ ["home"; "app"; "lib"]%string := Dir ]>
  (<[ ["home"; "app"]%string := Dir ]>
  (<[ ["home"]%string := Dir ]> ∅)))).

Definition sampleWorld : World := mkWorld sampleFiles (fun _ => None) [] [].

(** A template edited by hand, with the marker twice. *)
Definition handTemplate : str :=
  lit "class Api {
  // [TABLE_METHODS]
}
// [TABLE_METHODS]".

(** A world where the template has been edited by hand and an output
    file exists already. *)
Definition editedWorld : World :=
  mkWorld
    (<[ ["home"; "app"; "lib"; "SupabaseApi.ts"]%string := File handTemplate ]>
    (<[ ["home"; "app"; "lib"; "Api.ts"]%string := File (lit "old") ]> sampleFiles))
    (fun _ => None) [] [].

(** The same world, on a system that refuses to remove the old output
    file. *)
Definition lockedWorld : World :=
  mkWorld (fs editedWorld)
    (fun c => match c with
              | SysUnlink _ => Some EPERM
              | _ => None
              end) [] [].

(** The output file named like the template. *)
Definition collidingConfig : Config :=
  mkConfig ["home"; "app"]%string ["types"; "supabase.ts"]%string
    ["lib"; "SupabaseApi.ts"]%string.

(** The edited world with the dollar schema. *)
Definition dollarWorld : World :=
  mkWorld (<[ ["home"; "app"; "types"; "supabase.ts"]%string := File dollarSchema ]>
             (fs editedWorld))
    (fun _ => None) [] [].

Definition handPre : str := lit "class Api {
  ".

Definition handPost : str := lit "
}
// [TABLE_METHODS]".

(** ** Further notions and the compiled copy *)

(** The names of the seven members that lines 122-128 declare for a
    table, in the order of the block. *)
Definition methodNames (tableName : str) : list str :=
  let singularPascalCase := singularPascalCase tableName in
  let pluralPascalCase := pluralPascalCase tableName in
  [ lit "get" ++ pluralPascalCase;
    lit "get" ++ singularPascalCase;
    lit "create" ++ singularPascalCase;
    lit "createMany" ++ pluralPascalCase;
    lit "update" ++ singularPascalCase;
    lit "updateMany" ++ pluralPascalCase;
    lit "delete" ++ singularPascalCase ].

(** A member declaration as it stands in a block: on a line of its own,
    indented by two spaces and followed by its arrow function. *)
Definition memberLine (method : str) : str := newline ++ lit "  " ++ method ++ lit " = (".

(** The operating system refuses no call. *)
Definition quiet (w : World) : Prop := forall c : syscall, refused w c = None.

(** The console lines of the replace-existing-file step when the removal
    succeeds: one line when there was a file, none otherwise. *)
Definition removalLines (p : path) (previous : option str) : list (Stream * Message) :=
  match previous with
  | Some _ => [(Stdout, DeletedExisting p)]
  | None => []
  end.

(** The two lines that the timer callback prints. *)
Definition successLines (tableNames : list str) : list (Stream * Message) :=
  [(Stdout, Generated (length tableNames)); (Stdout, Tables (join (lit ", ") tableNames))].

(** The compiled copy [src/dist/supabase-api-generator.js], which is
    an older build: its [generateMethodsForTable], lines 112-126. *)
Module Dist.

(** Lines 115-117. *)
Definition singularPascalCase (tableName : str) : str :=
  let pascalCaseName := toPascalCase tableName in
  if endsWith pascalCaseName (lit "s")
  then slice pascalCaseName 0 (Some (-1)%Z)
  else pascalCaseName.

(** The plural of line 121, [get${pascalCaseName}s]. *)
Definition pluralPascalCase (tableName : str) : str := toPascalCase tableName ++ lit "s".

Definition generateMethodsForTable (tableName : str) : str :=
  let pascalCaseName := toPascalCase tableName in
  let singularPascalCase := singularPascalCase tableName in
  lit "
  // " ++ pascalCaseName ++ lit "
  get" ++ pascalCaseName ++ lit "s = () => this.getAll('" ++ tableName ++ lit "');
  get" ++ singularPascalCase ++ lit " = (id: string) => this.getById('" ++ tableName ++ lit "', id);
  create" ++ singularPascalCase ++ lit " = (data: Database['public']['Tables']['" ++ tableName ++ lit "']['Insert']) => this.create('" ++ tableName ++ lit "', data);
  update" ++ singularPascalCase ++ lit " = (id: string, data: Database['public']['Tables']['" ++ tableName ++ lit "']['Update']) => this.update('" ++ tableName ++ lit "', id, data);
  delete" ++ singularPascalCase ++ lit " = (id: string) => this.delete('" ++ tableName ++ lit "', id);".

End Dist.

(** ** Further sample inputs *)

(** The sample world without the schema file. *)
Definition noSchemaWorld : World :=
  mkWorld (delete (["home"; "app"; "types"; "supabase.ts"]%string : path) sampleFiles)
    (fun _ => None) [] [].

(** The sample world without the directory of the output file. *)
Definition noLibWorld : World :=
  mkWorld (delete (["home"; "app"; "lib"]%string : path) sampleFiles) (fun _ => None) [] [].

(** The edited world with a directory where the output file should go. *)
Definition directoryWorld : World :=
  mkWorld (<[ (["home"; "app"; "lib"; "Api.ts"]%string : path) := Dir ]> (fs editedWorld))
    (fun _ => None) [] [].

(** A template without the marker. *)
Definition plainTemplate : str := lit "class Api {}".

(** ** JavaScript numbers

    A [number] is a binary64 number: a zero with its sign, an infinity,
    NaN or a finite number. The operations are those of [SpecFloat] at
    precision 53, which round to the nearest number, ties to even. *)

Module Double.

Abbreviation number := spec_float.

Definition mul : number -> number -> number := SFmul 53 1024.
Definition add : number -> number -> number := SFadd 53 1024.
Definition sub : number -> number -> number := SFsub 53 1024.

(** The number nearest to the integer [z]: [z] itself when it can be
    held exactly. *)
Definition whole (z : Z) : number := binary_normalize 53 1024 z 0 false.

(** [Number.MAX_SAFE_INTEGER] *)
Definition MAX_SAFE_INTEGER : Z := (2 ^ 53 - 1)%Z.

(** The numbers that count as false in a condition: the zeros and NaN. *)
Definition isFalsy (x : number) : bool :=
  match x with
  | S754_zero _ | S754_nan => true
  | _ => false
  end.

(** The integer that a number is, when it is one. *)
Definition integerValue (x : number) : option Z :=
  match x with
  | S754_zero _ => Some 0%Z
  | S754_finite s m e =>
      if (0 <=? e)%Z then Some (cond_Zopp s (Z.pos m * 2 ^ e))%Z
      else if (Z.pos m mod 2 ^ (- e) =? 0)%Z then Some (cond_Zopp s (Z.pos m / 2 ^ (- e)))%Z
      else None
  | _ => None
  end.

(** The mantissa and the exponent of a positive integer below [2 ^ 53]
    as a number. *)
Definition mantissa (n : Z) : positive := Z.to_pos (n * 2 ^ (52 - Z.log2 n)).
Definition exponent (n : Z) : Z := (Z.log2 n - 52)%Z.

End Double.

(** ** The generated class at run time: the read operations (lines
    156-261 of the template text)

    The query builder of the Supabase client is the list of the calls
    made on it, in order. The limit and the page of [getAll] are
    numbers; the numbers inside a filter are passed on as they are and
    are integers here. *)

Module Api.
Import Double.

(** The values that a filter can hold. *)
#[warnings="-register-all"]
Inductive Value :=
  | VNull
  | VUndefined
  | VBoolean (b : bool)
  | VNumber (n : Z)
  | VString (s : str)
  | VArray (items : list Value)
  | VObject (props : list (str * Value)).

(** [key in value] and [value.key] for an object with the properties
    [props]. *)
Definition hasKey (key : string) (props : list (str * Value)) : bool :=
  existsb (fun kv => bool_decide (kv.1 = lit key)) props.

Definition getKey (key : string) (props : list (str * Value)) : Value :=
  match find (fun kv => bool_decide (kv.1 = lit key)) props with
  | Some kv => kv.2
  | None => VUndefined
  end.

(** The calls on the query builder. *)
Inductive Call :=
  | Select (columns : str)
  | Eq (column : str) (value : Value)
  | Neq (column : str) (value : Value)
  | Gt (column : str) (value : Value)
  | Gte (column : str) (value : Value)
  | Lt (column : str) (value : Value)
  | Lte (column : str) (value : Value)
  | Like (column : str) (value : Value)
  | Ilike (column : str) (value : Value)
  | Is (column : str) (value : Value)
  | In (column : str) (values : list Value)
  | Range (from to : number)
  | Single.

(** [this.supabase.from(table)] and the calls chained on it. *)
Record Query := mkQuery { table : str; calls : list Call }.

Definition from (tableName : str) : Query := mkQuery tableName [].
Definition chain (q : Query) (c : Call) : Query := mkQuery (table q) (calls q ++ [c]).

(** One step of the [forEach] of lines 162-180. *)
Definition applyFilter (filteredQuery : Query) (entry : str * Value) : Query :=
  let '(column, value) := entry in
  match value with
  | VNull => chain filteredQuery (Is column VNull)
  | VArray items => chain filteredQuery (In column items)
  | VObject props =>
      let q := filteredQuery in
      let q := if hasKey "gt" props then chain q (Gt column (getKey "gt" props)) else q in
      let q := if hasKey "gte" props then chain q (Gte column (getKey "gte" props)) else q in
      let q := if hasKey "lt" props then chain q (Lt column (getKey "lt" props)) else q in
      let q := if hasKey "lte" props then chain q (Lte column (getKey "lte" props)) else q in
      let q := if hasKey "neq" props then chain q (Neq column (getKey "neq" props)) else q in
      let q := if hasKey "like" props then chain q (Like column (getKey "like" props)) else q in
      let q := if hasKey "ilike" props then chain q (Ilike column (getKey "ilike" props)) else q in
      let q := if hasKey "is" props then chain q (Is column (getKey "is" props)) else q in
      q
  | _ => chain filteredQuery (Eq column value)
  end.

(** [applyFilters], lines 156-183; [filters] is [Object.entries] of the
    argument, [None] when there is none. *)
Definition applyFilters (query : Query) (filters : option (list (str * Value))) : Query :=
  match filters with
  | None => query
  | Some entries => fold_left applyFilter entries query
  end.

Record GetAllOptions := mkGetAllOptions {
  select : option str;
  idField : option str;
  limit : option number;
  page : option number;
  filters : option (list (str * Value))
}.

(** [text || fallback]: the empty string is falsy. *)
Definition orText (text : option str) (fallback : string) : str :=
  match text with
  | Some s => if bool_decide (s = []) then lit fallback else s
  | None => lit fallback
  end.

(** [options.page || 0]: a page that is missing, zero or NaN gives 0. *)
Definition orZero (n : option number) : number :=
  match n with
  | Some x => if isFalsy x then whole 0 else x
  | None => whole 0
  end.

(** The query that [getAll] builds, lines 201-213. *)
Definition getAllQuery (tableName : str) (options : option GetAllOptions) : Query :=
  let query := chain (from tableName) (Select (orText (options ≫= select) "*")) in
  let query :=
    match options ≫= filters with
    | Some entries => applyFilters query (Some entries)
    | None => query
    end in
  match options ≫= limit with
  | Some limit =>
      let page := orZero (options ≫= page) in
      let offset := mul page limit in
      chain query (Range offset (sub (add offset limit) (whole 1)))
  | None => query
  end.

(** The query that [getById] builds, lines 240-246. *)
Definition getByIdQuery (tableName : str) (id : Value) (options : option GetAllOptions) : Query :=
  let idField := orText (options ≫= idField) "id" in
  chain (chain (chain (from tableName) (Select (orText (options ≫= select) "*")))
               (Eq idField id))
        Single.

Section Client.

Context {Row PostgrestError Store : Type}.

(** The [data] of a response: nothing, one row or an array of rows. *)
Inductive Data :=
  | NoData
  | OneRow (row : Row)
  | Rows (rows : list Row).

Record Response := mkResponse { data : Data; error : option PostgrestError }.

(** What awaiting a query gives, and [error.code]. *)
Variable await : Query -> Store -> Response * Store.
Variable code : PostgrestError -> str.

(** The store, the queries sent so far and the lines of
    [console.error]: the method, the table and the error. *)
Record Session := mkSession {
  store : Store;
  sent : list Query;
  errorLog : list (string * str * PostgrestError)
}.

Inductive Settled :=
  | Resolved (result : Data)
  | Rejected (reason : PostgrestError).

Definition logError (method : string) (tableName : str) (e : PostgrestError) (s : Session)
  : Session :=
  mkSession (store s) (sent s) (errorLog s ++ [(method, tableName, e)]).

(** [getAll], lines 191-227. *)
Definition getAll (tableName : str) (options : option GetAllOptions) (s : Session)
  : Settled * Session :=
  let query := getAllQuery tableName options in
  let '(response, store') := await query (store s) in
  let s' := mkSession store' (sent s ++ [query]) (errorLog s) in
  match error response with
  | Some e => (Rejected e, logError "getAll" tableName e s')
  | None =>
      (Resolved match data response with
                | NoData => Rows []
                | d => d
                end, s')
  end.

(** [getById], lines 236-261. *)
Definition getById (tableName : str) (id : Value) (options : option GetAllOptions)
    (s : Session) : Settled * Session :=
  let query := getByIdQuery tableName id options in
  let '(response, store') := await query (store s) in
  let s' := mkSession store' (sent s ++ [query]) (errorLog s) in
  match error response with
  | Some e =>
      if bool_decide (code e = lit "PGRST116") then (Resolved NoData, s')
      else (Rejected e, logError "getById" tableName e s')
  | None => (Resolved (data response), s')
  end.

End Client.

(** [inRange from to index]: the row [index] lies between the bounds of
    a range, which are integers. *)
Definition inRange (from to : number) (index : Z) : Prop :=
  exists lower upper : Z,
    integerValue from = Some lower /\ integerValue to = Some upper /\
    (lower <= index <= upper)%Z.

(** The row indices that a query asks for: those inside every one of
    its [Range] calls. *)
Definition asksFor (q : Query) (index : Z) : Prop :=
  Forall (fun c => match c with
                   | Range from to => inRange from to index
                   | _ => True
                   end) (calls q).

Definition isRange (c : Call) : bool :=
  match c with
  | Range _ _ => true
  | _ => false
  end.

(** A value that [applyFilters] compares by equality. *)
Definition isPlain (v : Value) : bool :=
  match v with
  | VUndefined | VBoolean _ | VNumber _ | VString _ => true
  | _ => false
  end.

(** The eight operators of lines 169-176. *)
Definition operators : list string :=
  ["gt"; "gte"; "lt"; "lte"; "neq"; "like"; "ilike"; "is"]%string.

(** A server that gives the same answer to every query. *)
Definition answer {Row PostgrestError : Type} (response : @Response Row PostgrestError)
  : Query -> unit -> @Response Row PostgrestError * unit :=
  fun _ store => (response, store).

End Api.

(** * Properties *)

(** ** Strings *)

(** Proves [occursIn search s] for two closed texts by running the
    search. *)
Ltac find_occurrence :=
  match goal with
  | |- occursIn ?m ?b =>
      let r := eval vm_compute in (cut m b) in
      match r with
      | Some (?pre, ?post) => exists pre, post; vm_compute; reflexivity
      end
  end.

Section StringFacts.

Lemma endsWith_endsIn (s t : str) : endsWith s t = true <-> endsIn s t.
Proof.
  unfold endsWith, endsIn. split.
  - destruct (Nat.ltb_spec (length s) (length t)) as [|Hle]; [discriminate|].
    intros H%bool_decide_eq_true. exists (take (length s - length t) s).
    pose proof (take_drop (length s - length t) s) as E.
    rewrite H in E. done.
  - intros [stem ->]. rewrite length_app.
    destruct (Nat.ltb_spec (length stem + length t) (length t)); [lia|].
    apply bool_decide_eq_true.
    replace (length stem + length t - length t)%nat with (length stem) by lia.
    apply drop_app_length.
Qed.

Lemma endsWith_not_endsIn (s t : str) : endsWith s t = false <-> ~ endsIn s t.
Proof.
  rewrite <- endsWith_endsIn. destruct (endsWith s t); split; congruence.
Qed.

Lemma endsWith_reflect (s t : str) : reflect (endsIn s t) (endsWith s t).
Proof.
  destruct (endsWith s t) eqn:E; constructor.
  - by apply endsWith_endsIn.
  - by apply endsWith_not_endsIn.
Qed.

Lemma slice_drop_last (stem : str) (c : ascii) :
  slice (stem ++ [c]) 0 (Some (-1)%Z) = stem.
Proof.
  unfold slice. rewrite length_app. cbn [length].
  replace (0 <? 0)%Z with false by reflexivity.
  replace (-1 <? 0)%Z with true by reflexivity.
  rewrite Z.min_l by lia. rewrite Z.max_l by lia.
  cbn [Z.to_nat drop].
  replace (Z.to_nat _) with (length stem) by lia.
  apply take_app_length.
Qed.

Lemma slice_from_1 {A : Type} (c : A) (r : list A) : slice (c :: r) 1 None = r.
Proof.
  unfold slice. cbn [length].
  replace (1 <? 0)%Z with false by reflexivity.
  rewrite Z.min_l by lia. cbn [Z.to_nat Pos.to_nat Pos.iter_op drop].
  change (drop 1 (c :: r)) with r.
  apply take_ge. lia.
Qed.

Lemma capitalize_word (w : str) :
  toUpperCase (charAt w 0) ++ toLowerCase (slice w 1 None) = capitalized w.
Proof.
  destruct w as [|c r]; [reflexivity|].
  rewrite slice_from_1. reflexivity.
Qed.

Lemma join_nil_concat {A : Type} (l : list (list A)) : join [] l = concat l.
Proof.
  induction l as [|w [|w' l] IH]; [reflexivity| |].
  - cbn. by rewrite app_nil_r.
  - change (join [] (w :: w' :: l)) with (w ++ [] ++ join [] (w' :: l)).
    rewrite IH. reflexivity.
Qed.

Lemma toPascalCase_concat (s : str) :
  toPascalCase s = concat (map capitalized (split underscore s)).
Proof.
  unfold toPascalCase. rewrite join_nil_concat. f_equal.
  apply map_ext. intros w. apply capitalize_word.
Qed.

Lemma split_nonempty {A : Type} `{EqDecision A} (sep : A) (s : list A) : split sep s <> [].
Proof.
  induction s as [|c r IH]; cbn; [done|].
  case_bool_decide; [done|]. destruct (split sep r); done.
Qed.

Lemma join_split {A : Type} `{EqDecision A} (sep : A) (s : list A) : join [sep] (split sep s) = s.
Proof.
  induction s as [|c r IH]; [reflexivity|].
  cbn [split]. case_bool_decide as Hc.
  - subst c. pose proof (split_nonempty sep r) as Hne.
    destruct (split sep r) as [|w ws] eqn:E; [done|].
    change (join [sep] ([] :: w :: ws)) with ([] ++ [sep] ++ join [sep] (w :: ws)).
    rewrite IH. reflexivity.
  - pose proof (split_nonempty sep r) as Hne.
    destruct (split sep r) as [|w ws] eqn:E; [done|].
    rewrite <- IH. destruct ws; reflexivity.
Qed.

Lemma split_free {A : Type} `{EqDecision A} (sep : A) (s : list A) : Forall (fun w => sep ∉ w) (split sep s).
Proof.
  induction s as [|c r IH]; cbn [split].
  - constructor; [|constructor]. apply not_elem_of_nil.
  - case_bool_decide as Hc.
    + constructor; [apply not_elem_of_nil | done].
    + destruct (split sep r) as [|w ws].
      { constructor; [|constructor]. rewrite not_elem_of_cons.
        split; [congruence | apply not_elem_of_nil]. }
      inversion IH; subst. constructor; [|done].
      rewrite not_elem_of_cons. split; [congruence | done].
Qed.

Lemma split_free_word {A : Type} `{EqDecision A} (sep : A) (w : list A) : sep ∉ w -> split sep w = [w].
Proof.
  induction w as [|c r IH]; [reflexivity|].
  rewrite not_elem_of_cons. intros [Hc Hr]. cbn [split].
  rewrite bool_decide_eq_false_2 by congruence.
  by rewrite IH.
Qed.

Lemma split_app_sep {A : Type} `{EqDecision A} (sep : A) (w rest : list A) :
  sep ∉ w -> split sep (w ++ sep :: rest) = w :: split sep rest.
Proof.
  induction w as [|c r IH].
  - intros _. cbn. by rewrite bool_decide_eq_true_2.
  - rewrite not_elem_of_cons. intros [Hc Hr].
    cbn [app split]. rewrite bool_decide_eq_false_2 by congruence.
    by rewrite IH.
Qed.

(** The segments of a text are unique: a text assembled from
    separator-free parts splits into these parts. *)
Lemma split_join {A : Type} `{EqDecision A} (sep : A) (segs : list (list A)) :
  segs <> [] -> Forall (fun w => sep ∉ w) segs -> split sep (join [sep] segs) = segs.
Proof.
  induction segs as [|w [|w' ws] IH]; [done| |].
  - intros _ H. inversion H; subst. by apply split_free_word.
  - intros _ H. inversion H as [|? ? Hw Hrest]; subst.
    change (join [sep] (w :: w' :: ws)) with (w ++ sep :: join [sep] (w' :: ws)).
    rewrite split_app_sep by done. f_equal. by apply IH.
Qed.

Lemma underscore_caseStable : caseStable underscore.
Proof.
  intros c. destruct c as [[] [] [] [] [] [] [] []]; vm_compute; split; congruence.
Qed.

Lemma dollar_caseStable : caseStable dollar.
Proof.
  intros c. destruct c as [[] [] [] [] [] [] [] []]; vm_compute; split; congruence.
Qed.

Lemma capitalized_free (x : ascii) (w : str) :
  caseStable x -> x ∉ w -> x ∉ capitalized w.
Proof.
  intros Hx. destruct w as [|c r]; [done|].
  rewrite not_elem_of_cons. intros [Hc Hr]. cbn [capitalized].
  rewrite not_elem_of_cons. split.
  - intros E. by apply (proj1 (Hx c ltac:(congruence))).
  - intros (c' & E & Hin)%list_elem_of_fmap.
    apply (proj2 (Hx c' ltac:(by intros ->))). done.
Qed.

Lemma concat_free {A : Type} (x : A) (l : list (list A)) :
  Forall (fun w => x ∉ w) l -> x ∉ concat l.
Proof.
  induction 1 as [|w l Hw Hl IH]; cbn.
  - apply not_elem_of_nil.
  - rewrite elem_of_app. tauto.
Qed.

Lemma elem_of_join {A : Type} (sep : list A) (ws : list (list A)) (w : list A) (c : A) :
  w ∈ ws -> c ∈ w -> c ∈ join sep ws.
Proof.
  induction ws as [|w' [|w'' ws] IH]; [by intros ?%elem_of_nil| |].
  - intros ->%list_elem_of_singleton. done.
  - change (join sep (w' :: w'' :: ws)) with (w' ++ sep ++ join sep (w'' :: ws)).
    rewrite elem_of_cons, !elem_of_app. intros [-> | Hin] Hc; [by left|].
    right. right. by apply IH.
Qed.

Lemma split_segments_free {A : Type} `{EqDecision A} (x sep : A) (s : list A) :
  x ∉ s -> Forall (fun w => x ∉ w) (split sep s).
Proof.
  intros Hx. apply Forall_forall. intros w Hw Hxw. apply Hx.
  rewrite <- (join_split sep s). by apply (elem_of_join _ _ w).
Qed.

Lemma toPascalCase_free (x : ascii) (s : str) :
  caseStable x -> x ∉ s -> x ∉ toPascalCase s.
Proof.
  intros Hx Hs. rewrite toPascalCase_concat. apply concat_free.
  rewrite Forall_map. eapply Forall_impl; [by apply split_segments_free|].
  intros w Hw. by apply capitalized_free.
Qed.

Lemma slice_subseteq (s : str) (a : Z) (b : option Z) : slice s a b ⊆ s.
Proof.
  unfold slice. etransitivity; [apply subseteq_take | apply subseteq_drop].
Qed.

End StringFacts.

(** *** Search and replace *)

Section Replace.

Lemma isPrefix_app (p r : str) : isPrefix p (p ++ r) = true.
Proof.
  induction p as [|a p IH]; [reflexivity|].
  cbn. by rewrite bool_decide_eq_true_2.
Qed.

Lemma isPrefix_inv (p s : str) : isPrefix p s = true -> s = p ++ drop (length p) s.
Proof.
  revert s. induction p as [|a p IH]; intros [|b s]; cbn; try done.
  intros [Hab Hp]%andb_prop. apply bool_decide_eq_true in Hab as ->.
  f_equal. by apply IH.
Qed.

Lemma cut_sound (search s pre post : str) :
  cut search s = Some (pre, post) -> s = pre ++ search ++ post.
Proof.
  revert pre. induction s as [|c r IH]; intros pre; cbn [cut].
  - destruct (isPrefix search []) eqn:E; [|done].
    intros [= <- <-]. by apply isPrefix_inv.
  - destruct (isPrefix search (c :: r)) eqn:E.
    + intros [= <- <-]. by apply isPrefix_inv.
    + destruct (cut search r) as [[pre' post']|] eqn:Er; [|done].
      intros [= <- <-]. cbn. f_equal. by apply IH.
Qed.

Lemma cut_first (search pre post s : str) :
  firstOccurrence search pre post s -> cut search s = Some (pre, post).
Proof.
  intros [-> Hmin]. induction pre as [|c pre IH].
  - cbn [app]. destruct (search ++ post) eqn:E; cbn [cut];
      rewrite <- E, isPrefix_app, drop_app_length; reflexivity.
  - cbn [app cut].
    destruct (isPrefix search (c :: pre ++ search ++ post)) eqn:E.
    + apply isPrefix_inv in E.
      specialize (Hmin [] _ E). cbn in Hmin. lia.
    + rewrite IH; [reflexivity|].
      intros pre' post' E'. specialize (Hmin (c :: pre') post').
      cbn in Hmin. rewrite E' in Hmin. specialize (Hmin eq_refl). lia.
Qed.

Lemma cut_minimal (search s pre post : str) :
  cut search s = Some (pre, post) -> firstOccurrence search pre post s.
Proof.
  intros H. split; [by apply cut_sound|]. revert pre H.
  induction s as [|c r IH]; intros pre; cbn [cut].
  - destruct (isPrefix search []); [|done]. intros [= <- <-] ? ? _. cbn. lia.
  - destruct (isPrefix search (c :: r)) eqn:E.
    + intros [= <- <-] ? ? _. cbn. lia.
    + destruct (cut search r) as [[pre0 post0]|] eqn:Er; [|done].
      intros [= <- <-] pre' post' E'. destruct pre' as [|c' pre'].
      * cbn [app] in E'. rewrite E', isPrefix_app in E. done.
      * injection E' as <- E'. cbn [length].
        specialize (IH pre0 eq_refl pre' post' E'). lia.
Qed.

(** [replace] rewrites the first occurrence, and only that one: the
    text before it and the whole text after it are kept. *)
Lemma replace_first (search pre post s replacement : str) :
  firstOccurrence search pre post s ->
  replace s search replacement =
  pre ++ GetSubstitution search pre post replacement ++ post.
Proof. intros H. unfold replace. by rewrite (cut_first _ _ _ _ H). Qed.

Lemma GetSubstitution_plain (matched pre post r : str) :
  noDollar r -> GetSubstitution matched pre post r = r.
Proof.
  unfold noDollar. induction r as [|c r IH]; [reflexivity|].
  rewrite not_elem_of_cons. intros [Hc Hr]. cbn [GetSubstitution].
  rewrite bool_decide_eq_false_2 by congruence. by rewrite IH.
Qed.

(** A replacement text that does not end in a dollar sign is expanded
    independently of what follows it. *)
Lemma GetSubstitution_app (matched pre post a b : str) :
  ~ endsIn a [dollar] ->
  GetSubstitution matched pre post (a ++ b) =
  GetSubstitution matched pre post a ++ GetSubstitution matched pre post b.
Proof.
  remember (length a) as n eqn:Hn. revert a Hn.
  induction n as [n IH] using lt_wf_ind. intros a Hn Hend.
  destruct a as [|c r]; [reflexivity|].
  assert (Hr : ~ endsIn r [dollar]).
  { intros [stem ->]. apply Hend. by exists (c :: stem). }
  cbn [app GetSubstitution]. case_bool_decide as Hc.
  - destruct r as [|c' r'].
    + exfalso. apply Hend. exists []. by rewrite Hc.
    + assert (Hr' : ~ endsIn r' [dollar]).
      { intros [stem ->]. apply Hr. by exists (c' :: stem). }
      cbn [app]. cbn [length] in Hn.
      pose proof (IH (length r') ltac:(lia) r' eq_refl Hr') as IH2.
      pose proof (IH (length (c' :: r')) ltac:(cbn; lia) (c' :: r') eq_refl Hr) as IH1.
      repeat case_bool_decide; rewrite ?IH2, <- ?app_assoc; try reflexivity.
      change (c' :: r' ++ b) with ((c' :: r') ++ b). by rewrite IH1.
  - cbn [length] in Hn.
    by rewrite (IH (length r) ltac:(lia) r eq_refl Hr).
Qed.

Lemma GetSubstitution_join (matched pre post : str) (blocks : list str) :
  Forall (fun b => ~ endsIn b [dollar]) blocks ->
  GetSubstitution matched pre post (join newline blocks) =
  join newline (map (GetSubstitution matched pre post) blocks).
Proof.
  induction 1 as [|b [|b' bs] Hb Hbs IH]; [reflexivity|reflexivity|].
  change (join newline (b :: b' :: bs)) with (b ++ newline ++ join newline (b' :: bs)).
  rewrite GetSubstitution_app by done.
  change (newline ++ join newline (b' :: bs))
    with (ascii_of_nat 10 :: join newline (b' :: bs)).
  cbn [GetSubstitution]. rewrite bool_decide_eq_false_2 by discriminate.
  rewrite IH. reflexivity.
Qed.

End Replace.

(** ** Identifier derivation *)

Section AnyRuntimeFacts.

Context {Char : Type} `{EqDecision Char}.
Variable underscore : Char.
Variables toUpperCase toLowerCase : list Char -> list Char.

Lemma capitalize_any_word (w : list Char) :
  toUpperCase (charAt w 0) ++ toLowerCase (slice w 1 None) =
  AnyRuntime.capitalized toUpperCase toLowerCase w.
Proof.
  destruct w as [|c r]; [reflexivity|].
  rewrite slice_from_1. reflexivity.
Qed.

Lemma toPascalCase_any_concat (s : list Char) :
  AnyRuntime.toPascalCase underscore toUpperCase toLowerCase s =
  concat (map (AnyRuntime.capitalized toUpperCase toLowerCase) (split underscore s)).
Proof.
  unfold AnyRuntime.toPascalCase. rewrite join_nil_concat. f_equal.
  apply map_ext. intros w. apply capitalize_any_word.
Qed.

(** What is used of the case mappings of Unicode: no character is
    mapped to an underscore. *)
Hypothesis toUpperCase_underscore :
  forall s : list Char, underscore ∉ s -> underscore ∉ toUpperCase s.
Hypothesis toLowerCase_underscore :
  forall s : list Char, underscore ∉ s -> underscore ∉ toLowerCase s.

Lemma capitalized_any_free (w : list Char) :
  underscore ∉ w -> underscore ∉ AnyRuntime.capitalized toUpperCase toLowerCase w.
Proof.
  intros Hw. unfold AnyRuntime.capitalized. rewrite elem_of_app. intros [Hin | Hin].
  - revert Hin. apply toUpperCase_underscore. intros Hin. apply Hw.
    revert Hin. apply subseteq_take.
  - revert Hin. apply toLowerCase_underscore. intros Hin. apply Hw.
    revert Hin. apply subseteq_drop.
Qed.

(** C7: the PascalCase form of every raw identifier has no underscore and
    is the concatenation of the identifier's underscore-delimited
    segments, each with its first character converted to upper case and
    the rest of it converted to lower case. The segments are the unique
    underscore-free parts that give the identifier back when joined with
    underscores. This holds for the strings and the case conversions of
    any runtime; that the result has no underscore rests on the
    conversions producing none. *)
Theorem toPascalCase_segments (raw : list Char) :
  exists segs : list (list Char),
    raw = join [underscore] segs /\
    Forall (fun w => underscore ∉ w) segs /\
    (forall segs' : list (list Char),
        segs' <> [] -> Forall (fun w => underscore ∉ w) segs' ->
        raw = join [underscore] segs' -> segs' = segs) /\
    AnyRuntime.toPascalCase underscore toUpperCase toLowerCase raw =
      concat (map (fun w => toUpperCase (take 1 w) ++ toLowerCase (drop 1 w)) segs) /\
    underscore ∉ AnyRuntime.toPascalCase underscore toUpperCase toLowerCase raw.
Proof.
  exists (split underscore raw).
  split; [symmetry; apply join_split|].
  split; [apply split_free|].
  split.
  - intros segs' Hne Hfree ->. symmetry. by apply split_join.
  - rewrite toPascalCase_any_concat. split; [reflexivity|].
    apply concat_free. rewrite Forall_map.
    eapply Forall_impl; [apply split_free|].
    intros w Hw. by apply capitalized_any_free.
Qed.

End AnyRuntimeFacts.

(** On ASCII text the two functions are the instances for the
    conversions of [JS]. *)
Lemma toPascalCase_instance (s : str) :
  toPascalCase s = AnyRuntime.toPascalCase underscore toUpperCase toLowerCase s.
Proof. reflexivity. Qed.

Lemma toCamelCase_instance (s : str) :
  toCamelCase s = AnyRuntime.toCamelCase underscore toUpperCase toLowerCase s.
Proof. reflexivity. Qed.

Lemma caseStable_toUpperCase (x : ascii) (s : str) :
  caseStable x -> x ∉ s -> x ∉ toUpperCase s.
Proof.
  intros Hx Hs (c & E & Hin)%list_elem_of_fmap.
  apply (proj1 (Hx c ltac:(by intros ->))). done.
Qed.

Lemma caseStable_toLowerCase (x : ascii) (s : str) :
  caseStable x -> x ∉ s -> x ∉ toLowerCase s.
Proof.
  intros Hx Hs (c & E & Hin)%list_elem_of_fmap.
  apply (proj2 (Hx c ltac:(by intros ->))). done.
Qed.

Lemma lit_noUnderscore_check (s : string) :
  forallb (fun c => negb (bool_decide (c = underscore))) (lit s) = true -> underscore ∉ lit s.
Proof.
  intros H Hin. rewrite forallb_forall in H.
  apply list_elem_of_In, H in Hin. by rewrite bool_decide_eq_true_2 in Hin.
Qed.

Lemma toPascalCase_segments_witness :
  (forall s : str, underscore ∉ s -> underscore ∉ toUpperCase s) /\
  (forall s : str, underscore ∉ s -> underscore ∉ toLowerCase s) /\
  toPascalCase (lit "uSER__type_x") = lit "UserTypeX" /\
  underscore ∉ toPascalCase (lit "uSER__type_x").
Proof.
  assert (H1 : forall s : str, underscore ∉ s -> underscore ∉ toUpperCase s)
    by (intros s; apply caseStable_toUpperCase, underscore_caseStable).
  assert (H2 : forall s : str, underscore ∉ s -> underscore ∉ toLowerCase s)
    by (intros s; apply caseStable_toLowerCase, underscore_caseStable).
  split; [exact H1|]. split; [exact H2|].
  destruct (toPascalCase_segments underscore toUpperCase toLowerCase H1 H2
              (lit "uSER__type_x")) as (segs & _ & _ & Hu & Hp & Hn).
  rewrite <- toPascalCase_instance in Hp, Hn.
  split; [|exact Hn].
  rewrite Hp, <- (Hu [lit "uSER"; []; lit "type"; lit "x"]).
  - reflexivity.
  - done.
  - repeat constructor; (apply not_elem_of_nil || by apply lit_noUnderscore_check).
  - reflexivity.
Defined.

(** C1: for a raw identifier outside the override table, a PascalCase
    name that ends in [s] but in none of [ss], [us], [is] is taken as the
    plural, and the singular is that name without its last [s]; any other
    PascalCase name is taken as the singular, and the plural appends an
    [s]. *)
Theorem pluralization_rule (raw : str) :
  raw <> lit "user_type" ->
  let pascal := toPascalCase raw in
  let strippable :=
    endsIn pascal (lit "s") /\ ~ endsIn pascal (lit "ss") /\
    ~ endsIn pascal (lit "us") /\ ~ endsIn pascal (lit "is") in
  (strippable ->
     singularPascalCase raw ++ lit "s" = pascal /\ pluralPascalCase raw = pascal) /\
  (~ strippable ->
     singularPascalCase raw = pascal /\ pluralPascalCase raw = pascal ++ lit "s").
Proof.
  intros Hraw pascal strippable.
  unfold singularPascalCase, pluralPascalCase, nameForms, overrideForms.
  rewrite bool_decide_eq_false_2 by done.
  fold pascal. unfold generalForms. clearbody pascal.
  destruct (endsWith_reflect pascal (lit "s")) as [Es|Es];
    destruct (endsWith_reflect pascal (lit "ss")) as [Ess|Ess];
    destruct (endsWith_reflect pascal (lit "us")) as [Eus|Eus];
    destruct (endsWith_reflect pascal (lit "is")) as [Eis|Eis];
    cbn [andb negb singular plural];
    (split; [intros (H1 & H2 & H3 & H4); try tauto | intros Hn; try done]).
  - destruct Es as [stem ->].
    change (lit "s") with ["s"%char]. by rewrite slice_drop_last.
  - exfalso. apply Hn. unfold strippable. tauto.
Qed.

Lemma pluralization_rule_witness :
  lit "posts" <> lit "user_type" /\
  (singularPascalCase (lit "posts") ++ lit "s" = lit "Posts" /\
   pluralPascalCase (lit "posts") = lit "Posts") /\
  (singularPascalCase (lit "status") = lit "Status" /\
   pluralPascalCase (lit "status") = lit "Statuss").
Proof.
  split; [discriminate|]. split.
  - apply (proj1 (pluralization_rule (lit "posts") ltac:(discriminate))).
    repeat split.
    + by exists (lit "Post").
    + intros H%endsWith_endsIn. discriminate H.
    + intros H%endsWith_endsIn. discriminate H.
    + intros H%endsWith_endsIn. discriminate H.
  - apply (proj2 (pluralization_rule (lit "status") ltac:(discriminate))).
    intros (_ & _ & H & _). apply H. by exists (lit "Stat").
Defined.

Lemma lit_noDollar_check (s : string) :
  forallb (fun c => negb (bool_decide (c = dollar))) (lit s) = true -> noDollar (lit s).
Proof.
  unfold noDollar. induction (lit s) as [|c r IH]; cbn [forallb].
  - intros _. apply not_elem_of_nil.
  - intros [Hc Hr]%andb_prop. rewrite not_elem_of_cons. split; [|by apply IH].
    apply negb_true_iff, bool_decide_eq_false in Hc. done.
Qed.

(** The forms and the block of a table name with no dollar sign have
    none either. *)
Lemma nameForms_noDollar (tableName : str) :
  noDollar tableName ->
  noDollar (singularPascalCase tableName) /\ noDollar (pluralPascalCase tableName).
Proof.
  intros Hn. unfold singularPascalCase, pluralPascalCase, nameForms, overrideForms.
  case_bool_decide as Hov;
    [split; cbn [singular plural]; by apply lit_noDollar_check|].
  pose proof (toPascalCase_free dollar tableName dollar_caseStable Hn) as Hp.
  unfold generalForms. destruct (_ && _); cbn [singular plural]; split; try done.
  - intros Hin. apply Hp. by apply (slice_subseteq _ _ _ _ Hin).
  - unfold noDollar. rewrite elem_of_app. intros [Hin | Hin]; [done|].
    by apply lit_noDollar_check in Hin.
Qed.

Lemma generateMethodsForTable_noDollar (tableName : str) :
  noDollar tableName -> noDollar (generateMethodsForTable tableName).
Proof.
  intros Hn. destruct (nameForms_noDollar _ Hn) as [Hs Hp].
  pose proof (toPascalCase_free dollar tableName dollar_caseStable Hn) as Hpc.
  unfold generateMethodsForTable, noDollar in *.
  repeat (rewrite elem_of_app; intros [H | H];
          [ first [ done | by apply lit_noDollar_check in H ] | revert H ]).
  by apply lit_noDollar_check.
Qed.

Lemma generateMethodsForTable_end (tableName : str) :
  ~ endsIn (generateMethodsForTable tableName) [dollar].
Proof.
  unfold generateMethodsForTable.
  change (lit "', id, options);") with (lit "', id, options)" ++ [";"%char]).
  rewrite !app_assoc. intros [stem E].
  apply app_inj_tail in E as [_ E]. discriminate E.
Qed.

(** C2: the override for raw [user_type] wins over whatever the general
    rule produced: the forms are [UserType] and [UserTypes], and these
    are the names of the generated methods. *)
Theorem user_type_override :
  (forall f : Forms,
      overrideForms (lit "user_type") f = mkForms (lit "UserType") (lit "UserTypes")) /\
  singularPascalCase (lit "user_type") = lit "UserType" /\
  pluralPascalCase (lit "user_type") = lit "UserTypes" /\
  Forall (fun method => occursIn (lit method) (generateMethodsForTable (lit "user_type")))
    [ "
  getUserTypes = ("%string; "
  getUserType = ("%string; "
  createUserType = ("%string; "
  createManyUserTypes = ("%string; "
  updateUserType = ("%string; "
  updateManyUserTypes = ("%string; "
  deleteUserType = ("%string ].
Proof.
  split; [intros f; reflexivity|].
  split; [reflexivity|]. split; [reflexivity|].
  repeat (apply Forall_cons; split; [find_occurrence|]).
  apply Forall_nil_2.
Qed.

(** ** The syntax tree *)

Section Tree.

Lemma visit_unfold (anc : list Node) (n : Node) (acc : list str) :
  visit anc n acc =
  fold_left (fun a c => visit (n :: anc) c a) (children n) (acc ++ pushed (anc, n)).
Proof.
  destruct n as [k t p e nm cs]. unfold pushed. cbn [visit children fst snd].
  destruct (isTableProperty _ _); [reflexivity|]. by rewrite app_nil_r.
Qed.

Lemma preorder_unfold (anc : list Node) (n : Node) :
  preorder anc n = (anc, n) :: flat_map (preorder (n :: anc)) (children n).
Proof. by destruct n. Qed.

Lemma fold_visit (parents : list Node) (cs : list Node) :
  Forall (fun c => forall anc acc,
              visit anc c acc = acc ++ flat_map pushed (preorder anc c)) cs ->
  forall acc : list str,
    fold_left (fun a c => visit parents c a) cs acc =
    acc ++ flat_map pushed (flat_map (preorder parents) cs).
Proof.
  induction 1 as [|c cs' Hc Hcs IHcs]; intros acc.
  - cbn. by rewrite app_nil_r.
  - cbn [fold_left flat_map]. rewrite Hc, IHcs.
    rewrite flat_map_app, app_assoc. reflexivity.
Qed.

(** The array that [visit] fills is the accumulator followed by the
    names that the selected nodes push, in pre-order. *)
Lemma visit_preorder (n : Node) :
  forall (anc : list Node) (acc : list str),
    visit anc n acc = acc ++ flat_map pushed (preorder anc n).
Proof.
  induction n as [k t p e nm cs IH] using Node_rose_ind.
  intros anc acc. rewrite visit_unfold, preorder_unfold.
  cbn [children flat_map]. rewrite fold_visit by exact IH.
  by rewrite app_assoc.
Qed.

Lemma flat_map_pushed (l : list (list Node * Node)) :
  flat_map pushed l =
  map nameText (map snd (filter (fun an => isTableProperty an.1 an.2) l)).
Proof.
  induction l as [|[anc n] l IH]; [reflexivity|].
  cbn [flat_map]. rewrite IH. unfold pushed at 1.
  rewrite filter_cons. cbn [fst snd].
  destruct (isTableProperty anc n); cbn; [reflexivity|].
  destruct (decide _) as [H|H]; [done|reflexivity].
Qed.

Lemma tableNamesOf_tableNodes (root : Node) :
  tableNamesOf root = map nameText (tableNodes root).
Proof.
  unfold tableNamesOf, tableNodes. rewrite visit_preorder. cbn [app].
  apply flat_map_pushed.
Qed.

Lemma preorder_self (anc : list Node) (n : Node) : In (anc, n) (preorder anc n).
Proof. rewrite preorder_unfold. by left. Qed.

Lemma preorder_child (r : Node) :
  forall (top anc : list Node) (n c : Node),
    In (anc, n) (preorder top r) -> In c (children n) ->
    In (n :: anc, c) (preorder top r).
Proof.
  induction r as [k t p e nm cs IH] using Node_rose_ind.
  intros top anc n c. rewrite preorder_unfold. cbn [children].
  intros [E | Hin] Hc; right; apply in_flat_map.
  - inversion E; subst. exists c. split; [done | apply preorder_self].
  - apply in_flat_map in Hin as (c' & Hc' & Hin).
    exists c'. split; [done|].
    rewrite List.Forall_forall in IH. by apply (IH c' Hc').
Qed.

Lemma preorder_parent (r : Node) :
  forall (top anc : list Node) (n : Node),
    In (anc, n) (preorder top r) ->
    (anc, n) = (top, r) \/
    exists p anc', anc = p :: anc' /\ In (anc', p) (preorder top r) /\ In n (children p).
Proof.
  induction r as [k t p e nm cs IH] using Node_rose_ind.
  intros top anc n. rewrite preorder_unfold. cbn [children].
  intros [E | Hin]; [by left | right].
  apply in_flat_map in Hin as (c & Hc & Hin).
  rewrite List.Forall_forall in IH.
  destruct (IH c Hc _ _ _ Hin) as [E | (q & anc' & -> & Hq & Hn)].
  - inversion E; subst. eexists _, top. split; [reflexivity|].
    split; [by left | done].
  - exists q, anc'. split; [reflexivity|]. split; [|done].
    right. apply in_flat_map. by exists c.
Qed.

(** *** Extents *)

Lemma wellPlaced_unfold (n : Node) :
  wellPlaced n = true ->
  (pos n <= end_ n)%nat /\ forallb wellPlaced (children n) = true /\
  chained (pos n) (end_ n) (children n) = true /\ ownTokens n = true.
Proof.
  destruct n as [k t p e nm cs]. cbn [wellPlaced pos end_ children].
  intros [[[H1%Nat.leb_le H2]%andb_prop H3]%andb_prop H4]%andb_prop. done.
Qed.

Lemma chained_le (from limit : nat) (cs : list Node) :
  forallb wellPlaced cs = true -> chained from limit cs = true -> (from <= limit)%nat.
Proof.
  revert from. induction cs as [|c cs IH]; intros from; cbn [forallb chained].
  - intros _ H%Nat.leb_le. done.
  - intros [Hc Hcs]%andb_prop [Hfrom Hrest]%andb_prop.
    apply Nat.leb_le in Hfrom. specialize (IH _ Hcs Hrest).
    apply wellPlaced_unfold in Hc as [Hpe _]. lia.
Qed.

Lemma chained_inside (from limit : nat) (cs : list Node) (c : Node) :
  forallb wellPlaced cs = true -> chained from limit cs = true -> In c cs ->
  (from <= pos c /\ end_ c <= limit)%nat /\ wellPlaced c = true.
Proof.
  revert from. induction cs as [|c' cs IH]; intros from; cbn [forallb chained]; [done|].
  intros [Hc Hcs]%andb_prop [Hfrom Hrest]%andb_prop [-> | Hin].
  - apply Nat.leb_le in Hfrom. pose proof (chained_le _ _ _ Hcs Hrest). done.
  - destruct (IH _ Hcs Hrest Hin) as [[H1 H2] H3].
    apply Nat.leb_le in Hfrom. apply wellPlaced_unfold in Hc as [Hpe _].
    split; [lia | done].
Qed.

(** Every node of a well-placed tree lies inside the root, and is well
    placed itself. *)
Lemma preorder_inside (n : Node) :
  forall (anc a : list Node) (m : Node),
    wellPlaced n = true -> In (a, m) (preorder anc n) ->
    (pos n <= pos m /\ end_ m <= end_ n)%nat /\ wellPlaced m = true.
Proof.
  induction n as [k t p e nm cs IH] using Node_rose_ind.
  intros anc a m Hwp. rewrite preorder_unfold. cbn [children].
  intros [E | Hin].
  - inversion E; subst. split; [lia | done].
  - apply in_flat_map in Hin as (c & Hc & Hin).
    apply wellPlaced_unfold in Hwp as (Hpe & Hcs & Hch & _). cbn [pos end_ children] in *.
    destruct (chained_inside _ _ _ _ Hcs Hch Hc) as [[H1 H2] Hwc].
    rewrite List.Forall_forall in IH.
    destruct (IH c Hc _ _ _ Hwc Hin) as [[H3 H4] Hwm].
    split; [lia | done].
Qed.

Lemma isTableProperty_kinds (parent : Node) (anc : list Node) (m : Node) :
  isTableProperty (parent :: anc) m = true ->
  kind m = PropertySignature /\ kind parent = TypeLiteral.
Proof.
  unfold isTableProperty, isPropertySignature, isTypeLiteralNode.
  destruct anc as [|grand anc]; [rewrite andb_false_r; done|].
  intros [[Hm Hp]%andb_prop _]%andb_prop.
  apply andb_prop in Hp as [[Hp _]%andb_prop _].
  by apply bool_decide_eq_true in Hm, Hp.
Qed.

Lemma isTableProperty_signature (anc : list Node) (m : Node) :
  isTableProperty anc m = true -> kind m = PropertySignature.
Proof.
  unfold isTableProperty, isPropertySignature.
  intros [[Hm _]%andb_prop _]%andb_prop. by apply bool_decide_eq_true in Hm.
Qed.

(** A selected declaration is not empty. *)
Lemma selected_nonempty (anc : list Node) (m : Node) :
  wellPlaced m = true -> isTableProperty anc m = true -> (pos m < end_ m)%nat.
Proof.
  intros (_ & _ & _ & Hown)%wellPlaced_unfold Hk%isTableProperty_signature.
  unfold ownTokens in Hown. rewrite Hk in Hown. by apply Nat.ltb_lt.
Qed.

(** A selected declaration below the root of a subtree starts after
    that root. *)
Lemma selected_after (n : Node) (anc a : list Node) (m : Node) :
  wellPlaced n = true -> In (a, m) (preorder anc n) -> isTableProperty a m = true ->
  (a, m) = (anc, n) \/ (pos n < pos m)%nat.
Proof.
  intros Hwp Hin Hsel.
  destruct (preorder_parent _ _ _ _ Hin) as [E | (p & a' & -> & Hp & Hm)]; [by left | right].
  destruct (isTableProperty_kinds _ _ _ Hsel) as [_ Hk].
  destruct (preorder_inside _ _ _ _ Hwp Hp) as [[H1 _] Hwpp].
  apply wellPlaced_unfold in Hwpp as (_ & _ & _ & Hown).
  unfold ownTokens in Hown. rewrite Hk in Hown.
  rewrite forallb_forall in Hown. specialize (Hown m Hm).
  apply Nat.ltb_lt in Hown. lia.
Qed.

Lemma elem_of_selected (l : list (list Node * Node)) (m : Node) :
  m ∈ selected l <-> exists a, isTableProperty a m = true /\ In (a, m) l.
Proof.
  unfold selected. rewrite list_elem_of_fmap. split.
  - intros ([a m'] & -> & [Hs Hin]%list_elem_of_filter). cbn [fst snd] in *.
    exists a. split; [by apply Is_true_true | by apply list_elem_of_In].
  - intros (a & Hs & Hin). exists (a, m). split; [done|].
    apply list_elem_of_filter. split; [by apply Is_true_true | by apply list_elem_of_In].
Qed.

Lemma selected_app (l1 l2 : list (list Node * Node)) :
  selected (l1 ++ l2) = selected l1 ++ selected l2.
Proof. unfold selected. by rewrite filter_app, map_app. Qed.

Lemma selected_children (parents : list Node) (cs : list Node) :
  Forall (fun c => forall anc, wellPlaced c = true ->
              StronglySorted declaredBefore (selected (preorder anc c))) cs ->
  forall from limit : nat,
    forallb wellPlaced cs = true -> chained from limit cs = true ->
    StronglySorted declaredBefore (selected (flat_map (preorder parents) cs)).
Proof.
  induction 1 as [|c cs Hc Hcs IH]; intros from limit Hwp Hch.
  - constructor.
  - cbn [forallb chained flat_map] in *.
    apply andb_prop in Hwp as [Hwc Hwcs]. apply andb_prop in Hch as [Hfrom Hrest].
    rewrite selected_app. apply StronglySorted_app_2; [|by apply Hc|by eapply IH].
    intros x1 x2 (a1 & Hs1 & Hin1)%elem_of_selected (a2 & Hs2 & Hin2)%elem_of_selected.
    destruct (preorder_inside _ _ _ _ Hwc Hin1) as [[_ Hend] Hw1].
    pose proof (selected_nonempty _ _ Hw1 Hs1) as Hne.
    apply in_flat_map in Hin2 as (c' & Hc' & Hin2).
    destruct (chained_inside _ _ _ _ Hwcs Hrest Hc') as [[Hstart _] Hwc'].
    destruct (preorder_inside _ _ _ _ Hwc' Hin2) as [[Hpos _] _].
    unfold declaredBefore. lia.
Qed.

(** In a well-placed tree the selected declarations come in the order
    of the source text. *)
Lemma selected_sorted (n : Node) :
  forall anc : list Node,
    wellPlaced n = true -> StronglySorted declaredBefore (selected (preorder anc n)).
Proof.
  induction n as [k t p e nm cs IH] using Node_rose_ind.
  intros anc Hwp. set (n := mkNode k t p e nm cs) in *.
  pose proof (wellPlaced_unfold _ Hwp) as (Hpe & Hcs & Hch & Hown).
  pose proof (selected_children (n :: anc) cs IH _ _ Hcs Hch) as Hrest.
  rewrite preorder_unfold. change (children n) with cs.
  unfold selected at 1. rewrite filter_cons. cbn [fst snd].
  destruct (decide _) as [Hsel | _]; [|exact Hrest].
  cbn [map snd]. apply Is_true_true in Hsel. constructor; [exact Hrest|].
  apply Forall_forall. intros x (a & Hs & Hin)%elem_of_selected.
  apply in_flat_map in Hin as (c & Hc & Hin).
  destruct (chained_inside _ _ _ _ Hcs Hch Hc) as [[Hstart _] Hwc].
  destruct (selected_after _ _ _ _ Hwc Hin Hs) as [E | Hlt].
  - inversion E; subst a x.
    destruct (isTableProperty_kinds _ _ _ Hs) as [_ Hk].
    apply isTableProperty_signature in Hsel. congruence.
  - unfold declaredBefore. change (pos n) with p in *. lia.
Qed.

Lemma tableNodes_sorted (root : Node) :
  wellPlaced root = true -> StronglySorted declaredBefore (tableNodes root).
Proof. intros Hwp. by apply (selected_sorted root []). Qed.

End Tree.

(** C10: a name is extracted exactly when it is the identifier name of a
    property signature that is a member of a type literal that is a
    child of a property signature named [Tables]. The nodes [outer] that
    enclose the [Tables] property are not looked at: the pattern counts
    wherever it occurs in the file. *)
Theorem extraction_looks_three_levels_up (root : Node) (x : str) :
  In x (tableNamesOf root) <->
  exists (outer : list Node) (tables typeLiteral member tname mname : Node),
    In (outer, tables) (preorder [] root) /\
    In typeLiteral (children tables) /\
    In member (children typeLiteral) /\
    kind tables = PropertySignature /\
    name tables = Some tname /\ kind tname = Identifier /\ text tname = lit "Tables" /\
    kind typeLiteral = TypeLiteral /\
    kind member = PropertySignature /\
    name member = Some mname /\ kind mname = Identifier /\ text mname = x.
Proof.
  rewrite tableNamesOf_tableNodes. unfold tableNodes. split.
  - intros (member & <- & Hm)%in_map_iff.
    apply in_map_iff in Hm as ([anc m] & E & Hin). cbn in E. subst m.
    apply list_elem_of_In, list_elem_of_filter in Hin as [Hsel Hin].
    apply list_elem_of_In in Hin. cbn [fst snd] in Hsel.
    unfold isTableProperty, isPropertySignature, isTypeLiteralNode, isIdentifier in Hsel.
    destruct anc as [|typeLiteral [|tables outer]];
      try (rewrite ?andb_false_r in Hsel; by destruct Hsel).
    destruct (name tables) as [tname|] eqn:Etn;
      [|rewrite ?andb_false_r in Hsel; by destruct Hsel].
    destruct (name member) as [mname|] eqn:Emn;
      [|rewrite ?andb_false_r in Hsel; by destruct Hsel].
    repeat match goal with H : Is_true (_ && _) |- _ =>
      apply andb_prop_elim in H as [? ?] end.
    repeat match goal with H : Is_true (bool_decide _) |- _ =>
      apply bool_decide_unpack in H end.
    destruct (preorder_parent _ _ _ _ Hin) as [E | (q & anc' & E & Hq & Hmem)];
      [discriminate|].
    inversion E; subst q anc'.
    destruct (preorder_parent _ _ _ _ Hq) as [E' | (q & anc' & E' & Hq' & Hlit)];
      [discriminate|].
    inversion E'; subst q anc'.
    exists outer, tables, typeLiteral, member, tname, mname.
    unfold nameText. rewrite Emn. repeat split; done.
  - intros (outer & tables & typeLiteral & member & tname & mname &
            Hin & Hlit & Hmem & Kt & Etn & Ktn & Ttn & Kl & Km & Emn & Kmn & <-).
    apply in_map_iff. exists member. split; [unfold nameText; by rewrite Emn|].
    apply in_map_iff. exists (typeLiteral :: tables :: outer, member). split; [done|].
    apply list_elem_of_In, list_elem_of_filter. split.
    + cbn [fst snd]. unfold isTableProperty, isPropertySignature,
        isTypeLiteralNode, isIdentifier.
      rewrite Etn, Emn, Kt, Ktn, Ttn, Kl, Km, Kmn. done.
    + apply list_elem_of_In. apply preorder_child; [|done].
      by apply preorder_child.
Qed.

(** ** The world *)

Section WorldFacts.

Lemma bind_inv {A B : Type} (m : M A) (k : A -> M B) (w w' : World) (o : Outcome B) :
  bind m k w = (o, w') ->
  (exists a w1, m w = (Returned a, w1) /\ k a w1 = (o, w')) \/
  (exists e, m w = (Thrown e, w') /\ o = Thrown e).
Proof.
  unfold bind. destruct (m w) as [[a|e] w1]; [left; eauto|].
  intros [= <- <-]. right. eauto.
Qed.

Lemma bind_returned {A B : Type} (m : M A) (k : A -> M B) (w w' : World) (b : B) :
  bind m k w = (Returned b, w') ->
  exists a w1, m w = (Returned a, w1) /\ k a w1 = (Returned b, w').
Proof.
  intros [H | (e & _ & [=])]%bind_inv. done.
Qed.

Lemma bind_assoc {A B C : Type} (m : M A) (k : A -> M B) (h : B -> M C) (w : World) :
  bind (bind m k) h w = bind m (fun a => bind (k a) h) w.
Proof. unfold bind. by destruct (m w) as [[a|e] w1]. Qed.

Lemma preserves_ret {A : Type} (P : World -> Prop) (a : A) : preserves P (ret a).
Proof. by intros w. Qed.

Lemma preserves_bind {A B : Type} (P : World -> Prop) (m : M A) (k : A -> M B) :
  preserves P m -> (forall a, preserves P (k a)) -> preserves P (bind m k).
Proof.
  intros Hm Hk w HP. unfold bind. specialize (Hm w HP).
  destruct (m w) as [[a|e] w1]; cbn in *; [by apply Hk | done].
Qed.

Lemma preserves_tryCatch {A : Type} (P : World -> Prop) (body : M A) (h : Error -> M A) :
  preserves P body -> (forall e, preserves P (h e)) -> preserves P (tryCatch body h).
Proof.
  intros Hb Hh w HP. unfold tryCatch. specialize (Hb w HP).
  destruct (body w) as [[a|e] w1]; cbn in *; [done | by apply Hh].
Qed.

Lemma preserves_sys {A : Type} (P : World -> Prop) (c : syscall) (body : M A) :
  preserves P body -> preserves P (sys c body).
Proof.
  intros Hb w HP. unfold sys. destruct (refused w c); [done | by apply Hb].
Qed.

Lemma preserves_if {A : Type} (P : World -> Prop) (b : bool) (m1 m2 : M A) :
  preserves P m1 -> preserves P m2 -> preserves P (if b then m1 else m2).
Proof. by destruct b. Qed.

(** Computations that leave the files alone. *)
Lemma preserves_existsSync (P : World -> Prop) (p : path) : preserves P (existsSync p).
Proof. by intros w. Qed.

Lemma preserves_readFileSync (P : World -> Prop) (p : path) : preserves P (readFileSync p).
Proof.
  apply preserves_sys. intros w HP. by destruct (entryAt w p) as [[]|].
Qed.

Lemma mkdirp_keeps (rest made q : path) (e : entry) (m m' : gmap path entry) :
  m !! q = Some e -> mkdirp made rest m = Some m' -> m' !! q = Some e.
Proof.
  revert made m. induction rest as [|seg rest IH]; intros made m Hq; cbn [mkdirp].
  - by intros [= <-].
  - destruct (m !! (made ++ [seg])) as [[c|]|] eqn:E; [done | by apply IH |].
    apply IH. rewrite lookup_insert_ne; [done|]. intros <-. congruence.
Qed.

Section Keeps.

Variables (p : path) (c : str).

Lemma preserves_console_log (msg : Message) : preserves (holds p c) (console_log msg).
Proof. by intros w. Qed.

Lemma preserves_console_error (msg : Message) : preserves (holds p c) (console_error msg).
Proof. by intros w. Qed.

Lemma preserves_setTimeout (t : Timer) : preserves (holds p c) (setTimeout t).
Proof. by intros w. Qed.

Lemma preserves_writeFileSync (q : path) (content : str) :
  q <> p -> preserves (holds p c) (writeFileSync q content).
Proof.
  intros Hq. apply preserves_sys. intros w HP. unfold holds in *.
  destruct (entryAt w q) as [[]|]; cbn; try done;
    destruct (entryAt w (dirname q)) as [[]|]; cbn; try done;
    by rewrite lookup_insert_ne.
Qed.

Lemma preserves_unlinkSync (q : path) :
  q <> p -> preserves (holds p c) (unlinkSync q).
Proof.
  intros Hq. apply preserves_sys. intros w HP. unfold holds in *.
  destruct (entryAt w q) as [[]|]; cbn; try done.
  by rewrite lookup_delete_ne.
Qed.

Lemma preserves_mkdirSync (q : path) : preserves (holds p c) (mkdirSync q).
Proof.
  apply preserves_sys. intros w HP. unfold holds in *.
  destruct (mkdirp [] q (fs w)) as [m|] eqn:E; cbn; [|done].
  by apply (mkdirp_keeps _ _ _ _ _ _ HP E).
Qed.

End Keeps.

End WorldFacts.

Create HintDb world.

#[local] Hint Resolve preserves_ret preserves_bind preserves_tryCatch preserves_sys
  preserves_if preserves_existsSync preserves_readFileSync preserves_console_log
  preserves_console_error preserves_setTimeout preserves_writeFileSync
  preserves_unlinkSync preserves_mkdirSync : world.

(** ** The generator *)

Section GeneratorFacts.

Variable createSourceFile : str -> Node.
Variable cfg : Config.

Local Abbreviation TYPE := (TYPE_FILE_PATH cfg).
Local Abbreviation OUTPUT := (OUTPUT_FILE_PATH cfg).
Local Abbreviation TEMPLATE := (TEMPLATE_FILE_PATH cfg).

Lemma TEMPLATE_nonempty : TEMPLATE <> [].
Proof.
  unfold TEMPLATE_FILE_PATH, resolve. cbn [concat]. rewrite app_nil_r.
  intros H. apply app_eq_nil in H as [_ H]. apply app_eq_nil in H as [_ H]. done.
Qed.

Lemma entryAt_TEMPLATE (w : World) : entryAt w TEMPLATE = fs w !! TEMPLATE.
Proof.
  pose proof TEMPLATE_nonempty. unfold entryAt. by destruct TEMPLATE.
Qed.

(** An existing template is not written again. *)
Lemma generateTemplateFile_present (w : World) :
  is_Some (fs w !! TEMPLATE) -> generateTemplateFile cfg w = (Returned tt, w).
Proof.
  intros H. unfold generateTemplateFile, bind, existsSync.
  rewrite entryAt_TEMPLATE. by rewrite bool_decide_eq_true_2.
Qed.

Lemma preserves_fireTimer (p : path) (c : str) (t : Timer) :
  OUTPUT <> p -> preserves (holds p c) (fireTimer cfg t).
Proof. intros H. destruct t. unfold fireTimer. eauto 10 with world. Qed.

Lemma preserves_fireAll (p : path) (c : str) (ts : list Timer) :
  OUTPUT <> p -> preserves (holds p c) (fireAll cfg ts).
Proof.
  intros H. induction ts as [|t ts IH]; cbn [fireAll]; [apply preserves_ret|].
  apply preserves_bind; [by apply preserves_fireTimer | done].
Qed.

Lemma preserves_extractTableNames (P : World -> Prop) :
  preserves P (extractTableNames createSourceFile cfg).
Proof. unfold extractTableNames. eauto with world. Qed.

Lemma preserves_generateTemplateFile (p : path) (c : str) :
  preserves (holds p c) (generateTemplateFile cfg).
Proof.
  destruct (decide (p = TEMPLATE)) as [-> | Hne].
  - intros w H. rewrite generateTemplateFile_present; [done|].
    unfold holds in H. by rewrite H.
  - unfold generateTemplateFile. eauto 10 with world.
Qed.

Lemma preserves_drain (p : path) (c : str) :
  OUTPUT <> p ->
  preserves (holds p c) (fun w => fireAll cfg (timers w) (clearTimers w)).
Proof.
  intros H w HP. by apply (preserves_fireAll p c (timers w) H (clearTimers w)).
Qed.

(** The run keeps every file but the one at the output path. *)
Lemma preserves_run (p : path) (c : str) :
  OUTPUT <> p -> preserves (holds p c) (run createSourceFile cfg).
Proof.
  intros H. unfold run, generateApiClass, assemble, ensureOutputDir, removeExistingOutput.
  pose proof (preserves_generateTemplateFile p c).
  pose proof (preserves_extractTableNames (holds p c)).
  pose proof (preserves_drain p c H).
  eauto 20 with world.
Qed.

(** *** What a run that returns has done *)

Lemma readFileSync_returned (p : path) (w w' : World) (content : str) :
  readFileSync p w = (Returned content, w') ->
  w' = w /\ entryAt w p = Some (File content).
Proof.
  unfold readFileSync, sys. destruct (refused w _); [done|].
  destruct (entryAt w p) as [[c|]|]; try done. by intros [= <- <-].
Qed.

Lemma writeFileSync_returned (p : path) (content : str) (w w' : World) :
  writeFileSync p content w = (Returned tt, w') ->
  w' = setFs (<[p := File content]> (fs w)) w /\ p <> [].
Proof.
  unfold writeFileSync, sys. destruct (refused w _); [done|].
  destruct p as [|seg p]; [cbn; done|].
  destruct (entryAt w (seg :: p)) as [[c|]|]; try done;
    destruct (entryAt w (dirname (seg :: p))) as [[c'|]|]; try done;
    by intros [= <-].
Qed.

Lemma generateTemplateFile_other (p : path) (w : World) :
  p <> TEMPLATE -> entryAt (generateTemplateFile cfg w).2 p = entryAt w p.
Proof.
  intros Hp. unfold generateTemplateFile, bind, existsSync.
  destruct (negb _); [|done].
  unfold writeFileSync, sys. destruct (refused w _); [done|].
  destruct (entryAt w TEMPLATE) as [[c|]|]; try done;
    destruct (entryAt w (dirname TEMPLATE)) as [[c'|]|]; try done;
    cbn; unfold entryAt; destruct p; try done; cbn;
    by rewrite lookup_insert_ne.
Qed.

Lemma assemble_returned (w wa : World) (content : str) (names : list str) :
  assemble createSourceFile cfg w = (Returned (content, names), wa) ->
  exists schema template : str,
    wa = (generateTemplateFile cfg w).2 /\
    entryAt wa TYPE = Some (File schema) /\
    entryAt wa TEMPLATE = Some (File template) /\
    names = tableNamesOf (createSourceFile schema) /\
    extractTableNames createSourceFile cfg wa = (Returned names, wa) /\
    content = outputFor createSourceFile schema template.
Proof.
  unfold assemble. intros (u & w0 & Hg & H)%bind_returned.
  apply bind_returned in H as (names' & w1 & He & H).
  apply bind_returned in H as (template & w2 & Ht & H).
  pose proof He as He'. unfold extractTableNames in He.
  apply bind_returned in He as (schema & w3 & Hs & He).
  apply readFileSync_returned in Hs as [-> Hs].
  apply readFileSync_returned in Ht as [-> Ht].
  injection He as <- <-. injection H as <- <- <-.
  exists schema, template. rewrite Hg. done.
Qed.

Lemma fireAll_snoc (ts : list Timer) (t : Timer) (w w' : World) :
  fireAll cfg (ts ++ [t]) w = (Returned tt, w') ->
  exists w1, fireAll cfg ts w = (Returned tt, w1) /\ fireTimer cfg t w1 = (Returned tt, w').
Proof.
  revert w. induction ts as [|t' ts IH]; intros w; cbn [app fireAll].
  - intros ([] & w1 & Ht & [= <-])%bind_returned. exists w. done.
  - intros ([] & w1 & Ht & H)%bind_returned.
    destruct (IH _ H) as (w2 & Hts & Hlast).
    exists w2. split; [|done]. unfold bind. by rewrite Ht.
Qed.

Lemma fireTimer_returned (content : str) (names : list str) (w w' : World) :
  fireTimer cfg (WriteOutput content names) w = (Returned tt, w') ->
  entryAt w' OUTPUT = Some (File content).
Proof.
  unfold fireTimer. intros ([] & w1 & Hw & H)%bind_returned.
  apply writeFileSync_returned in Hw as [-> Hne].
  unfold bind, console_log in H. injection H as <-.
  unfold entryAt. destruct OUTPUT; [done|]. cbn. by rewrite lookup_insert_eq.
Qed.

Lemma timers_ensureOutputDir (w : World) :
  timers (ensureOutputDir cfg w).2 = timers w.
Proof.
  unfold ensureOutputDir, bind, existsSync. destruct (negb _); [|done].
  unfold mkdirSync, sys. destruct (refused w _); [done|].
  by destruct (mkdirp _ _ _).
Qed.

(** A run that returns has written the text that [assemble] computed. *)
Lemma run_returned (w w' : World) :
  run createSourceFile cfg w = (Returned tt, w') ->
  exists (content : str) (names : list str) (wa : World),
    assemble createSourceFile cfg w = (Returned (content, names), wa) /\
    entryAt w' OUTPUT = Some (File content).
Proof.
  unfold run. intros ([] & w1 & Hg & Hfire)%bind_returned.
  unfold generateApiClass in Hg.
  apply bind_returned in Hg as ([content names] & wa & Ha & Hg).
  cbn [fst snd] in Hg.
  apply bind_returned in Hg as ([] & wd & Hd & Hg).
  apply bind_returned in Hg as ([] & wr & Hr & Hg).
  unfold setTimeout in Hg. injection Hg as <-.
  cbn [timers addTimer] in Hfire.
  apply fireAll_snoc in Hfire as (w2 & _ & Hlast).
  apply fireTimer_returned in Hlast.
  exists content, names, wa. done.
Qed.

(** *** The template *)

(** C3, as amended: when a template file exists at the start of a run
    and the output path is not the template path, template creation is
    skipped and the run, whether it completes or fails, leaves the
    content of the template file as it was. *)
Theorem existing_template_kept (w : World) (c : str) :
  OUTPUT <> TEMPLATE ->
  holds TEMPLATE c w ->
  generateTemplateFile cfg w = (Returned tt, w) /\
  holds TEMPLATE c (run createSourceFile cfg w).2.
Proof.
  intros Hne H. split.
  - apply generateTemplateFile_present. unfold holds in H. by rewrite H.
  - by apply preserves_run.
Qed.

(** *** Regeneration *)

(** What a run that returns has read and written. *)
Lemma run_reads (w w' : World) :
  run createSourceFile cfg w = (Returned tt, w') ->
  exists schema template : str,
    entryAt (generateTemplateFile cfg w).2 TYPE = Some (File schema) /\
    entryAt (generateTemplateFile cfg w).2 TEMPLATE = Some (File template) /\
    entryAt w' OUTPUT = Some (File (outputFor createSourceFile schema template)).
Proof.
  intros (c & n & wa & Ha & Ho)%run_returned.
  apply assemble_returned in Ha as (s & t & -> & Hs & Ht & _ & _ & ->).
  by exists s, t.
Qed.

(** A world with the schema file of [w1] and with the template that the
    run from [w1] has ensured gives a run the same two texts to read. *)
Lemma reads_unchanged (w1 w2 : World) (schema template : str) :
  entryAt w2 TYPE = entryAt w1 TYPE ->
  entryAt w2 TEMPLATE = entryAt (generateTemplateFile cfg w1).2 TEMPLATE ->
  entryAt (generateTemplateFile cfg w1).2 TYPE = Some (File schema) ->
  entryAt (generateTemplateFile cfg w1).2 TEMPLATE = Some (File template) ->
  entryAt (generateTemplateFile cfg w2).2 TYPE = Some (File schema) /\
  entryAt (generateTemplateFile cfg w2).2 TEMPLATE = Some (File template).
Proof.
  intros Hs Ht Hs1 Ht1. rewrite Ht1 in Ht.
  assert (Hw2 : generateTemplateFile cfg w2 = (Returned tt, w2)).
  { apply generateTemplateFile_present. rewrite <- entryAt_TEMPLATE, Ht. eauto. }
  rewrite Hw2. cbn [snd]. split; [|done].
  destruct (decide (TYPE = TEMPLATE)) as [E | Hne].
  - rewrite E in Hs1 |- *. congruence.
  - rewrite generateTemplateFile_other in Hs1 by done. congruence.
Qed.

(** C4: two runs that complete, the second starting with the schema
    file as the first run found it and with the template as the first
    run left it after its template step, write the same text to the
    output file. *)
Theorem regeneration_same_output (w1 w1' w2 w2' : World) :
  run createSourceFile cfg w1 = (Returned tt, w1') ->
  run createSourceFile cfg w2 = (Returned tt, w2') ->
  entryAt w2 TYPE = entryAt w1 TYPE ->
  entryAt w2 TEMPLATE = entryAt (generateTemplateFile cfg w1).2 TEMPLATE ->
  exists content : str,
    entryAt w1' OUTPUT = Some (File content) /\
    entryAt w2' OUTPUT = Some (File content).
Proof.
  intros (s1 & t1 & Hs1 & Ht1 & Ho1)%run_reads (s2 & t2 & Hs2 & Ht2 & Ho2)%run_reads Hs Ht.
  destruct (reads_unchanged _ _ _ _ Hs Ht Hs1 Ht1) as [Hs2' Ht2'].
  assert (s2 = s1) as -> by congruence.
  assert (t2 = t1) as -> by congruence.
  eauto.
Qed.

Lemma run_split :
  exists rest : unit -> M unit,
    forall w, run createSourceFile cfg w = bind (generateTemplateFile cfg) rest w.
Proof.
  eexists. intros w. unfold run, generateApiClass, assemble.
  rewrite !bind_assoc. reflexivity.
Qed.

Lemma run_after_template (w : World) :
  (generateTemplateFile cfg w).1 = Returned tt ->
  run createSourceFile cfg w = run createSourceFile cfg (generateTemplateFile cfg w).2.
Proof.
  intros Hg. destruct (generateTemplateFile cfg w) as [o w0] eqn:E. cbn in Hg. subst o.
  assert (H0 : generateTemplateFile cfg w0 = (Returned tt, w0)).
  { revert E. unfold generateTemplateFile, bind, existsSync.
    destruct (negb _) eqn:Ex; [|by intros [= <-]; rewrite Ex].
    destruct (writeFileSync _ _ w) as [[[]|e] w1] eqn:Ew; [|done].
    apply writeFileSync_returned in Ew as [-> _].
    unfold console_log. intros [= <-].
    rewrite entryAt_TEMPLATE. cbn. by rewrite lookup_insert_eq. }
  destruct run_split as [rest Hrun]. rewrite !Hrun.
  cbn [snd]. unfold bind. by rewrite E, H0.
Qed.

(** In a plain succession of two runs the two conditions hold by
    themselves, as long as the three paths differ. *)
Lemma rerun_same_output (w w1 w2 : World) :
  OUTPUT <> TYPE -> OUTPUT <> TEMPLATE -> TYPE <> TEMPLATE ->
  run createSourceFile cfg w = (Returned tt, w1) ->
  run createSourceFile cfg w1 = (Returned tt, w2) ->
  entryAt w2 OUTPUT = entryAt w1 OUTPUT.
Proof.
  intros Hot Hop Htp H1 H2.
  destruct (run_reads _ _ H1) as (s1 & t1 & Hs1 & Ht1 & Ho1).
  destruct (run_reads _ _ H2) as (s2 & t2 & Hs2 & Ht2 & Ho2).
  assert (Hg : (generateTemplateFile cfg w).1 = Returned tt).
  { destruct (run_returned _ _ H1) as (c & n & wa & Ha & _). unfold assemble in Ha.
    apply bind_returned in Ha as ([] & w0 & Hg & _). by rewrite Hg. }
  assert (Hs : entryAt w1 TYPE = entryAt w TYPE).
  { rewrite generateTemplateFile_other in Hs1 by done.
    rewrite Hs1. unfold entryAt in *. destruct TYPE eqn:E; [done|]. rewrite <- E in *.
    pose proof (preserves_run TYPE s1 Hot w Hs1) as Hk. by rewrite H1 in Hk. }
  assert (Ht : entryAt w1 TEMPLATE = entryAt (generateTemplateFile cfg w).2 TEMPLATE).
  { rewrite Ht1. rewrite entryAt_TEMPLATE in Ht1 |- *.
    pose proof (preserves_run TEMPLATE t1 Hop _ Ht1) as Hk.
    rewrite <- run_after_template in Hk by done. by rewrite H1 in Hk. }
  destruct (reads_unchanged _ _ _ _ Hs Ht Hs1 Ht1) as [Hs2' Ht2'].
  assert (s2 = s1) as -> by congruence.
  assert (t2 = t1) as -> by congruence.
  by rewrite Ho1, Ho2.
Qed.

(** *** Order *)

Lemma outputFor_blocks (schema template pre post : str) :
  firstOccurrence placeholder pre post template ->
  outputFor createSourceFile schema template =
  pre ++ join newline (map (written pre post) (tableNamesOf (createSourceFile schema)))
      ++ post.
Proof.
  intros H. unfold outputFor. rewrite (replace_first _ _ _ _ _ H).
  rewrite GetSubstitution_join, map_map; [reflexivity|].
  rewrite Forall_map. apply Forall_true. intros n.
  apply generateMethodsForTable_end.
Qed.

(** C5: the extraction returns the names of the selected declarations
    in pre-order; in a tree whose nodes are placed as the parser places
    them this is the order of their declarations in the source text; and
    the output file holds, between the text before the marker and the
    text after it, one block per table in that same order, joined by
    newlines. A block is the generated block of its table; a dollar sign
    in a table name is the one thing that makes [replace] alter it. *)
Theorem extraction_order_preserved
    (w w' : World) (schema template pre post : str) :
  let w0 := (generateTemplateFile cfg w).2 in
  let nodes := tableNodes (createSourceFile schema) in
  run createSourceFile cfg w = (Returned tt, w') ->
  entryAt w0 TYPE = Some (File schema) ->
  entryAt w0 TEMPLATE = Some (File template) ->
  firstOccurrence placeholder pre post template ->
  wellPlaced (createSourceFile schema) = true ->
  extractTableNames createSourceFile cfg w0 = (Returned (map nameText nodes), w0) /\
  StronglySorted declaredBefore nodes /\
  entryAt w' OUTPUT =
    Some (File (pre ++ join newline (map (fun n => written pre post (nameText n)) nodes)
                    ++ post)) /\
  Forall (fun n => noDollar (nameText n) ->
                   written pre post (nameText n) = generateMethodsForTable (nameText n))
         nodes.
Proof.
  intros w0 nodes (c & names & wa & Ha & Ho)%run_returned Hs Ht Hfirst Hwp.
  apply assemble_returned in Ha as (s' & t' & -> & Hs' & Ht' & -> & He & ->).
  fold w0 in Hs', Ht', He.
  assert (s' = schema) as -> by congruence.
  assert (t' = template) as -> by congruence.
  rewrite tableNamesOf_tableNodes in He. fold nodes in He.
  split; [exact He|]. split; [by apply tableNodes_sorted|]. split.
  - rewrite Ho, (outputFor_blocks _ _ _ _ Hfirst), tableNamesOf_tableNodes.
    fold nodes. by rewrite map_map.
  - apply Forall_true. intros n Hn. unfold written.
    apply GetSubstitution_plain. by apply generateMethodsForTable_noDollar.
Qed.

(** Where no table name has a dollar sign, the text after the first
    marker, a second marker included, is left as it was and the joined
    blocks stand in the place of the first marker. *)
Lemma placeholder_first_only (names : list str) (template pre post : str) :
  firstOccurrence placeholder pre post template ->
  Forall noDollar names ->
  replace template placeholder (join newline (map generateMethodsForTable names)) =
  pre ++ join newline (map generateMethodsForTable names) ++ post.
Proof.
  intros Hfirst Hnames. rewrite (replace_first _ _ _ _ _ Hfirst).
  rewrite GetSubstitution_join.
  - do 2 f_equal. rewrite map_map. f_equal. apply map_ext_Forall.
    eapply Forall_impl; [exact Hnames|]. intros n Hn.
    apply GetSubstitution_plain. by apply generateMethodsForTable_noDollar.
  - rewrite Forall_map. apply Forall_true. intros n.
    apply generateMethodsForTable_end.
Qed.

(** *** Replacing the previous output *)

(** C9: when the removal of the existing output file fails, the error is
    caught and logged, [generateApiClass] returns with the write
    scheduled, and the run goes on to the write of the new content. *)
Theorem delete_failure_not_fatal
    (w wa wd wd' : World) (content : str) (names : list str) (e : Error) :
  timers w = [] ->
  assemble createSourceFile cfg w = (Returned (content, names), wa) ->
  ensureOutputDir cfg wa = (Returned tt, wd) ->
  existsSync OUTPUT wd = (Returned true, wd) ->
  unlinkSync OUTPUT wd = (Thrown e, wd') ->
  let logged := addMessage Stderr (ErrorDeleting OUTPUT e) wd' in
  removeExistingOutput cfg wd = (Returned tt, logged) /\
  generateApiClass createSourceFile cfg w =
    (Returned tt, addTimer (WriteOutput content names) logged) /\
  run createSourceFile cfg w =
    (writeFileSync OUTPUT content ;;;
     console_log (Generated (length names)) ;;;
     console_log (Tables (join (lit ", ") names))) logged.
Proof.
  intros Htimers Ha Hd Hex Hun logged.
  assert (Hr : removeExistingOutput cfg wd = (Returned tt, logged)).
  { unfold removeExistingOutput, bind, tryCatch. rewrite Hex.
    unfold bind. by rewrite Hun. }
  assert (Hg : generateApiClass createSourceFile cfg w =
               (Returned tt, addTimer (WriteOutput content names) logged)).
  { unfold generateApiClass, bind. by rewrite Ha, Hd, Hr. }
  split; [done|]. split; [done|].
  assert (Ht : timers logged = []).
  { unfold logged. cbn [timers addMessage].
    assert (timers wd' = timers wd) as ->.
    { revert Hun. unfold unlinkSync, sys.
      destruct (refused wd _); [intros [= _ E]; by rewrite <- E|].
      destruct (entryAt wd OUTPUT) as [[c|]|]; intros [= _ E]; by rewrite <- E. }
    pose proof (timers_ensureOutputDir wa) as Hd'. rewrite Hd in Hd'. cbn in Hd'.
    rewrite Hd'. revert Ha. unfold assemble.
    intros ([] & w0 & Hg0 & H)%bind_returned.
    apply bind_returned in H as (names' & w1 & He & H).
    apply bind_returned in H as (template & w2 & Hrt & H).
    unfold extractTableNames in He.
    apply bind_returned in He as (schema & w3 & Hs & He).
    apply readFileSync_returned in Hs as [-> _].
    apply readFileSync_returned in Hrt as [-> _].
    injection He as <- <-. injection H as <- <- <-.
    revert Hg0. unfold generateTemplateFile, bind, existsSync.
    destruct (negb _); [|by intros [= <-]].
    destruct (writeFileSync _ _ w) as [[[]|e'] w4] eqn:Ew; [|done].
    apply writeFileSync_returned in Ew as [-> _]. by intros [= <-]. }
  unfold run, bind at 1. rewrite Hg.
  cbn [timers addTimer]. rewrite Ht. cbn [app fireAll fireTimer].
  assert (clearTimers (addTimer (WriteOutput content names) logged) = logged) as ->.
  { destruct logged. cbn in Ht. subst. reflexivity. }
  rewrite bind_assoc. unfold bind, ret.
  destruct (writeFileSync _ _ _) as [[[]|?] ?]; [|done].
  unfold console_log. reflexivity.
Qed.

End GeneratorFacts.

(** ** The properties at sample inputs *)

(** The template that the generator writes has the marker once. *)
Lemma templateContent_one_placeholder :
  exists pre post : str,
    firstOccurrence placeholder pre post templateContent /\
    cut placeholder post = None.
Proof.
  destruct (cut placeholder templateContent) as [[pre post]|] eqn:E;
    [|vm_compute in E; discriminate E].
  exists pre, post. split; [by apply cut_minimal|].
  vm_compute in E. injection E as <- <-. vm_compute. reflexivity.
Qed.

(** The loop of [updateMany] in the template text. *)
Lemma templateContent_updateMany :
  Forall (fun line => occursIn (lit line) templateContent)
    [ "async updateMany<"%string;
      "const idField = options?.idField || 'id';"%string;
      "for (const update of updates) {"%string;
      "if (error) {
          throw error;
        }
        
        // Explicitly cast through unknown to ensure type safety
        updatedRecords.push("%string;
      "console.error(`Error in updateMany for ${String(tableName)}:`, error);
      throw error;"%string ].
Proof.
  repeat (apply Forall_cons; split; [find_occurrence|]).
  apply Forall_nil_2.
Qed.

Lemma handTemplate_first : firstOccurrence placeholder handPre handPost handTemplate.
Proof. apply cut_minimal. vm_compute. reflexivity. Qed.

Lemma existing_template_kept_witness :
  OUTPUT_FILE_PATH sampleConfig <> TEMPLATE_FILE_PATH sampleConfig /\
  holds (TEMPLATE_FILE_PATH sampleConfig) handTemplate editedWorld /\
  generateTemplateFile sampleConfig editedWorld = (Returned tt, editedWorld) /\
  holds (TEMPLATE_FILE_PATH sampleConfig) handTemplate
        (run sampleParser sampleConfig editedWorld).2.
Proof.
  assert (H1 : OUTPUT_FILE_PATH sampleConfig <> TEMPLATE_FILE_PATH sampleConfig)
    by (vm_compute; discriminate).
  assert (H2 : holds (TEMPLATE_FILE_PATH sampleConfig) handTemplate editedWorld)
    by (vm_compute; reflexivity).
  split; [exact H1|]. split; [exact H2|].
  exact (existing_template_kept sampleParser sampleConfig editedWorld handTemplate H1 H2).
Defined.

(** C3 as stated fails: with the output file named like the template,
    a template that exists when the run starts is removed and written
    over with the output. *)
Lemma existing_template_overwritten :
  holds (TEMPLATE_FILE_PATH collidingConfig) handTemplate editedWorld /\
  (run sampleParser collidingConfig editedWorld).1 = Returned tt /\
  ~ holds (TEMPLATE_FILE_PATH collidingConfig) handTemplate
          (run sampleParser collidingConfig editedWorld).2.
Proof.
  split; [vm_compute; reflexivity|]. split; [vm_compute; reflexivity|].
  vm_compute. discriminate.
Qed.

Lemma regeneration_same_output_witness :
  let w1 := sampleWorld in
  let w1' := (run sampleParser sampleConfig w1).2 in
  let w2' := (run sampleParser sampleConfig w1').2 in
  run sampleParser sampleConfig w1 = (Returned tt, w1') /\
  run sampleParser sampleConfig w1' = (Returned tt, w2') /\
  entryAt w1' (TYPE_FILE_PATH sampleConfig) = entryAt w1 (TYPE_FILE_PATH sampleConfig) /\
  entryAt w1' (TEMPLATE_FILE_PATH sampleConfig) =
    entryAt (generateTemplateFile sampleConfig w1).2 (TEMPLATE_FILE_PATH sampleConfig) /\
  exists content : str,
    entryAt w1' (OUTPUT_FILE_PATH sampleConfig) = Some (File content) /\
    entryAt w2' (OUTPUT_FILE_PATH sampleConfig) = Some (File content).
Proof.
  intros w1 w1' w2'.
  assert (H1 : run sampleParser sampleConfig w1 = (Returned tt, w1'))
    by (vm_compute; reflexivity).
  assert (H2 : run sampleParser sampleConfig w1' = (Returned tt, w2'))
    by (vm_compute; reflexivity).
  assert (H3 : entryAt w1' (TYPE_FILE_PATH sampleConfig)
               = entryAt w1 (TYPE_FILE_PATH sampleConfig))
    by (vm_compute; reflexivity).
  assert (H4 : entryAt w1' (TEMPLATE_FILE_PATH sampleConfig) =
               entryAt (generateTemplateFile sampleConfig w1).2
                       (TEMPLATE_FILE_PATH sampleConfig))
    by (vm_compute; reflexivity).
  split; [exact H1|]. split; [exact H2|]. split; [exact H3|]. split; [exact H4|].
  exact (regeneration_same_output sampleParser sampleConfig w1 w1' w1' w2' H1 H2 H3 H4).
Defined.

Lemma extraction_order_preserved_witness :
  let w := editedWorld in
  let w0 := (generateTemplateFile sampleConfig w).2 in
  let w' := (run sampleParser sampleConfig w).2 in
  run sampleParser sampleConfig w = (Returned tt, w') /\
  entryAt w0 (TYPE_FILE_PATH sampleConfig) = Some (File sampleSchema) /\
  entryAt w0 (TEMPLATE_FILE_PATH sampleConfig) = Some (File handTemplate) /\
  firstOccurrence placeholder handPre handPost handTemplate /\
  wellPlaced (sampleParser sampleSchema) = true /\
  extractTableNames sampleParser sampleConfig w0 =
    (Returned [lit "posts"; lit "user_type"], w0) /\
  entryAt w' (OUTPUT_FILE_PATH sampleConfig) =
    Some (File (handPre ++ generateMethodsForTable (lit "posts") ++ newline
                        ++ generateMethodsForTable (lit "user_type") ++ handPost)).
Proof.
  intros w w0 w'.
  assert (H1 : run sampleParser sampleConfig w = (Returned tt, w'))
    by (vm_compute; reflexivity).
  assert (H2 : entryAt w0 (TYPE_FILE_PATH sampleConfig) = Some (File sampleSchema))
    by (vm_compute; reflexivity).
  assert (H3 : entryAt w0 (TEMPLATE_FILE_PATH sampleConfig) = Some (File handTemplate))
    by (vm_compute; reflexivity).
  assert (H5 : wellPlaced (sampleParser sampleSchema) = true)
    by (vm_compute; reflexivity).
  destruct (extraction_order_preserved sampleParser sampleConfig w w' sampleSchema
              handTemplate handPre handPost H1 H2 H3 handTemplate_first H5)
    as (He & _ & Ho & _).
  split; [exact H1|]. split; [exact H2|]. split; [exact H3|].
  split; [exact handTemplate_first|]. split; [exact H5|].
  split; [exact He|]. rewrite Ho. vm_compute. reflexivity.
Defined.

Lemma delete_failure_not_fatal_witness :
  let w := lockedWorld in
  let out := OUTPUT_FILE_PATH sampleConfig in
  let content := outputFor sampleParser sampleSchema handTemplate in
  let names := [lit "posts"; lit "user_type"] in
  let e := FsError EPERM (SysUnlink out) in
  timers w = [] /\
  assemble sampleParser sampleConfig w = (Returned (content, names), w) /\
  ensureOutputDir sampleConfig w = (Returned tt, w) /\
  existsSync out w = (Returned true, w) /\
  unlinkSync out w = (Thrown e, w) /\
  run sampleParser sampleConfig w =
    (writeFileSync out content ;;;
     console_log (Generated (length names)) ;;;
     console_log (Tables (join (lit ", ") names))) (addMessage Stderr (ErrorDeleting out e) w) /\
  entryAt (run sampleParser sampleConfig w).2 out = Some (File content).
Proof.
  intros w out content names e.
  assert (H0 : timers w = []) by reflexivity.
  assert (H1 : assemble sampleParser sampleConfig w = (Returned (content, names), w))
    by (vm_compute; reflexivity).
  assert (H2 : ensureOutputDir sampleConfig w = (Returned tt, w))
    by (vm_compute; reflexivity).
  assert (H3 : existsSync out w = (Returned true, w)) by (vm_compute; reflexivity).
  assert (H4 : unlinkSync out w = (Thrown e, w)) by (vm_compute; reflexivity).
  destruct (delete_failure_not_fatal sampleParser sampleConfig w w w w content names e
              H0 H1 H2 H3 H4) as (_ & _ & Hrun).
  split; [exact H0|]. split; [exact H1|]. split; [exact H2|]. split; [exact H3|].
  split; [exact H4|]. split; [exact Hrun|]. vm_compute. reflexivity.
Defined.

(** C6 at a schema whose table is named [price$]: the block of the table
    holds the name between quotes, so the joined blocks hold a dollar
    sign followed by a quote, which [replace] takes for the text after
    the match. What stands in the place of the first marker is not the
    joined blocks: the rest of the template, the second marker with it,
    is copied into every quoted table name. *)
Theorem dollar_name_alters_blocks :
  let names := tableNamesOf (sampleParser dollarSchema) in
  let blocks := join newline (map generateMethodsForTable names) in
  let w' := (run sampleParser sampleConfig dollarWorld).2 in
  names = [lit "price$"] /\
  firstOccurrence placeholder handPre handPost handTemplate /\
  (run sampleParser sampleConfig dollarWorld).1 = Returned tt /\
  entryAt w' (OUTPUT_FILE_PATH sampleConfig) =
    Some (File (replace handTemplate placeholder blocks)) /\
  replace handTemplate placeholder blocks <> handPre ++ blocks ++ handPost /\
  occursIn (lit "this.getAll('price" ++ handPost ++ lit ", options);")
           (replace handTemplate placeholder blocks).
Proof.
  intros names blocks w'.
  split; [vm_compute; reflexivity|]. split; [exact handTemplate_first|].
  split; [vm_compute; reflexivity|]. split; [vm_compute; reflexivity|].
  split; [vm_compute; discriminate|].
  find_occurrence.
Qed.

(** ** The generated [updateMany] *)

Module RuntimeFacts.
Import Runtime.

Section Client.

Context {Row Update Id PostgrestError Store : Type}.
Variable single : @Request Update Id -> Store -> @Response Row PostgrestError * Store.

Lemma updateLoop_stops (tableName idField : str) (before after : list (Id * Update))
    (failing : Id * Update) (error : PostgrestError) (st1 : Store) :
  forall (records : list (option Row)) (s : @Session Update Id PostgrestError Store),
    allSucceed single tableName idField before (store s) = Some st1 ->
    resError (single (mkRequest tableName idField failing.1 failing.2) st1).1 = Some error ->
    updateLoop single tableName idField (before ++ failing :: after) records s =
    (Rejected error,
     mkSession (single (mkRequest tableName idField failing.1 failing.2) st1).2
               (sent s ++ map (fun u => mkRequest tableName idField u.1 u.2)
                              (before ++ [failing]))
               (errorLog s)).
Proof.
  induction before as [|u before IH]; intros records s Hok Hfail.
  - cbn in Hok. injection Hok as <-. cbn [app updateLoop map].
    destruct (single _ (store s)) as [resp st'] eqn:E. cbn [fst snd] in *.
    by rewrite Hfail.
  - cbn [app updateLoop allSucceed map] in *.
    destruct (single _ (store s)) as [resp st'] eqn:E.
    destruct (resError resp); [done|].
    rewrite (IH _ (mkSession st' _ _) Hok Hfail). cbn [store sent errorLog].
    by rewrite <- app_assoc.
Qed.

Lemma updateLoop_completes (tableName idField : str) (updates : list (Id * Update))
    (st' : Store) :
  forall (records : list (option Row)) (s : @Session Update Id PostgrestError Store),
    allSucceed single tableName idField updates (store s) = Some st' ->
    exists updated : list (option Row),
      length updated = length updates /\
      updateLoop single tableName idField updates records s =
      (Resolved (records ++ updated),
       mkSession st'
                 (sent s ++ map (fun u => mkRequest tableName idField u.1 u.2) updates)
                 (errorLog s)).
Proof.
  induction updates as [|u updates IH]; intros records s Hok.
  - cbn in Hok. injection Hok as <-. exists []. split; [done|].
    cbn. rewrite !app_nil_r. by destruct s.
  - cbn [updateLoop allSucceed map] in *.
    destruct (single _ (store s)) as [resp st1] eqn:E.
    destruct (resError resp); [done|].
    destruct (IH (records ++ [resData resp])
                 (mkSession st1 (sent s ++ [mkRequest tableName idField u.1 u.2])
                            (errorLog s)) Hok)
      as (updated & Hlen & ->).
    exists (resData resp :: updated). split; [cbn; by rewrite Hlen|].
    cbn [store sent errorLog]. by rewrite <- !app_assoc.
Qed.

(** C8: [updateMany] sends the requests one after the other, in the
    order of the array. When every request succeeds it resolves with one
    record per request. When the requests [before] succeed and the next
    one fails, the requests sent are those up to the failing one and no
    request after it, the call rejects with the error of the failing
    request instead of returning the records updated so far, and the
    error is logged. *)
Theorem updateMany_sequential
    (tableName : str) (options : option Options)
    (s : @Session Update Id PostgrestError Store) :
  let idField := idFieldOf options in
  let request u := mkRequest tableName idField u.1 u.2 in
  (forall (updates : list (Id * Update)) (st' : Store),
      allSucceed single tableName idField updates (store s) = Some st' ->
      let result := updateMany single tableName updates options s in
      (exists records, result.1 = Resolved records /\ length records = length updates) /\
      sent result.2 = sent s ++ map request updates /\
      store result.2 = st' /\
      errorLog result.2 = errorLog s) /\
  (forall (before after : list (Id * Update)) (failing : Id * Update)
          (error : PostgrestError) (st1 : Store),
      allSucceed single tableName idField before (store s) = Some st1 ->
      resError (single (request failing) st1).1 = Some error ->
      let result := updateMany single tableName (before ++ failing :: after) options s in
      result.1 = Rejected error /\
      sent result.2 = sent s ++ map request before ++ [request failing] /\
      store result.2 = (single (request failing) st1).2 /\
      errorLog result.2 = errorLog s ++ [(tableName, error)]).
Proof.
  intros idField request. split.
  - intros updates st' Hok result. unfold result, updateMany. fold idField.
    destruct (updateLoop_completes _ _ _ _ [] s Hok) as (updated & Hlen & ->).
    cbn [fst snd sent store errorLog app].
    split; [by exists updated | done].
  - intros before after failing error st1 Hok Hfail result. unfold result, updateMany.
    fold idField. rewrite (updateLoop_stops _ _ _ _ _ _ _ _ _ Hok Hfail).
    cbn [fst snd sent store errorLog]. rewrite map_app. done.
Qed.

End Client.

Lemma updateMany_sequential_witness :
  let s := mkSession 0%nat [] [] in
  let result := updateMany sampleSingle (lit "posts")
                  [(1, 10); (2, 20); (3, 30)]%nat None s in
  allSucceed sampleSingle (lit "posts") (lit "id") [(1, 10)%nat] 0%nat = Some 1%nat /\
  resError (sampleSingle (mkRequest (lit "posts") (lit "id") 2 20)%nat 1%nat).1
    = Some "PGRST116"%string /\
  result.1 = Rejected "PGRST116"%string /\
  map id (sent result.2) = [1; 2]%nat /\
  store result.2 = 1%nat.
Proof.
  intros s result.
  assert (H1 : allSucceed sampleSingle (lit "posts") (lit "id") [(1, 10)%nat] 0%nat
               = Some 1%nat) by reflexivity.
  assert (H2 : resError (sampleSingle (mkRequest (lit "posts") (lit "id") 2 20)%nat 1%nat).1
               = Some "PGRST116"%string) by reflexivity.
  split; [exact H1|]. split; [exact H2|].
  destruct (proj2 (updateMany_sequential sampleSingle (lit "posts") None s)
              [(1, 10)%nat] [(3, 30)%nat] (2, 20)%nat "PGRST116"%string 1%nat H1 H2)
    as (R1 & R2 & R3 & _).
  split; [exact R1|]. split; [|exact R3].
  exact (f_equal (map id) R2).
Defined.

End RuntimeFacts.

(** * Further properties *)

(** ** Identifier derivation *)

Section NamingFacts.

Lemma toPascalCase_join (segs : list str) :
  Forall noUnderscore segs ->
  toPascalCase (join [underscore] segs) = concat (map capitalized segs).
Proof.
  intros H. destruct segs as [|w ws]; [reflexivity|].
  by rewrite toPascalCase_concat, split_join.
Qed.

Lemma concat_capitalized_nonempty (segs : list str) :
  concat (map capitalized (filter (fun w => w <> []) segs)) = concat (map capitalized segs).
Proof.
  induction segs as [|w ws IH]; [reflexivity|].
  rewrite filter_cons. destruct (decide (w <> [])) as [Hw | Hw].
  - cbn. by rewrite IH.
  - apply dec_stable in Hw. subst w. by rewrite IH.
Qed.

Lemma toCamelCase_unfold (s : str) :
  toCamelCase s =
  match split underscore s with
  | [] => []
  | w :: ws => toLowerCase w ++ concat (map capitalized ws)
  end.
Proof.
  unfold toCamelCase. rewrite join_nil_concat.
  destruct (split underscore s) as [|w ws]; [reflexivity|].
  cbn [imap concat]. rewrite bool_decide_eq_true_2 by done. f_equal.
  rewrite (imap_ext _ (const capitalized)).
  - by rewrite imap_const.
  - intros i word _. cbn. rewrite bool_decide_eq_false_2 by done.
    apply capitalize_word.
Qed.

Lemma toLowerCaseChar_idem (c : ascii) :
  toLowerCaseChar (toLowerCaseChar c) = toLowerCaseChar c /\
  toUpperCaseChar (toLowerCaseChar c) = toUpperCaseChar c /\
  (toLowerCaseChar c = underscore <-> c = underscore).
Proof.
  destruct c as [[] [] [] [] [] [] [] []]; vm_compute;
    (split; [reflexivity|]; split; [reflexivity|]; split; congruence).
Qed.

Lemma toLowerCase_idem (s : str) : toLowerCase (toLowerCase s) = toLowerCase s.
Proof.
  unfold toLowerCase. rewrite map_map. apply map_ext. intros c.
  apply toLowerCaseChar_idem.
Qed.

Lemma split_toLowerCase (s : str) :
  split underscore (toLowerCase s) = map toLowerCase (split underscore s).
Proof.
  induction s as [|c r IH]; [reflexivity|].
  cbn [toLowerCase map split]. fold (toLowerCase r).
  destruct (toLowerCaseChar_idem c) as (_ & _ & Hu).
  case_bool_decide as H1; case_bool_decide as H2; try tauto.
  - by rewrite IH.
  - rewrite IH. destruct (split underscore r); reflexivity.
Qed.

Lemma capitalized_toLowerCase (w : str) : capitalized (toLowerCase w) = capitalized w.
Proof.
  destruct w as [|c r]; [reflexivity|]. cbn [toLowerCase map capitalized]. f_equal.
  - apply toLowerCaseChar_idem.
  - rewrite map_map. apply map_ext. intros c'. apply toLowerCaseChar_idem.
Qed.

Lemma toPascalCase_toLowerCase (s : str) : toPascalCase (toLowerCase s) = toPascalCase s.
Proof.
  rewrite !toPascalCase_concat, split_toLowerCase, map_map. f_equal.
  apply map_ext. intros w. apply capitalized_toLowerCase.
Qed.

Lemma toCamelCase_toLowerCase (s : str) : toCamelCase (toLowerCase s) = toCamelCase s.
Proof.
  rewrite !toCamelCase_unfold, split_toLowerCase.
  destruct (split underscore s) as [|w ws]; [reflexivity|].
  cbn [map]. rewrite toLowerCase_idem, map_map. do 2 f_equal.
  apply map_ext. intros w'. apply capitalized_toLowerCase.
Qed.

Lemma nameForms_general (raw : str) : nameForms raw = generalForms (toPascalCase raw).
Proof.
  unfold nameForms, overrideForms. case_bool_decide as H; [|reflexivity].
  subst raw. vm_compute. reflexivity.
Qed.

End NamingFacts.

Section AnyRuntimeNames.

Context {Char : Type} `{EqDecision Char}.
Variable underscore : Char.
Variables toUpperCase toLowerCase : list Char -> list Char.

Lemma toCamelCase_any_unfold (s : list Char) :
  AnyRuntime.toCamelCase underscore toUpperCase toLowerCase s =
  match split underscore s with
  | [] => []
  | w :: ws =>
      toLowerCase w ++ concat (map (AnyRuntime.capitalized toUpperCase toLowerCase) ws)
  end.
Proof.
  unfold AnyRuntime.toCamelCase. rewrite join_nil_concat.
  destruct (split underscore s) as [|w ws]; [reflexivity|].
  cbn [imap concat]. rewrite bool_decide_eq_true_2 by done. f_equal.
  rewrite (imap_ext _ (const (AnyRuntime.capitalized toUpperCase toLowerCase))).
  - by rewrite imap_const.
  - intros i word _. cbn. rewrite bool_decide_eq_false_2 by done.
    apply capitalize_any_word.
Qed.

Hypothesis toUpperCase_underscore :
  forall s : list Char, underscore ∉ s -> underscore ∉ toUpperCase s.
Hypothesis toLowerCase_underscore :
  forall s : list Char, underscore ∉ s -> underscore ∉ toLowerCase s.

(** X1: the camelCase form of an identifier is its first
    underscore-delimited segment converted to lower case, followed by
    the other segments, each with its first character converted to upper
    case and the rest of it converted to lower case; it has no
    underscore. This holds for the strings and the case conversions of
    any runtime; that the result has no underscore rests on the
    conversions producing none. *)
Theorem toCamelCase_segments (first : list Char) (others : list (list Char)) :
  Forall (fun w => underscore ∉ w) (first :: others) ->
  AnyRuntime.toCamelCase underscore toUpperCase toLowerCase
      (join [underscore] (first :: others)) =
    toLowerCase first
      ++ concat (map (fun w => toUpperCase (take 1 w) ++ toLowerCase (drop 1 w)) others) /\
  underscore ∉ AnyRuntime.toCamelCase underscore toUpperCase toLowerCase
                 (join [underscore] (first :: others)).
Proof.
  intros H. rewrite toCamelCase_any_unfold, split_join by done.
  split; [reflexivity|]. inversion H as [|? ? Hfirst Hothers]; subst.
  rewrite elem_of_app. intros [Hin | Hin].
  - by apply (toLowerCase_underscore first).
  - revert Hin. apply concat_free. rewrite Forall_map.
    eapply Forall_impl; [exact Hothers|]. intros w Hw.
    by apply (capitalized_any_free underscore toUpperCase toLowerCase).
Qed.

End AnyRuntimeNames.

Lemma toCamelCase_segments_witness :
  (forall s : str, underscore ∉ s -> underscore ∉ toUpperCase s) /\
  (forall s : str, underscore ∉ s -> underscore ∉ toLowerCase s) /\
  Forall (fun w => underscore ∉ w) [lit "USER"; lit "type"; lit "id"] /\
  toCamelCase (lit "USER_type_id") = lit "userTypeId" /\
  underscore ∉ toCamelCase (lit "USER_type_id").
Proof.
  assert (H1 : forall s : str, underscore ∉ s -> underscore ∉ toUpperCase s)
    by (intros s; apply caseStable_toUpperCase, underscore_caseStable).
  assert (H2 : forall s : str, underscore ∉ s -> underscore ∉ toLowerCase s)
    by (intros s; apply caseStable_toLowerCase, underscore_caseStable).
  assert (H : Forall (fun w => underscore ∉ w) [lit "USER"; lit "type"; lit "id"])
    by (repeat constructor; by apply lit_noUnderscore_check).
  split; [exact H1|]. split; [exact H2|]. split; [exact H|].
  exact (toCamelCase_segments underscore toUpperCase toLowerCase H1 H2
           (lit "USER") [lit "type"; lit "id"] H).
Defined.

Lemma isAscii_check (s : string) :
  forallb (fun c => (nat_of_ascii c <? 128)%nat) (lit s) = true -> isAscii (lit s).
Proof.
  intros H. apply Forall_forall. intros c Hin. rewrite forallb_forall in H.
  apply Nat.ltb_lt, H. by apply list_elem_of_In.
Qed.

(** X2: on ASCII text, where the case conversions act letter by letter,
    the derived names do not depend on the letter case of the raw
    identifier: two ASCII table names that differ only in case get the
    same PascalCase and camelCase forms, the same singular and plural,
    and the same seven member names. *)
Theorem names_ignore_case (a b : str) :
  isAscii a -> isAscii b ->
  toLowerCase a = toLowerCase b ->
  toPascalCase a = toPascalCase b /\
  toCamelCase a = toCamelCase b /\
  nameForms a = nameForms b /\
  methodNames a = methodNames b.
Proof.
  intros _ _ H.
  assert (Hp : toPascalCase a = toPascalCase b).
  { by rewrite <- (toPascalCase_toLowerCase a), <- (toPascalCase_toLowerCase b), H. }
  assert (Hf : nameForms a = nameForms b) by (by rewrite !nameForms_general, Hp).
  split; [exact Hp|]. split.
  - by rewrite <- (toCamelCase_toLowerCase a), <- (toCamelCase_toLowerCase b), H.
  - split; [exact Hf|].
    unfold methodNames, singularPascalCase, pluralPascalCase. by rewrite Hf.
Qed.

Lemma names_ignore_case_witness :
  isAscii (lit "Order_Items") /\ isAscii (lit "order_items") /\
  toLowerCase (lit "Order_Items") = toLowerCase (lit "order_items") /\
  lit "Order_Items" <> lit "order_items" /\
  methodNames (lit "Order_Items") = methodNames (lit "order_items").
Proof.
  assert (Ha : isAscii (lit "Order_Items")) by (by apply isAscii_check).
  assert (Hb : isAscii (lit "order_items")) by (by apply isAscii_check).
  assert (H : toLowerCase (lit "Order_Items") = toLowerCase (lit "order_items"))
    by reflexivity.
  split; [exact Ha|]. split; [exact Hb|]. split; [exact H|]. split; [discriminate|].
  exact (proj2 (proj2 (proj2 (names_ignore_case _ _ Ha Hb H)))).
Defined.

(** X3: empty segments leave no trace in the PascalCase form: leading,
    trailing and doubled underscores are ignored. *)
Theorem toPascalCase_ignores_empty_segments (segs : list str) :
  Forall noUnderscore segs ->
  toPascalCase (join [underscore] segs) =
  toPascalCase (join [underscore] (filter (fun w => w <> []) segs)).
Proof.
  intros H. rewrite !toPascalCase_join.
  - by rewrite concat_capitalized_nonempty.
  - apply Forall_forall. intros w [_ Hw]%list_elem_of_filter.
    rewrite Forall_forall in H. by apply H.
  - done.
Qed.

Lemma toPascalCase_ignores_empty_segments_witness :
  Forall noUnderscore [lit ""; lit "user"; lit ""; lit "type"; lit ""] /\
  toPascalCase (lit "_user__type_") = toPascalCase (lit "user_type").
Proof.
  assert (H : Forall noUnderscore [lit ""; lit "user"; lit ""; lit "type"; lit ""]).
  { repeat constructor; unfold noUnderscore; intros Hin%list_elem_of_In;
      cbn in Hin; intuition discriminate. }
  split; [exact H|].
  exact (toPascalCase_ignores_empty_segments _ H).
Defined.

Lemma plural_singular (raw : str) :
  pluralPascalCase raw = singularPascalCase raw ++ lit "s".
Proof.
  unfold pluralPascalCase, singularPascalCase. rewrite nameForms_general.
  unfold generalForms. generalize (toPascalCase raw). intros pascal.
  destruct (endsWith_reflect pascal (lit "s")) as [[stem ->]|Es];
    [|reflexivity].
  destruct (_ && _); cbn [andb negb singular plural]; [|reflexivity].
  change (lit "s") with ["s"%char]. by rewrite slice_drop_last.
Qed.

(** X4: for every table the plural form is the singular form followed by
    [s], whichever branch of the rule or override produced them; so the
    two are never the same name. *)
Theorem plural_is_singular_s (raw : str) :
  pluralPascalCase raw = singularPascalCase raw ++ lit "s" /\
  pluralPascalCase raw <> singularPascalCase raw.
Proof.
  split; [apply plural_singular|].
  rewrite plural_singular. intros E. apply (f_equal length) in E.
  rewrite length_app in E. cbn in E. lia.
Qed.

(** X5: the special case for [user_type] never changes a result: for
    every raw identifier, that one included, the forms are those of the
    general rule. *)
Theorem override_changes_nothing (raw : str) :
  overrideForms raw (generalForms (toPascalCase raw)) = generalForms (toPascalCase raw).
Proof. apply nameForms_general. Qed.

(** ** The members of a block *)

Section Members.

Lemma occursIn_here (m post : str) : occursIn m (m ++ post).
Proof. by exists [], post. Qed.

Lemma occursIn_skip_char (m s : str) (c : ascii) : occursIn m s -> occursIn m (c :: s).
Proof. intros (pre & post & ->). by exists (c :: pre), post. Qed.

Lemma occursIn_skip (m s v : str) : occursIn m s -> occursIn m (v ++ s).
Proof. intros (pre & post & ->). exists (v ++ pre), post. by rewrite <- app_assoc. Qed.

End Members.

(** Finds a text made of characters and variables in another one, both
    in right-nested form. *)
Ltac search_occurrence :=
  repeat first
    [ lazymatch goal with
      | |- occursIn (?c :: _) (?c :: _) =>
          solve [ eexists [], _; cbn [app]; rewrite <- ?app_assoc; cbn [app]; reflexivity ]
      end
    | apply occursIn_skip_char
    | apply occursIn_skip ].

(** X6: the seven members declared for one table have pairwise distinct
    names, and each name stands in the block on a line of its own. *)
Theorem methodNames_distinct (tableName : str) :
  NoDup (methodNames tableName) /\
  Forall (fun method => occursIn (memberLine method) (generateMethodsForTable tableName))
         (methodNames tableName).
Proof.
  split.
  - unfold methodNames. rewrite plural_singular.
    generalize (singularPascalCase tableName). intros S.
    assert (Hlen : forall (a b x y : str), length a + length x <> length b + length y ->
                                           a ++ x <> b ++ y).
    { intros a b x y Hne E. apply Hne. by rewrite <- !length_app, E. }
    repeat (apply NoDup_cons; split;
            [ rewrite ?not_elem_of_cons; repeat split;
              try apply not_elem_of_nil;
              first [ discriminate
                    | apply Hlen; rewrite ?length_app; cbn; lia ] | ]).
    apply NoDup_nil_2.
  - unfold methodNames, memberLine, generateMethodsForTable.
    generalize (singularPascalCase tableName) (pluralPascalCase tableName)
               (toPascalCase tableName).
    intros S P C.
    repeat (apply Forall_cons; split;
            [ rewrite <- ?app_assoc; cbn [lit list_ascii_of_string app newline];
              search_occurrence | ]).
    apply Forall_nil_2.
Qed.

(** ** The compiled copy *)

(** X7: the compiled copy under [dist] and the TypeScript source derive
    the same singular and plural for a table exactly when its PascalCase
    name does not end in [s]; for every name that does, the two disagree
    on one of the forms. *)
Theorem dist_agrees_iff (raw : str) :
  (Dist.singularPascalCase raw = singularPascalCase raw /\
   Dist.pluralPascalCase raw = pluralPascalCase raw) <->
  ~ endsIn (toPascalCase raw) (lit "s").
Proof.
  unfold Dist.singularPascalCase, Dist.pluralPascalCase,
    singularPascalCase, pluralPascalCase.
  rewrite nameForms_general. unfold generalForms.
  generalize (toPascalCase raw). intros pascal.
  destruct (endsWith_reflect pascal (lit "s")) as [Es | Es].
  - split; [|tauto]. intros [Hs Hp]. exfalso.
    destruct Es as [stem ->]. change (lit "s") with ["s"%char] in *.
    rewrite slice_drop_last in Hs.
    destruct (_ && _); cbn [andb negb singular plural] in *.
    + apply (f_equal length) in Hp. rewrite !length_app in Hp. cbn in Hp. lia.
    + apply (f_equal length) in Hs. rewrite !length_app in Hs. cbn in Hs. lia.
  - cbn [andb singular plural]. tauto.
Qed.

(** The members of the compiled copy's block: the getter of all rows is
    named with the plural above. *)
Lemma Dist_members (tableName : str) :
  Forall (fun method => occursIn (memberLine method) (Dist.generateMethodsForTable tableName))
    [ lit "get" ++ Dist.pluralPascalCase tableName;
      lit "get" ++ Dist.singularPascalCase tableName;
      lit "create" ++ Dist.singularPascalCase tableName;
      lit "update" ++ Dist.singularPascalCase tableName;
      lit "delete" ++ Dist.singularPascalCase tableName ].
Proof.
  unfold memberLine, Dist.generateMethodsForTable, Dist.pluralPascalCase.
  generalize (Dist.singularPascalCase tableName) (toPascalCase tableName).
  intros S C.
  repeat (apply Forall_cons; split;
          [ rewrite <- ?app_assoc; cbn [lit list_ascii_of_string app newline];
            search_occurrence | ]).
  apply Forall_nil_2.
Qed.

(** ** Runs of the generator *)

Section RunFacts.

Variable createSourceFile : str -> Node.
Variable cfg : Config.

Local Abbreviation TYPE := (TYPE_FILE_PATH cfg).
Local Abbreviation OUTPUT := (OUTPUT_FILE_PATH cfg).
Local Abbreviation TEMPLATE := (TEMPLATE_FILE_PATH cfg).

Lemma removelast_shorter (p : path) : p <> [] -> dirname p <> p.
Proof.
  intros Hp E. destruct (exists_last Hp) as (q & x & ->).
  unfold dirname in E. rewrite removelast_last in E.
  apply (f_equal length) in E. rewrite length_app in E. cbn in E. lia.
Qed.

Lemma dirname_TEMPLATE : outputFilePath cfg <> [] -> dirname TEMPLATE = dirname OUTPUT.
Proof.
  intros Hout. unfold dirname, TEMPLATE_FILE_PATH, OUTPUT_FILE_PATH, resolve.
  cbn [concat]. rewrite !app_nil_r.
  rewrite (removelast_app (cwd cfg) Hout).
  by rewrite app_assoc, removelast_last.
Qed.

Lemma readFileSync_ok (p : path) (content : str) (w : World) :
  refused w (SysRead p) = None -> entryAt w p = Some (File content) ->
  readFileSync p w = (Returned content, w).
Proof. intros Hr He. unfold readFileSync, sys. by rewrite Hr, He. Qed.

Lemma writeFileSync_ok (p : path) (content : str) (previous : option str) (w : World) :
  refused w (SysWrite p) = None ->
  entryAt w p = File <$> previous -> entryAt w (dirname p) = Some Dir ->
  writeFileSync p content w = (Returned tt, setFs (<[p := File content]> (fs w)) w).
Proof.
  intros Hr He Hd. unfold writeFileSync, sys. rewrite Hr, He, Hd.
  by destruct previous.
Qed.

Lemma writeFileSync_parent (p : path) (content : str) (w w' : World) :
  writeFileSync p content w = (Returned tt, w') -> entryAt w (dirname p) = Some Dir.
Proof.
  unfold writeFileSync, sys. destruct (refused w _); [done|].
  destruct (entryAt w p) as [[c|]|];
    destruct (entryAt w (dirname p)) as [[c'|]|]; done.
Qed.

Lemma entryAt_insert_ne (p q : path) (e : entry) (w : World) :
  p <> q -> entryAt (setFs (<[p := e]> (fs w)) w) q = entryAt w q.
Proof.
  intros H. unfold entryAt. destruct q; [done|]. cbn. by rewrite lookup_insert_ne.
Qed.

Lemma entryAt_delete_ne (p q : path) (w : World) :
  p <> q -> entryAt (setFs (delete p (fs w)) w) q = entryAt w q.
Proof.
  intros H. unfold entryAt. destruct q; [done|]. cbn. by rewrite lookup_delete_ne.
Qed.

Lemma entryAt_File_nonempty (w : World) (p : path) (previous : option str) :
  entryAt w p = File <$> previous -> p <> [].
Proof. intros H ->. by destruct previous. Qed.

(** The text and the names, when the template and the schema can be
    read. *)
Lemma assemble_ok (w : World) (schema template : str) :
  refused w (SysRead TYPE) = None -> refused w (SysRead TEMPLATE) = None ->
  entryAt w TEMPLATE = Some (File template) ->
  entryAt w TYPE = Some (File schema) ->
  assemble createSourceFile cfg w =
    (Returned (outputFor createSourceFile schema template,
               tableNamesOf (createSourceFile schema)), w).
Proof.
  intros Hr1 Hr2 Ht Hs. unfold assemble, bind.
  rewrite generateTemplateFile_present
    by (rewrite <- entryAt_TEMPLATE, Ht; eauto).
  unfold extractTableNames, bind.
  rewrite (readFileSync_ok _ _ _ Hr1 Hs). cbn [ret].
  by rewrite (readFileSync_ok _ _ _ Hr2 Ht).
Qed.

Lemma ensureOutputDir_present (w : World) :
  entryAt w (dirname OUTPUT) = Some Dir -> ensureOutputDir cfg w = (Returned tt, w).
Proof.
  intros H. unfold ensureOutputDir, bind, existsSync. rewrite H.
  by rewrite bool_decide_eq_true_2.
Qed.

Lemma removeExistingOutput_ok (w : World) (previous : option str) :
  refused w (SysUnlink OUTPUT) = None ->
  entryAt w OUTPUT = File <$> previous ->
  exists w',
    removeExistingOutput cfg w = (Returned tt, w') /\
    entryAt w' OUTPUT = None /\
    (forall q, q <> OUTPUT -> entryAt w' q = entryAt w q) /\
    (forall e : entry, <[OUTPUT := e]> (fs w') = <[OUTPUT := e]> (fs w)) /\
    refused w' = refused w /\ timers w' = timers w /\
    console w' = console w ++ removalLines OUTPUT previous.
Proof.
  intros Hr He. pose proof (entryAt_File_nonempty _ _ _ He) as Hne.
  unfold removeExistingOutput, bind, existsSync, tryCatch. rewrite He.
  destruct previous as [old|]; cbn [fmap option_fmap option_map].
  - rewrite bool_decide_eq_true_2 by eauto.
    unfold unlinkSync, sys. rewrite Hr, He. cbn.
    eexists. split; [reflexivity|]. cbn. repeat split.
    + unfold entryAt. destruct OUTPUT; [done|]. cbn. by rewrite lookup_delete_eq.
    + intros q Hq. by apply entryAt_delete_ne.
    + intros e. by rewrite insert_delete_eq.
  - rewrite bool_decide_eq_false_2 by (intros [? ?]; done).
    exists w. cbn. repeat split; try done. by rewrite app_nil_r.
Qed.

Lemma fireTimer_ok (w : World) (content : str) (names : list str) :
  refused w (SysWrite OUTPUT) = None ->
  entryAt w OUTPUT = None -> entryAt w (dirname OUTPUT) = Some Dir ->
  fireTimer cfg (WriteOutput content names) w =
    (Returned tt,
     mkWorld (<[OUTPUT := File content]> (fs w)) (refused w)
             (console w ++ successLines names) (timers w)).
Proof.
  intros Hr He Hd. unfold fireTimer, bind.
  rewrite (writeFileSync_ok _ _ None _ Hr He Hd).
  unfold console_log, addMessage, setFs, successLines. cbn.
  by rewrite <- app_assoc.
Qed.

(** The whole run when the template is there. *)
Lemma run_from_template (w : World) (schema template : str) (previous : option str) :
  quiet w -> timers w = [] ->
  entryAt w TEMPLATE = Some (File template) ->
  entryAt w TYPE = Some (File schema) ->
  entryAt w (dirname OUTPUT) = Some Dir ->
  entryAt w OUTPUT = File <$> previous ->
  let names := tableNamesOf (createSourceFile schema) in
  run createSourceFile cfg w =
    (Returned tt,
     mkWorld (<[OUTPUT := File (outputFor createSourceFile schema template)]> (fs w))
             (refused w)
             (console w ++ removalLines OUTPUT previous ++ successLines names)
             []).
Proof.
  intros Hq Ht0 Ht Hs Hd Ho names.
  pose proof (entryAt_File_nonempty _ _ _ Ho) as Hne.
  destruct (removeExistingOutput_ok w previous (Hq _) Ho)
    as (w' & Hr & Hnone & Hother & Hfs & Href & Htim & Hcon).
  unfold run, generateApiClass, bind.
  rewrite (assemble_ok w schema template (Hq _) (Hq _) Ht Hs). cbn [fst snd].
  rewrite (ensureOutputDir_present w Hd), Hr.
  unfold setTimeout. cbn [timers addTimer]. rewrite Htim, Ht0. cbn [app fireAll].
  unfold bind. rewrite fireTimer_ok.
  - cbn [ret clearTimers addTimer fs refused console timers].
    by rewrite Hfs, Href, Hcon, <- app_assoc.
  - cbn. rewrite Href. apply Hq.
  - exact Hnone.
  - change (entryAt w' (dirname OUTPUT) = Some Dir).
    rewrite Hother; [done|]. by apply removelast_shorter.
Qed.

(** X8: with the template and the schema in place, the output
    directory there and nothing refused by the system, the run returns;
    the output file then holds the template with the blocks of the
    schema's tables, whatever it held before; no other entry of the file
    system changes; the console gets the line of the removal, if there
    was a file to remove, and the two closing lines. *)
Theorem run_with_template (w : World) (schema template : str) (previous : option str) :
  quiet w -> timers w = [] ->
  entryAt w TEMPLATE = Some (File template) ->
  entryAt w TYPE = Some (File schema) ->
  entryAt w (dirname OUTPUT) = Some Dir ->
  entryAt w OUTPUT = File <$> previous ->
  run createSourceFile cfg w =
    (Returned tt,
     mkWorld (<[OUTPUT := File (outputFor createSourceFile schema template)]> (fs w))
             (refused w)
             (console w ++ removalLines OUTPUT previous
                        ++ successLines (tableNamesOf (createSourceFile schema)))
             []).
Proof. intros. by apply run_from_template. Qed.

(** X9: with no template yet, the run first writes the template text of
    the generator next to the output file and reports it, then goes on as
    with that template. *)
Theorem run_creates_template (w : World) (schema : str) (previous : option str) :
  quiet w -> timers w = [] ->
  OUTPUT <> TEMPLATE ->
  entryAt w TEMPLATE = None ->
  entryAt w TYPE = Some (File schema) ->
  entryAt w (dirname OUTPUT) = Some Dir ->
  entryAt w (dirname TEMPLATE) = Some Dir ->
  entryAt w OUTPUT = File <$> previous ->
  run createSourceFile cfg w =
    (Returned tt,
     mkWorld (<[OUTPUT := File (outputFor createSourceFile schema templateContent)]>
                (<[TEMPLATE := File templateContent]> (fs w)))
             (refused w)
             (console w ++ [(Stdout, CreatedTemplate TEMPLATE)]
                        ++ removalLines OUTPUT previous
                        ++ successLines (tableNamesOf (createSourceFile schema)))
             []).
Proof.
  intros Hq Ht0 Hne Ht Hs Hd Hdt Ho.
  assert (Hg : generateTemplateFile cfg w =
               (Returned tt,
                addMessage Stdout (CreatedTemplate TEMPLATE)
                  (setFs (<[TEMPLATE := File templateContent]> (fs w)) w))).
  { unfold generateTemplateFile, bind, existsSync. rewrite Ht.
    rewrite bool_decide_eq_false_2 by (intros [? ?]; done). cbn [negb].
    by rewrite (writeFileSync_ok _ _ None _ (Hq _) Ht Hdt). }
  rewrite run_after_template by (by rewrite Hg). rewrite Hg. cbn [snd].
  set (w0 := addMessage _ _ _).
  assert (Hin : forall q, q <> TEMPLATE -> entryAt w0 q = entryAt w q).
  { intros q Hqne. unfold w0. apply (entryAt_insert_ne TEMPLATE q); congruence. }
  rewrite (run_from_template w0 schema templateContent previous).
  - unfold w0. cbn [fs refused console addMessage setFs]. by rewrite <- app_assoc.
  - exact Hq.
  - exact Ht0.
  - unfold w0. rewrite entryAt_TEMPLATE. cbn. by rewrite lookup_insert_eq.
  - rewrite Hin; [done|]. intros E. rewrite E in Hs. congruence.
  - rewrite Hin; [done|]. intros E. rewrite E in Hd. congruence.
  - rewrite Hin; done.
Qed.

(** X10: when the schema file is missing, the run ends with the error
    of the read after the template step: the output file is neither
    removed nor written and no write is scheduled, but a template that
    was not there has been created. *)
Theorem run_without_schema (w w0 : World) :
  generateTemplateFile cfg w = (Returned tt, w0) ->
  refused w0 (SysRead TYPE) = None ->
  entryAt w0 TYPE = None ->
  run createSourceFile cfg w = (Thrown (FsError ENOENT (SysRead TYPE)), w0).
Proof.
  intros Hg Hr He. unfold run, generateApiClass, assemble, bind. rewrite Hg.
  unfold extractTableNames, bind, readFileSync, sys. by rewrite Hr, He.
Qed.

(** X11: when the directory of the output file does not exist, the run
    fails at once, on the template write, with the error of a missing
    directory: the schema is not read and nothing is created, the
    directory of lines 461-466 included. *)
Theorem run_without_output_directory (w : World) :
  outputFilePath cfg <> [] ->
  refused w (SysWrite TEMPLATE) = None ->
  entryAt w (dirname OUTPUT) = None ->
  entryAt w TEMPLATE = None ->
  run createSourceFile cfg w = (Thrown (FsError ENOENT (SysWrite TEMPLATE)), w).
Proof.
  intros Hout Hr Hd Ht. rewrite <- dirname_TEMPLATE in Hd by done.
  unfold run, generateApiClass, assemble, bind, generateTemplateFile, bind, existsSync.
  rewrite Ht. rewrite bool_decide_eq_false_2 by (intros [? ?]; done). cbn [negb].
  unfold writeFileSync, sys. by rewrite Hr, Ht, Hd.
Qed.

(** X12: the directory step never has anything to do. In a file system
    where the template, if there is one, lies in a directory, a run that
    gets as far as lines 461-466 finds the output directory in place:
    [mkdirSync] is not called and nothing is printed. *)
Theorem output_directory_step_idle (w wa : World) (assembled : str * list str) :
  outputFilePath cfg <> [] ->
  (is_Some (entryAt w TEMPLATE) -> entryAt w (dirname TEMPLATE) = Some Dir) ->
  assemble createSourceFile cfg w = (Returned assembled, wa) ->
  ensureOutputDir cfg wa = (Returned tt, wa).
Proof.
  intros Hout Hwf Ha. apply ensureOutputDir_present.
  rewrite <- dirname_TEMPLATE by done.
  unfold assemble in Ha. apply bind_returned in Ha as ([] & w0 & Hg & Ha).
  apply bind_returned in Ha as (names & w1 & He & Ha).
  apply bind_returned in Ha as (template & w2 & Hr & Ha).
  unfold extractTableNames in He. apply bind_returned in He as (schema & w3 & Hs & He).
  apply readFileSync_returned in Hs as [-> _].
  apply readFileSync_returned in Hr as [-> _].
  injection He as <- <-. injection Ha as <- <-.
  revert Hg. unfold generateTemplateFile, bind, existsSync.
  destruct (bool_decide (is_Some (entryAt w TEMPLATE))) eqn:Ex; cbn [negb].
  - intros [= <-]. apply Hwf. by apply bool_decide_eq_true in Ex.
  - destruct (writeFileSync _ _ w) as [[[]|e] w4] eqn:Ew; [|done].
    pose proof (writeFileSync_parent _ _ _ _ Ew) as Hd.
    apply writeFileSync_returned in Ew as [-> _]. intros [= <-].
    change (entryAt (setFs (<[TEMPLATE := File templateContent]> (fs w)) w)
                    (dirname TEMPLATE) = Some Dir).
    rewrite entryAt_insert_ne; [done|].
    apply not_eq_sym, removelast_shorter, TEMPLATE_nonempty.
Qed.

(** X13: a run, completed or failed, leaves the content of every file
    other than the output file as it was; the schema file is one of
    them. *)
Theorem run_keeps_other_files (w : World) (p : path) (content : str) :
  OUTPUT <> p -> holds p content w -> holds p content (run createSourceFile cfg w).2.
Proof. intros Hne H. by apply preserves_run. Qed.

(** X14: the template step is idempotent: a second call changes
    nothing, and returns when the first one did. *)
Theorem generateTemplateFile_idempotent (w : World) :
  (generateTemplateFile cfg (generateTemplateFile cfg w).2).2 = (generateTemplateFile cfg w).2 /\
  ((generateTemplateFile cfg w).1 = Returned tt ->
   generateTemplateFile cfg (generateTemplateFile cfg w).2 =
     (Returned tt, (generateTemplateFile cfg w).2)).
Proof.
  assert (Hok : (generateTemplateFile cfg w).1 = Returned tt ->
                generateTemplateFile cfg (generateTemplateFile cfg w).2 =
                  (Returned tt, (generateTemplateFile cfg w).2)).
  { unfold generateTemplateFile at 1 3 4, bind, existsSync.
    destruct (bool_decide (is_Some (entryAt w TEMPLATE))) eqn:Ex; cbn [negb].
    - intros _. cbn [snd]. apply generateTemplateFile_present.
      rewrite <- entryAt_TEMPLATE. by apply bool_decide_eq_true in Ex.
    - destruct (writeFileSync _ _ w) as [[[]|e] w1] eqn:Ew; [|done].
      apply writeFileSync_returned in Ew as [-> _]. intros _. cbn [snd].
      apply generateTemplateFile_present. cbn. rewrite lookup_insert_eq. eauto. }
  split; [|exact Hok].
  destruct (generateTemplateFile cfg w) as [[[]|e] w1] eqn:Eg.
  - cbn [fst snd] in *. by rewrite Hok.
  - cbn [snd]. assert (w1 = w) as ->; [|by rewrite Eg].
    revert Eg. unfold generateTemplateFile, bind, existsSync.
    destruct (negb _); [|done].
    unfold writeFileSync, sys. destruct (refused w _); [by intros [= _ <-]|].
    destruct (entryAt w TEMPLATE) as [[c|]|];
      destruct (entryAt w (dirname TEMPLATE)) as [[c'|]|]; cbn; by intros [= _ <-] || done.
Qed.

(** X15: when the output path is a directory, the removal fails and is
    logged, [generateApiClass] returns all the same, and the write that
    it has scheduled then throws in the timer: the run ends with that
    error, out of reach of whoever called [generateApiClass], and with
    the file system unchanged. *)
Theorem run_onto_directory (w : World) (schema template : str) :
  quiet w -> timers w = [] ->
  entryAt w TEMPLATE = Some (File template) ->
  entryAt w TYPE = Some (File schema) ->
  entryAt w (dirname OUTPUT) = Some Dir ->
  entryAt w OUTPUT = Some Dir ->
  let logged :=
    addMessage Stderr (ErrorDeleting OUTPUT (FsError EISDIR (SysUnlink OUTPUT))) w in
  generateApiClass createSourceFile cfg w =
    (Returned tt,
     addTimer (WriteOutput (outputFor createSourceFile schema template)
                           (tableNamesOf (createSourceFile schema))) logged) /\
  run createSourceFile cfg w = (Thrown (FsError EISDIR (SysWrite OUTPUT)), logged).
Proof.
  intros Hq Ht0 Ht Hs Hd Ho logged.
  assert (Hg : generateApiClass createSourceFile cfg w =
    (Returned tt,
     addTimer (WriteOutput (outputFor createSourceFile schema template)
                           (tableNamesOf (createSourceFile schema))) logged)).
  { unfold generateApiClass, bind.
    rewrite (assemble_ok w schema template (Hq _) (Hq _) Ht Hs). cbn [fst snd].
    rewrite (ensureOutputDir_present w Hd).
    unfold removeExistingOutput, bind, existsSync, tryCatch. rewrite Ho.
    rewrite bool_decide_eq_true_2 by eauto.
    unfold unlinkSync, sys. by rewrite (Hq _), Ho. }
  split; [exact Hg|].
  unfold run, bind. rewrite Hg. unfold logged.
  cbn [timers addTimer addMessage]. rewrite Ht0.
  cbn [app fireAll fireTimer]. unfold bind, writeFileSync, sys.
  unfold clearTimers, addTimer, addMessage. cbn [fs refused console timers].
  rewrite (Hq (SysWrite OUTPUT)).
  assert (Hx : forall c tm, entryAt (mkWorld (fs w) (refused w) c tm) OUTPUT = Some Dir)
    by (intros; exact Ho).
  rewrite Hx. by rewrite Ht0.
Qed.

End RunFacts.

(** ** A second run *)

Section SecondRun.

Variable createSourceFile : str -> Node.
Variable cfg : Config.

Local Abbreviation TYPE := (TYPE_FILE_PATH cfg).
Local Abbreviation OUTPUT := (OUTPUT_FILE_PATH cfg).
Local Abbreviation TEMPLATE := (TEMPLATE_FILE_PATH cfg).

(** X22: a second run right after a first one changes nothing in the
    file system, as long as the output file is neither the schema nor the
    template: it removes the output file, writes the same text again and
    prints the three lines of a run that found a file to replace. *)
Theorem second_run_changes_nothing
    (w : World) (schema template : str) (previous : option str) :
  quiet w -> timers w = [] ->
  OUTPUT <> TYPE -> OUTPUT <> TEMPLATE ->
  entryAt w TEMPLATE = Some (File template) ->
  entryAt w TYPE = Some (File schema) ->
  entryAt w (dirname OUTPUT) = Some Dir ->
  entryAt w OUTPUT = File <$> previous ->
  let first := run createSourceFile cfg w in
  let second := run createSourceFile cfg first.2 in
  first.1 = Returned tt /\ second.1 = Returned tt /\
  fs second.2 = fs first.2 /\
  console second.2 =
    console first.2 ++ [(Stdout, DeletedExisting OUTPUT)]
                    ++ successLines (tableNamesOf (createSourceFile schema)).
Proof.
  intros Hq Ht0 Hot Hop Ht Hs Hd Ho first second.
  pose proof (entryAt_File_nonempty _ _ _ Ho) as Hne.
  pose proof (run_from_template createSourceFile cfg w schema template previous
                Hq Ht0 Ht Hs Hd Ho) as H1.
  cbv zeta in H1. unfold second, first. rewrite H1. cbn [fst snd].
  set (out := outputFor createSourceFile schema template) in *.
  set (w1 := mkWorld _ _ _ _).
  assert (Hin : forall q, q <> OUTPUT -> entryAt w1 q = entryAt w q).
  { intros q Hqne. unfold w1, entryAt. destruct q; [done|]. cbn.
    by rewrite lookup_insert_ne. }
  assert (Ho1 : entryAt w1 OUTPUT = File <$> Some out).
  { unfold w1, entryAt. destruct OUTPUT; [done|]. cbn. by rewrite lookup_insert_eq. }
  rewrite (run_from_template createSourceFile cfg w1 schema template (Some out)).
  - cbn [fst snd fs console removalLines]. split; [done|]. split; [done|].
    split; [|done]. unfold w1. cbn [fs]. by rewrite insert_insert_eq.
  - exact Hq.
  - reflexivity.
  - by rewrite Hin.
  - by rewrite Hin.
  - rewrite Hin; [done|]. by apply removelast_shorter.
  - exact Ho1.
Qed.

End SecondRun.

(** ** Edge cases of the substitution *)

Section SubstitutionEdges.

Variable createSourceFile : str -> Node.

Lemma cut_none (search s : str) : ~ occursIn search s <-> cut search s = None.
Proof.
  split.
  - intros H. destruct (cut search s) as [[pre post]|] eqn:E; [|reflexivity].
    exfalso. apply H. exists pre, post. by apply cut_sound.
  - intros Hc (pre & post & ->). revert Hc. induction pre as [|c pre IH].
    + cbn [app]. destruct (search ++ post) eqn:E; cbn [cut];
        rewrite <- E, isPrefix_app; discriminate.
    + cbn [app cut]. destruct (isPrefix _ _); [discriminate|].
      destruct (cut search (pre ++ search ++ post)) as [[? ?]|]; [discriminate|].
      intros _. by apply IH.
Qed.

(** X16: a template without the marker is copied to the output as it
    is: the generated blocks are dropped, and nothing reports it. *)
Theorem template_without_marker (schema template : str) :
  ~ occursIn placeholder template ->
  outputFor createSourceFile schema template = template.
Proof. intros H%cut_none. unfold outputFor, replace. by rewrite H. Qed.

(** X17: a schema in which no declaration is selected gives the
    template with its first marker taken out and nothing put in its
    place. *)
Theorem schema_without_tables (schema template pre post : str) :
  tableNamesOf (createSourceFile schema) = [] ->
  firstOccurrence placeholder pre post template ->
  outputFor createSourceFile schema template = pre ++ post.
Proof.
  intros Hn Hf. unfold outputFor. rewrite Hn. cbn [map join].
  by rewrite (replace_first _ _ _ _ _ Hf).
Qed.

(** X24: when no table name has a dollar sign, the output is the text
    before the first marker, the blocks of the tables joined by newlines,
    and the whole text after that marker, untouched; a later marker stays
    where it is. *)
Theorem output_without_dollar (schema template pre post : str) :
  Forall noDollar (tableNamesOf (createSourceFile schema)) ->
  firstOccurrence placeholder pre post template ->
  outputFor createSourceFile schema template =
    pre ++ join newline (map generateMethodsForTable (tableNamesOf (createSourceFile schema)))
        ++ post.
Proof. intros Hn Hf. unfold outputFor. by apply placeholder_first_only. Qed.

End SubstitutionEdges.

(** ** The further properties at sample inputs *)

Lemma quiet_sample (files : gmap path entry) (c : list (Stream * Message))
    (ts : list Timer) : quiet (mkWorld files (fun _ => None) c ts).
Proof. intros call. reflexivity. Qed.

Lemma run_with_template_witness :
  let w := editedWorld in
  let cfg := sampleConfig in
  quiet w /\ timers w = [] /\
  entryAt w (TEMPLATE_FILE_PATH cfg) = Some (File handTemplate) /\
  entryAt w (TYPE_FILE_PATH cfg) = Some (File sampleSchema) /\
  entryAt w (dirname (OUTPUT_FILE_PATH cfg)) = Some Dir /\
  entryAt w (OUTPUT_FILE_PATH cfg) = File <$> Some (lit "old") /\
  run sampleParser cfg w =
    (Returned tt,
     mkWorld (<[OUTPUT_FILE_PATH cfg := File (outputFor sampleParser sampleSchema handTemplate)]>
                (fs w))
             (refused w)
             (console w ++ removalLines (OUTPUT_FILE_PATH cfg) (Some (lit "old"))
                        ++ successLines (tableNamesOf (sampleParser sampleSchema)))
             []).
Proof.
  intros w cfg.
  assert (H1 : quiet w) by apply quiet_sample.
  assert (H2 : timers w = []) by reflexivity.
  assert (H3 : entryAt w (TEMPLATE_FILE_PATH cfg) = Some (File handTemplate))
    by (vm_compute; reflexivity).
  assert (H4 : entryAt w (TYPE_FILE_PATH cfg) = Some (File sampleSchema))
    by (vm_compute; reflexivity).
  assert (H5 : entryAt w (dirname (OUTPUT_FILE_PATH cfg)) = Some Dir)
    by (vm_compute; reflexivity).
  assert (H6 : entryAt w (OUTPUT_FILE_PATH cfg) = File <$> Some (lit "old"))
    by (vm_compute; reflexivity).
  split; [exact H1|]. split; [exact H2|]. split; [exact H3|]. split; [exact H4|].
  split; [exact H5|]. split; [exact H6|].
  exact (run_with_template sampleParser cfg w sampleSchema handTemplate (Some (lit "old"))
           H1 H2 H3 H4 H5 H6).
Defined.

Lemma generateTemplateFile_idempotent_witness :
  let w := sampleWorld in
  let w1 := (generateTemplateFile sampleConfig w).2 in
  (generateTemplateFile sampleConfig w).1 = Returned tt /\
  entryAt w (TEMPLATE_FILE_PATH sampleConfig) = None /\
  generateTemplateFile sampleConfig w1 = (Returned tt, w1).
Proof.
  intros w w1.
  assert (H : (generateTemplateFile sampleConfig w).1 = Returned tt) by (vm_compute; reflexivity).
  split; [exact H|]. split; [vm_compute; reflexivity|].
  exact (proj2 (generateTemplateFile_idempotent sampleConfig w) H).
Defined.

Lemma run_creates_template_witness :
  let w := sampleWorld in
  let cfg := sampleConfig in
  quiet w /\ timers w = [] /\
  OUTPUT_FILE_PATH cfg <> TEMPLATE_FILE_PATH cfg /\
  entryAt w (TEMPLATE_FILE_PATH cfg) = None /\
  entryAt w (TYPE_FILE_PATH cfg) = Some (File sampleSchema) /\
  entryAt w (dirname (OUTPUT_FILE_PATH cfg)) = Some Dir /\
  entryAt w (dirname (TEMPLATE_FILE_PATH cfg)) = Some Dir /\
  entryAt w (OUTPUT_FILE_PATH cfg) = File <$> None /\
  (run sampleParser cfg w).1 = Returned tt /\
  entryAt (run sampleParser cfg w).2 (TEMPLATE_FILE_PATH cfg) = Some (File templateContent) /\
  entryAt (run sampleParser cfg w).2 (OUTPUT_FILE_PATH cfg) =
    Some (File (outputFor sampleParser sampleSchema templateContent)).
Proof.
  intros w cfg.
  assert (H1 : quiet w) by apply quiet_sample.
  assert (H2 : timers w = []) by reflexivity.
  assert (H3 : OUTPUT_FILE_PATH cfg <> TEMPLATE_FILE_PATH cfg) by (vm_compute; discriminate).
  assert (H4 : entryAt w (TEMPLATE_FILE_PATH cfg) = None) by (vm_compute; reflexivity).
  assert (H5 : entryAt w (TYPE_FILE_PATH cfg) = Some (File sampleSchema))
    by (vm_compute; reflexivity).
  assert (H6 : entryAt w (dirname (OUTPUT_FILE_PATH cfg)) = Some Dir)
    by (vm_compute; reflexivity).
  assert (H7 : entryAt w (dirname (TEMPLATE_FILE_PATH cfg)) = Some Dir)
    by (vm_compute; reflexivity).
  assert (H8 : entryAt w (OUTPUT_FILE_PATH cfg) = File <$> None) by (vm_compute; reflexivity).
  split; [exact H1|]. split; [exact H2|]. split; [exact H3|]. split; [exact H4|].
  split; [exact H5|]. split; [exact H6|]. split; [exact H7|]. split; [exact H8|].
  rewrite (run_creates_template sampleParser cfg w sampleSchema None
             H1 H2 H3 H4 H5 H6 H7 H8).
  split; [reflexivity|]. split; vm_compute; reflexivity.
Defined.

Lemma run_without_schema_witness :
  let w := noSchemaWorld in
  let cfg := sampleConfig in
  let w0 := (generateTemplateFile cfg w).2 in
  generateTemplateFile cfg w = (Returned tt, w0) /\
  refused w0 (SysRead (TYPE_FILE_PATH cfg)) = None /\
  entryAt w0 (TYPE_FILE_PATH cfg) = None /\
  run sampleParser cfg w = (Thrown (FsError ENOENT (SysRead (TYPE_FILE_PATH cfg))), w0) /\
  entryAt w0 (TEMPLATE_FILE_PATH cfg) = Some (File templateContent) /\
  entryAt w0 (OUTPUT_FILE_PATH cfg) = None.
Proof.
  intros w cfg w0.
  assert (H1 : generateTemplateFile cfg w = (Returned tt, w0)) by (vm_compute; reflexivity).
  assert (H2 : refused w0 (SysRead (TYPE_FILE_PATH cfg)) = None) by reflexivity.
  assert (H3 : entryAt w0 (TYPE_FILE_PATH cfg) = None) by (vm_compute; reflexivity).
  split; [exact H1|]. split; [exact H2|]. split; [exact H3|].
  split; [exact (run_without_schema sampleParser cfg w w0 H1 H2 H3)|].
  split; vm_compute; reflexivity.
Defined.

Lemma run_without_output_directory_witness :
  let w := noLibWorld in
  let cfg := sampleConfig in
  outputFilePath cfg <> [] /\
  refused w (SysWrite (TEMPLATE_FILE_PATH cfg)) = None /\
  entryAt w (dirname (OUTPUT_FILE_PATH cfg)) = None /\
  entryAt w (TEMPLATE_FILE_PATH cfg) = None /\
  run sampleParser cfg w =
    (Thrown (FsError ENOENT (SysWrite (TEMPLATE_FILE_PATH cfg))), w).
Proof.
  intros w cfg.
  assert (H1 : outputFilePath cfg <> []) by discriminate.
  assert (H2 : refused w (SysWrite (TEMPLATE_FILE_PATH cfg)) = None) by reflexivity.
  assert (H3 : entryAt w (dirname (OUTPUT_FILE_PATH cfg)) = None) by (vm_compute; reflexivity).
  assert (H4 : entryAt w (TEMPLATE_FILE_PATH cfg) = None) by (vm_compute; reflexivity).
  split; [exact H1|]. split; [exact H2|]. split; [exact H3|]. split; [exact H4|].
  exact (run_without_output_directory sampleParser cfg w H1 H2 H3 H4).
Defined.

Lemma output_directory_step_idle_witness :
  let w := sampleWorld in
  let cfg := sampleConfig in
  let r := assemble sampleParser cfg w in
  outputFilePath cfg <> [] /\
  (is_Some (entryAt w (TEMPLATE_FILE_PATH cfg)) ->
   entryAt w (dirname (TEMPLATE_FILE_PATH cfg)) = Some Dir) /\
  r.1 = Returned (outputFor sampleParser sampleSchema templateContent,
                  [lit "posts"; lit "user_type"]) /\
  ensureOutputDir cfg r.2 = (Returned tt, r.2).
Proof.
  intros w cfg r.
  assert (H1 : outputFilePath cfg <> []) by discriminate.
  assert (H2 : is_Some (entryAt w (TEMPLATE_FILE_PATH cfg)) ->
               entryAt w (dirname (TEMPLATE_FILE_PATH cfg)) = Some Dir)
    by (intros _; vm_compute; reflexivity).
  assert (H3 : r = (Returned (outputFor sampleParser sampleSchema templateContent,
                              [lit "posts"; lit "user_type"]), r.2))
    by (vm_compute; reflexivity).
  split; [exact H1|]. split; [exact H2|]. split; [by rewrite H3|].
  exact (output_directory_step_idle sampleParser cfg w r.2 _ H1 H2 H3).
Defined.

Lemma run_keeps_other_files_witness :
  let w := editedWorld in
  let cfg := sampleConfig in
  OUTPUT_FILE_PATH cfg <> TYPE_FILE_PATH cfg /\
  holds (TYPE_FILE_PATH cfg) sampleSchema w /\
  holds (TYPE_FILE_PATH cfg) sampleSchema (run sampleParser cfg w).2.
Proof.
  intros w cfg.
  assert (H1 : OUTPUT_FILE_PATH cfg <> TYPE_FILE_PATH cfg) by (vm_compute; discriminate).
  assert (H2 : holds (TYPE_FILE_PATH cfg) sampleSchema w) by (vm_compute; reflexivity).
  split; [exact H1|]. split; [exact H2|].
  exact (run_keeps_other_files sampleParser cfg w _ _ H1 H2).
Defined.

Lemma run_onto_directory_witness :
  let w := directoryWorld in
  let cfg := sampleConfig in
  let out := OUTPUT_FILE_PATH cfg in
  quiet w /\ timers w = [] /\
  entryAt w (TEMPLATE_FILE_PATH cfg) = Some (File handTemplate) /\
  entryAt w (TYPE_FILE_PATH cfg) = Some (File sampleSchema) /\
  entryAt w (dirname out) = Some Dir /\
  entryAt w out = Some Dir /\
  (generateApiClass sampleParser cfg w).1 = Returned tt /\
  run sampleParser cfg w =
    (Thrown (FsError EISDIR (SysWrite out)),
     addMessage Stderr (ErrorDeleting out (FsError EISDIR (SysUnlink out))) w).
Proof.
  intros w cfg out.
  assert (H1 : quiet w) by apply quiet_sample.
  assert (H2 : timers w = []) by reflexivity.
  assert (H3 : entryAt w (TEMPLATE_FILE_PATH cfg) = Some (File handTemplate))
    by (vm_compute; reflexivity).
  assert (H4 : entryAt w (TYPE_FILE_PATH cfg) = Some (File sampleSchema))
    by (vm_compute; reflexivity).
  assert (H5 : entryAt w (dirname out) = Some Dir) by (vm_compute; reflexivity).
  assert (H6 : entryAt w out = Some Dir) by (vm_compute; reflexivity).
  destruct (run_onto_directory sampleParser cfg w sampleSchema handTemplate
              H1 H2 H3 H4 H5 H6) as [Hg Hrun].
  split; [exact H1|]. split; [exact H2|]. split; [exact H3|]. split; [exact H4|].
  split; [exact H5|]. split; [exact H6|]. split; [by rewrite Hg | exact Hrun].
Defined.

Lemma template_without_marker_witness :
  ~ occursIn placeholder plainTemplate /\
  outputFor sampleParser sampleSchema plainTemplate = plainTemplate.
Proof.
  assert (H : ~ occursIn placeholder plainTemplate)
    by (apply cut_none; vm_compute; reflexivity).
  split; [exact H|].
  exact (template_without_marker sampleParser sampleSchema plainTemplate H).
Defined.

Lemma schema_without_tables_witness :
  tableNamesOf (sampleParser (lit "export {}")) = [] /\
  firstOccurrence placeholder handPre handPost handTemplate /\
  outputFor sampleParser (lit "export {}") handTemplate = handPre ++ handPost.
Proof.
  assert (H1 : tableNamesOf (sampleParser (lit "export {}")) = []) by reflexivity.
  split; [exact H1|]. split; [exact handTemplate_first|].
  exact (schema_without_tables sampleParser _ _ _ _ H1 handTemplate_first).
Defined.

Lemma output_without_dollar_witness :
  Forall noDollar (tableNamesOf (sampleParser sampleSchema)) /\
  firstOccurrence placeholder handPre handPost handTemplate /\
  outputFor sampleParser sampleSchema handTemplate =
    handPre ++ generateMethodsForTable (lit "posts") ++ newline
            ++ generateMethodsForTable (lit "user_type") ++ handPost.
Proof.
  assert (H : Forall noDollar (tableNamesOf (sampleParser sampleSchema))).
  { repeat constructor; by apply lit_noDollar_check. }
  split; [exact H|]. split; [exact handTemplate_first|].
  exact (output_without_dollar sampleParser sampleSchema handTemplate handPre handPost
           H handTemplate_first).
Defined.

Lemma second_run_changes_nothing_witness :
  let w := editedWorld in
  let cfg := sampleConfig in
  let first := run sampleParser cfg w in
  let second := run sampleParser cfg first.2 in
  quiet w /\ timers w = [] /\
  OUTPUT_FILE_PATH cfg <> TYPE_FILE_PATH cfg /\
  OUTPUT_FILE_PATH cfg <> TEMPLATE_FILE_PATH cfg /\
  entryAt w (TEMPLATE_FILE_PATH cfg) = Some (File handTemplate) /\
  entryAt w (TYPE_FILE_PATH cfg) = Some (File sampleSchema) /\
  entryAt w (dirname (OUTPUT_FILE_PATH cfg)) = Some Dir /\
  entryAt w (OUTPUT_FILE_PATH cfg) = File <$> Some (lit "old") /\
  second.1 = Returned tt /\ fs second.2 = fs first.2.
Proof.
  intros w cfg first second.
  assert (H1 : quiet w) by apply quiet_sample.
  assert (H2 : timers w = []) by reflexivity.
  assert (H3 : OUTPUT_FILE_PATH cfg <> TYPE_FILE_PATH cfg) by (vm_compute; discriminate).
  assert (H4 : OUTPUT_FILE_PATH cfg <> TEMPLATE_FILE_PATH cfg) by (vm_compute; discriminate).
  assert (H5 : entryAt w (TEMPLATE_FILE_PATH cfg) = Some (File handTemplate))
    by (vm_compute; reflexivity).
  assert (H6 : entryAt w (TYPE_FILE_PATH cfg) = Some (File sampleSchema))
    by (vm_compute; reflexivity).
  assert (H7 : entryAt w (dirname (OUTPUT_FILE_PATH cfg)) = Some Dir)
    by (vm_compute; reflexivity).
  assert (H8 : entryAt w (OUTPUT_FILE_PATH cfg) = File <$> Some (lit "old"))
    by (vm_compute; reflexivity).
  destruct (second_run_changes_nothing sampleParser cfg w sampleSchema handTemplate
              (Some (lit "old")) H1 H2 H3 H4 H5 H6 H7 H8) as (_ & R2 & R3 & _).
  split; [exact H1|]. split; [exact H2|]. split; [exact H3|]. split; [exact H4|].
  split; [exact H5|]. split; [exact H6|]. split; [exact H7|]. split; [exact H8|].
  split; [exact R2 | exact R3].
Defined.

(** ** The read operations of the generated class *)

(** ** Numbers: the whole numbers up to [2 ^ 53] are computed with exactly *)

Module DoubleFacts.
Import Double.
Local Open Scope Z_scope.

Lemma digits2_pos_size (p : positive) : digits2_pos p = Pos.size p.
Proof. induction p as [p IH|p IH|]; cbn [digits2_pos Pos.size]; [by rewrite IH..|reflexivity]. Qed.

Lemma Zdigits2_log2 (p : positive) : Z.pos (digits2_pos p) = Z.log2 (Z.pos p) + 1.
Proof.
  rewrite digits2_pos_size. destruct p as [p|p|]; cbn [Z.log2 Pos.size]; lia.
Qed.

Lemma iter_plus {A : Type} (f : A -> A) (a b : nat) (x : A) :
  Nat.iter (a + b) f x = Nat.iter a f (Nat.iter b f x).
Proof.
  induction a as [|a IH]; [reflexivity|].
  change (f (Nat.iter (a + b) f x) = f (Nat.iter a f (Nat.iter b f x))).
  by rewrite IH.
Qed.

Lemma iter_pos_nat {A : Type} (f : A -> A) (p : positive) :
  forall x : A, SpecFloat.iter_pos f p x = Nat.iter (Pos.to_nat p) f x.
Proof.
  induction p as [p IH|p IH|]; intros x; cbn [SpecFloat.iter_pos].
  - rewrite !IH, Pos2Nat.inj_xI.
    replace (S (2 * Pos.to_nat p))%nat with (Pos.to_nat p + (Pos.to_nat p + 1))%nat by lia.
    rewrite !iter_plus. reflexivity.
  - rewrite !IH, Pos2Nat.inj_xO.
    replace (2 * Pos.to_nat p)%nat with (Pos.to_nat p + Pos.to_nat p)%nat by lia.
    by rewrite iter_plus.
  - reflexivity.
Qed.

Lemma shiftl_nat_value (q : positive) (k : nat) :
  Z.pos (Pos.shiftl_nat q k) = Z.pos q * 2 ^ Z.of_nat k.
Proof.
  induction k as [|k IH].
  - cbn. lia.
  - change (Pos.shiftl_nat q (S k)) with ((Pos.shiftl_nat q k)~0)%positive.
    rewrite Pos2Z.inj_xO, IH, Nat2Z.inj_succ, Z.pow_succ_r by lia. lia.
Qed.

(** Shifting out zero bits loses nothing. *)
Lemma shr_exact (k : nat) :
  forall q : positive,
    Nat.iter k shr_1 {| shr_m := Z.pos (Pos.shiftl_nat q k); shr_r := false; shr_s := false |}
    = {| shr_m := Z.pos q; shr_r := false; shr_s := false |}.
Proof.
  induction k as [|k IH]; intros q; [reflexivity|].
  rewrite Nat.iter_succ_r.
  change (Pos.shiftl_nat q (S k)) with ((Pos.shiftl_nat q k)~0)%positive.
  cbn [shr_1 orb]. apply IH.
Qed.

Lemma shr_multiple (c m : positive) (k e : Z) :
  0 <= k -> Z.pos m = Z.pos c * 2 ^ k ->
  shr {| shr_m := Z.pos m; shr_r := false; shr_s := false |} e k =
  ({| shr_m := Z.pos c; shr_r := false; shr_s := false |}, e + k).
Proof.
  intros Hk Hm. unfold shr. destruct k as [|p|p]; [|clear Hk|lia].
  - rewrite Z.pow_0_r, Z.mul_1_r in Hm. injection Hm as ->. by rewrite Z.add_0_r.
  - rewrite iter_pos_nat. f_equal.
    assert (m = Pos.shiftl_nat c (Pos.to_nat p)) as ->.
    { apply Pos2Z.inj. rewrite shiftl_nat_value, positive_nat_Z. exact Hm. }
    apply shr_exact.
Qed.

(** A mantissa that is a multiple of a full one is rounded to it. *)
Lemma binary_round_aux_exact (s : bool) (m c : positive) (e k : Z) :
  Z.log2 (Z.pos c) = 52 -> 0 <= k -> Z.pos m = Z.pos c * 2 ^ k ->
  -1074 <= e + k <= 971 ->
  binary_round_aux 53 1024 s (Z.pos m) e loc_Exact = S754_finite s c (e + k).
Proof.
  intros Hc Hk Hm He.
  assert (Hlog : Z.log2 (Z.pos m) = 52 + k).
  { rewrite Hm, Z.log2_mul_pow2 by lia. lia. }
  unfold binary_round_aux, shr_fexp.
  cbn [shr_record_of_loc Zdigits2].
  rewrite Zdigits2_log2, Hlog.
  replace (fexp 53 1024 (52 + k + 1 + e) - e) with k by (unfold fexp, emin; lia).
  rewrite (shr_multiple c m k e Hk Hm).
  cbn [shr_m loc_of_shr_record round_nearest_even shr_record_of_loc Zdigits2].
  rewrite Zdigits2_log2, Hc.
  replace (fexp 53 1024 (52 + 1 + (e + k)) - (e + k)) with 0 by (unfold fexp, emin; lia).
  cbn [shr shr_m].
  destruct (Z.leb_spec (e + k) (1024 - 53)); [reflexivity|lia].
Qed.

Lemma iter_xO_value (m d : positive) : Z.pos (Pos.iter xO m d) = Z.pos m * 2 ^ Z.pos d.
Proof.
  rewrite Pos2Nat.inj_iter, <- (positive_nat_Z d).
  apply (shiftl_nat_value m (Pos.to_nat d)).
Qed.

Lemma shl_align_value (m : positive) (e e' : Z) :
  e' <= e -> Z.pos (shl_align m e e').1 = Z.pos m * 2 ^ (e - e').
Proof.
  intros H. unfold shl_align. destruct (e' - e) as [|d|d] eqn:E; [|lia|].
  - replace (e - e') with 0 by lia. cbn. lia.
  - cbn [fst]. rewrite iter_xO_value. f_equal. f_equal. lia.
Qed.

Lemma mantissa_value (n : Z) :
  0 < n < 2 ^ 53 -> Z.pos (mantissa n) = n * 2 ^ (52 - Z.log2 n) /\ 0 <= Z.log2 n <= 52.
Proof.
  intros H. assert (Hl : 0 <= Z.log2 n <= 52).
  { split; [apply Z.log2_nonneg|]. apply Z.lt_succ_r. apply Z.log2_lt_pow2; lia. }
  split; [|exact Hl]. unfold mantissa. apply Z2Pos.id.
  apply Z.mul_pos_pos; [lia|]. apply Z.pow_pos_nonneg; lia.
Qed.

Lemma mantissa_full (n : Z) : 0 < n < 2 ^ 53 -> Z.log2 (Z.pos (mantissa n)) = 52.
Proof.
  intros H. destruct (mantissa_value n H) as [-> Hl].
  rewrite Z.log2_mul_pow2 by lia. lia.
Qed.

Lemma binary_round_whole (s : bool) (m : positive) (e n : Z) :
  0 < n < 2 ^ 53 -> e <= 0 -> Z.pos m = n * 2 ^ (- e) ->
  binary_round 53 1024 s m e = S754_finite s (mantissa n) (exponent n).
Proof.
  intros Hn He Hm.
  destruct (mantissa_value n Hn) as [Hc Hl]. pose proof (mantissa_full n Hn) as Hfull.
  assert (Hlog : Z.log2 (Z.pos m) = Z.log2 n - e).
  { rewrite Hm, Z.log2_mul_pow2 by lia. lia. }
  unfold binary_round. rewrite Zdigits2_log2, Hlog.
  replace (fexp 53 1024 (Z.log2 n - e + 1 + e)) with (exponent n)
    by (unfold fexp, emin, exponent; lia).
  destruct (Z.le_gt_cases (exponent n) e) as [Hle|Hgt].
  - pose proof (shl_align_value m e (exponent n) Hle) as Hv.
    destruct (shl_align m e (exponent n)) as [mz ez] eqn:Es. cbn [fst] in Hv.
    assert (ez = exponent n \/ ez = e /\ e = exponent n) as Hez.
    { revert Es. unfold shl_align. destruct (exponent n - e) eqn:E; intros [= <- <-]; lia. }
    assert (Hmz : Z.pos mz = Z.pos (mantissa n) * 2 ^ 0).
    { rewrite Hv, Hc, Hm, <- Z.mul_assoc, <- Z.pow_add_r by (unfold exponent in *; lia).
      rewrite Z.pow_0_r, Z.mul_1_r. f_equal. f_equal. unfold exponent in *. lia. }
    rewrite (binary_round_aux_exact s mz (mantissa n) ez 0);
      [f_equal; lia|done|lia|done|unfold exponent in *; lia].
  - assert (Es : shl_align m e (exponent n) = (m, e)).
    { unfold shl_align. destruct (exponent n - e) eqn:E; [done|done|lia]. }
    rewrite Es.
    rewrite (binary_round_aux_exact s m (mantissa n) e (exponent n - e));
      [f_equal; lia|done|lia| |unfold exponent in *; lia].
    rewrite Hc, Hm, <- Z.mul_assoc, <- Z.pow_add_r by (unfold exponent in *; lia).
    f_equal. f_equal. unfold exponent. lia.
Qed.

Lemma whole_finite (n : Z) :
  0 < n < 2 ^ 53 -> whole n = S754_finite false (mantissa n) (exponent n).
Proof.
  intros Hn. unfold whole, binary_normalize. destruct n as [|p|p]; [lia| |lia].
  apply binary_round_whole; [done|lia|]. cbn. lia.
Qed.

Lemma normalize_whole (n e : Z) :
  0 <= n < 2 ^ 53 -> e <= 0 ->
  binary_normalize 53 1024 (n * 2 ^ (- e)) e false = whole n.
Proof.
  intros Hn He. destruct (Z.eq_dec n 0) as [->|Hne]; [reflexivity|].
  rewrite whole_finite by lia.
  assert (Hpos : 0 < n * 2 ^ (- e)).
  { apply Z.mul_pos_pos; [lia|]. apply Z.pow_pos_nonneg; lia. }
  destruct (n * 2 ^ (- e)) as [|m|m] eqn:E; [lia| |lia].
  unfold binary_normalize. apply binary_round_whole; [lia|done|done].
Qed.

Lemma mul_whole (a b : Z) :
  0 <= a -> 0 < b < 2 ^ 53 -> a * b < 2 ^ 53 -> mul (whole a) (whole b) = whole (a * b).
Proof.
  intros Ha Hb Hab. rewrite (whole_finite b) by lia.
  destruct (Z.eq_dec a 0) as [->|Hne]; [reflexivity|].
  assert (Ha' : 0 < a < 2 ^ 53) by nia.
  assert (Hab' : 0 < a * b < 2 ^ 53) by nia.
  rewrite (whole_finite a), (whole_finite (a * b)) by done.
  destruct (mantissa_value a Ha') as [Hca Hla].
  destruct (mantissa_value b Hb) as [Hcb Hlb].
  destruct (mantissa_value (a * b) Hab') as [Hc Hl].
  assert (Hsum : Z.log2 a + Z.log2 b <= Z.log2 (a * b)).
  { pose proof (Z.log2_mul_below a b ltac:(lia) ltac:(lia)). lia. }
  unfold mul, SFmul. cbn [xorb].
  rewrite (binary_round_aux_exact false (mantissa a * mantissa b) (mantissa (a * b))
             (exponent a + exponent b) (exponent (a * b) - exponent a - exponent b)).
  - f_equal. lia.
  - by apply mantissa_full.
  - unfold exponent. lia.
  - rewrite Pos2Z.inj_mul, Hca, Hcb, Hc. unfold exponent.
    rewrite <- (Z.mul_assoc (a * b)), <- Z.pow_add_r by lia.
    replace (52 - Z.log2 (a * b) + (Z.log2 (a * b) - 52 - (Z.log2 a - 52) - (Z.log2 b - 52)))
      with ((52 - Z.log2 a) + (52 - Z.log2 b)) by lia.
    rewrite Z.pow_add_r by lia. ring.
  - unfold exponent. lia.
Qed.

Lemma aligned_whole (n e : Z) :
  0 < n < 2 ^ 53 -> e <= exponent n ->
  Z.pos (shl_align (mantissa n) (exponent n) e).1 = n * 2 ^ (- e).
Proof.
  intros Hn He. rewrite shl_align_value by done.
  destruct (mantissa_value n Hn) as [-> Hl].
  rewrite <- Z.mul_assoc, <- Z.pow_add_r by (unfold exponent in *; lia).
  f_equal. f_equal. unfold exponent. lia.
Qed.

Lemma add_whole (a b : Z) :
  0 <= a -> 0 < b -> a + b < 2 ^ 53 -> add (whole a) (whole b) = whole (a + b).
Proof.
  intros Ha Hb Hab. rewrite (whole_finite b) by lia.
  destruct (Z.eq_dec a 0) as [->|Hne].
  { rewrite Z.add_0_l, (whole_finite b) by lia. reflexivity. }
  rewrite (whole_finite a) by lia.
  unfold add, SFadd. cbn [cond_Zopp].
  set (ez := IntDef.Z.min (exponent a) (exponent b)).
  assert (Hez : ez <= exponent a /\ ez <= exponent b /\ ez <= 0).
  { change IntDef.Z.min with Z.min in ez. unfold exponent in *.
    pose proof (proj2 (mantissa_value a ltac:(lia))).
    pose proof (proj2 (mantissa_value b ltac:(lia))). lia. }
  rewrite !aligned_whole by lia.
  rewrite <- Z.mul_add_distr_r. apply normalize_whole; lia.
Qed.

Lemma sub_whole (a b : Z) :
  0 < b <= a -> a < 2 ^ 53 -> sub (whole a) (whole b) = whole (a - b).
Proof.
  intros Hb Ha. rewrite (whole_finite a), (whole_finite b) by lia.
  unfold sub, SFsub. cbn [cond_Zopp].
  set (ez := IntDef.Z.min (exponent a) (exponent b)).
  assert (Hez : ez <= exponent a /\ ez <= exponent b /\ ez <= 0).
  { change IntDef.Z.min with Z.min in ez. unfold exponent in *.
    pose proof (proj2 (mantissa_value a ltac:(lia))).
    pose proof (proj2 (mantissa_value b ltac:(lia))). lia. }
  rewrite !aligned_whole by lia.
  rewrite <- Z.mul_sub_distr_r. apply normalize_whole; lia.
Qed.

Lemma integerValue_whole (n : Z) : 0 <= n < 2 ^ 53 -> integerValue (whole n) = Some n.
Proof.
  intros Hn. destruct (Z.eq_dec n 0) as [->|Hne]; [reflexivity|].
  rewrite whole_finite by lia. destruct (mantissa_value n ltac:(lia)) as [Hc Hl].
  unfold integerValue. cbn [cond_Zopp]. rewrite Hc. unfold exponent.
  destruct (Z.leb_spec 0 (Z.log2 n - 52)) as [H|H].
  - replace (Z.log2 n) with 52 by lia. cbn. f_equal. lia.
  - replace (- (Z.log2 n - 52)) with (52 - Z.log2 n) by lia.
    assert (0 < 2 ^ (52 - Z.log2 n)) by (apply Z.pow_pos_nonneg; lia).
    rewrite Z.mod_mul by lia. cbn [Z.eqb]. rewrite Z.div_mul by lia. reflexivity.
Qed.

End DoubleFacts.

Module ApiFacts.
Import Double Api.

Lemma chain_calls (q : Query) (c : Call) : calls (chain q c) = calls q ++ [c].
Proof. reflexivity. Qed.

(** Filters are added after the calls already made, on the same table,
    and none of them is a [Range]. *)
Lemma applyFilter_calls (q : Query) (entry : str * Value) :
  exists added : list Call,
    applyFilter q entry = mkQuery (table q) (calls q ++ added) /\
    Forall (fun c => isRange c = false) added.
Proof.
  destruct entry as [column value]. destruct q as [t cs].
  destruct value as [| | b | n | s | items | props]; cbn [applyFilter];
    try (eexists [_]; split; [reflexivity | by repeat constructor]).
  unfold chain. cbn [table calls].
  repeat match goal with
         | |- context [if hasKey ?k props then _ else _] =>
             destruct (hasKey k props); cbn [table calls]
         end;
    rewrite <- ?app_assoc; cbn [app];
    (eexists; split; [reflexivity | by repeat constructor]) ||
    (exists []; split; [by rewrite app_nil_r | constructor]).
Qed.

Lemma applyFilters_calls (entries : list (str * Value)) :
  forall q : Query,
  exists added : list Call,
    applyFilters q (Some entries) = mkQuery (table q) (calls q ++ added) /\
    Forall (fun c => isRange c = false) added.
Proof.
  induction entries as [|e entries IH]; intros q; cbn [applyFilters fold_left].
  - exists []. split; [destruct q; cbn; by rewrite app_nil_r | constructor].
  - destruct (applyFilter_calls q e) as (a1 & -> & H1).
    destruct (IH (mkQuery (table q) (calls q ++ a1))) as (a2 & E & H2).
    cbn [applyFilters] in E. rewrite E. cbn [table calls].
    exists (a1 ++ a2). split; [by rewrite app_assoc | by apply Forall_app].
Qed.

Lemma page_of_index (L p i : Z) :
  (0 < L)%Z -> ((p * L <= i <= p * L + L - 1)%Z <-> p = (i / L)%Z).
Proof.
  intros HL. split.
  - intros H. apply (Z.div_unique i L p (i - p * L)); lia.
  - intros ->. pose proof (Z.div_mod i L ltac:(lia)).
    pose proof (Z.mod_pos_bound i L HL). lia.
Qed.

Lemma orZero_whole (p : Z) : (0 <= p < 2 ^ 53)%Z -> orZero (Some (whole p)) = whole p.
Proof.
  intros Hp. destruct (Z.eq_dec p 0%Z) as [->|Hne]; [reflexivity|].
  unfold orZero. by rewrite DoubleFacts.whole_finite by lia.
Qed.

(** The range of a page of whole numbers, as long as the last index of
    the page is a safe integer. *)
Lemma page_range (L p : Z) :
  (0 < L)%Z -> (0 <= p)%Z -> (p * L + L <= MAX_SAFE_INTEGER)%Z ->
  let offset := mul (orZero (Some (whole p))) (whole L) in
  offset = whole (p * L) /\
  sub (add offset (whole L)) (whole 1) = whole (p * L + L - 1).
Proof.
  unfold MAX_SAFE_INTEGER. intros HL Hp Hmax. cbn zeta.
  rewrite orZero_whole by nia.
  rewrite DoubleFacts.mul_whole by nia. split; [reflexivity|].
  rewrite DoubleFacts.add_whole by nia.
  rewrite DoubleFacts.sub_whole by nia. reflexivity.
Qed.

Lemma inRange_whole (a b i : Z) :
  (0 <= a < 2 ^ 53)%Z -> (0 <= b < 2 ^ 53)%Z ->
  inRange (whole a) (whole b) i <-> (a <= i <= b)%Z.
Proof.
  intros Ha Hb. unfold inRange. rewrite !DoubleFacts.integerValue_whole by done. split.
  - intros (first & last & [= <-] & [= <-] & H). exact H.
  - intros H. by exists a, b.
Qed.

(** X18: with whole numbers for the limit [L] and the page [p], and as
    long as the last index of the page is a safe integer, page [p] asks
    for the rows whose index, counted from zero, has the quotient [p] by
    [L]: these pages are disjoint, follow one another and cover every
    row up to [Number.MAX_SAFE_INTEGER]. A missing page is page zero;
    without a limit the page is ignored and no range is asked for. *)
Theorem getAll_pages (tableName : str) (sel idf : option str)
    (fl : option (list (str * Value))) (L p i : Z) :
  (0 < L)%Z -> (0 <= p)%Z -> (p * L + L <= MAX_SAFE_INTEGER)%Z ->
  (asksFor (getAllQuery tableName
              (Some (mkGetAllOptions sel idf (Some (whole L)) (Some (whole p)) fl))) i
   <-> p = (i / L)%Z) /\
  getAllQuery tableName (Some (mkGetAllOptions sel idf (Some (whole L)) None fl)) =
    getAllQuery tableName (Some (mkGetAllOptions sel idf (Some (whole L)) (Some (whole 0)) fl)) /\
  getAllQuery tableName (Some (mkGetAllOptions sel idf None (Some (whole p)) fl)) =
    getAllQuery tableName (Some (mkGetAllOptions sel idf None None fl)) /\
  asksFor (getAllQuery tableName (Some (mkGetAllOptions sel idf None (Some (whole p)) fl))) i.
Proof.
  intros HL Hp Hmax.
  assert (Hbase : exists base : list Call,
    (match fl with
     | Some entries =>
         applyFilters (chain (from tableName) (Select (orText sel "*"))) (Some entries)
     | None => chain (from tableName) (Select (orText sel "*"))
     end) = mkQuery tableName base /\ Forall (fun c => isRange c = false) base).
  { destruct fl as [entries|].
    - destruct (applyFilters_calls entries (chain (from tableName) (Select (orText sel "*"))))
        as (added & -> & Hadded).
      eexists. split; [reflexivity|]. cbn. by constructor.
    - eexists. split; [reflexivity|]. by repeat constructor. }
  destruct Hbase as (base & Ebase & Hbase).
  assert (Hall : forall j, Forall (fun c => match c with
                                            | Range from to => inRange from to j
                                            | _ => True
                                            end) base).
  { intros j. eapply Forall_impl; [exact Hbase|]. by intros []. }
  destruct (page_range L p HL Hp Hmax) as [Eoffset Elast].
  unfold getAllQuery, asksFor. cbn [mbind option_bind select filters limit page].
  rewrite Ebase. cbn [chain table calls].
  split; [|split; [reflexivity|split; [reflexivity|apply Hall]]].
  rewrite Elast, Eoffset.
  rewrite Forall_app, Forall_singleton.
  unfold MAX_SAFE_INTEGER in Hmax.
  rewrite inRange_whole by nia.
  rewrite <- page_of_index by done. specialize (Hall i). tauto.
Qed.

Lemma getAll_pages_witness :
  (0 < 10)%Z /\ (0 <= 2)%Z /\ (2 * 10 + 10 <= MAX_SAFE_INTEGER)%Z /\
  (asksFor (getAllQuery (lit "posts")
              (Some (mkGetAllOptions None None (Some (whole 10)) (Some (whole 2)) None))) 25%Z
   <-> 2%Z = (25 / 10)%Z).
Proof.
  assert (H1 : (0 < 10)%Z) by lia.
  assert (H2 : (0 <= 2)%Z) by lia.
  assert (H3 : (2 * 10 + 10 <= MAX_SAFE_INTEGER)%Z) by (vm_compute; discriminate).
  split; [exact H1|]. split; [exact H2|]. split; [exact H3|].
  exact (proj1 (getAll_pages (lit "posts") None None None 10 2 25 H1 H2 H3)).
Defined.

(** Beyond the safe integers the bounds are rounded: with the limit 3,
    page [2 ^ 53] asks for five rows. *)
Lemma page_beyond_safe_integers (i : Z) :
  asksFor (getAllQuery (lit "posts")
             (Some (mkGetAllOptions None None (Some (whole 3)) (Some (whole (2 ^ 53))) None))) i
  <-> (27021597764222976 <= i <= 27021597764222980)%Z.
Proof.
  assert (E : getAllQuery (lit "posts")
                (Some (mkGetAllOptions None None (Some (whole 3)) (Some (whole (2 ^ 53))) None))
              = mkQuery (lit "posts")
                  [Select (lit "*");
                   Range (S754_finite false 6755399441055744 2)
                         (S754_finite false 6755399441055745 2)])
    by (vm_compute; reflexivity).
  rewrite E. unfold asksFor. cbn [calls].
  rewrite Forall_cons, Forall_singleton. unfold inRange. split.
  - intros (_ & lower & upper & [= <-] & [= <-] & H). exact H.
  - intros H. split; [done|]. by eexists _, _.
Qed.

(** X19: a filter whose value is a string, a number, a boolean or
    undefined becomes one equality test; the tests come after the calls
    already made, in the order of the entries. *)
Theorem applyFilters_plain (q : Query) (entries : list (str * Value)) :
  Forall (fun entry => isPlain entry.2 = true) entries ->
  applyFilters q (Some entries) =
  mkQuery (table q) (calls q ++ map (fun entry => Eq entry.1 entry.2) entries).
Proof.
  revert q. induction entries as [|[column value] entries IH]; intros q H.
  - destruct q. cbn. by rewrite app_nil_r.
  - inversion H as [|? ? Hv Hrest]; subst. cbn [applyFilters fold_left].
    assert (E : applyFilter q (column, value) = chain q (Eq column value))
      by (destruct value; done).
    rewrite E. specialize (IH (chain q (Eq column value)) Hrest).
    cbn [applyFilters] in IH. rewrite IH. cbn [chain table calls map fst snd].
    by rewrite <- app_assoc.
Qed.

Lemma applyFilters_plain_witness :
  let entries := [(lit "status", VString (lit "open")); (lit "votes", VNumber 3)] in
  Forall (fun entry => isPlain entry.2 = true) entries /\
  applyFilters (chain (from (lit "posts")) (Select (lit "*"))) (Some entries) =
  mkQuery (lit "posts")
    [Select (lit "*"); Eq (lit "status") (VString (lit "open"));
     Eq (lit "votes") (VNumber 3)].
Proof.
  intros entries.
  assert (H : Forall (fun entry => isPlain entry.2 = true) entries)
    by (repeat constructor).
  split; [exact H|].
  exact (applyFilters_plain (chain (from (lit "posts")) (Select (lit "*"))) entries H).
Defined.

(** X20: a filter whose value is an object with none of the eight
    operators, the empty object among them, is dropped without a word:
    the query stays as it was. *)
Theorem applyFilters_unknown_operators (q : Query) (entries : list (str * Value)) :
  Forall (fun entry => exists props,
              entry.2 = VObject props /\
              Forall (fun op => hasKey op props = false) operators) entries ->
  applyFilters q (Some entries) = q.
Proof.
  revert q. induction entries as [|[column value] entries IH]; intros q H; [done|].
  inversion H as [|? ? (props & Hv & Hops) Hrest]; subst.
  cbn [applyFilters fold_left snd] in *. subst value.
  assert (E : applyFilter q (column, VObject props) = q).
  { cbn [applyFilter]. unfold operators in Hops.
    repeat match goal with
           | H : Forall _ (_ :: _) |- _ => apply Forall_cons in H as [? H]
           end.
    repeat match goal with
           | H : hasKey _ props = false |- _ => rewrite H; clear H
           end.
    done. }
  rewrite E. by apply IH.
Qed.

Lemma applyFilters_unknown_operators_witness :
  let entries := [(lit "votes", VObject [(lit "eq", VNumber 3)]); (lit "tag", VObject [])] in
  Forall (fun entry => exists props,
              entry.2 = VObject props /\
              Forall (fun op => hasKey op props = false) operators) entries /\
  applyFilters (from (lit "posts")) (Some entries) = from (lit "posts").
Proof.
  intros entries.
  assert (H : Forall (fun entry => exists props,
                          entry.2 = VObject props /\
                          Forall (fun op => hasKey op props = false) operators) entries).
  { repeat constructor; eexists; (split; [reflexivity | by repeat constructor]). }
  split; [exact H|].
  exact (applyFilters_unknown_operators (from (lit "posts")) entries H).
Defined.

Section Client.

Context {Row PostgrestError Store : Type}.
Variable await : Query -> Store -> @Response Row PostgrestError * Store.
Variable code : PostgrestError -> str.

(** X21: [getById] sends one query, the selection of the row with the
    given id. A response without error resolves with its data; an error
    with the code [PGRST116] resolves with no data and prints nothing;
    any other error rejects with that error and is printed once. *)
Theorem getById_outcomes (tableName : str) (id : Value) (options : option GetAllOptions)
    (s : @Session PostgrestError Store) :
  let query := getByIdQuery tableName id options in
  let response := (await query (store s)).1 in
  let result := getById await code tableName id options s in
  calls query = [Select (orText (options ≫= select) "*");
                 Eq (orText (options ≫= idField) "id") id; Single] /\
  sent result.2 = sent s ++ [query] /\
  store result.2 = (await query (store s)).2 /\
  (error response = None ->
     result.1 = Resolved (data response) /\ errorLog result.2 = errorLog s) /\
  (forall e, error response = Some e -> code e = lit "PGRST116" ->
     result.1 = Resolved NoData /\ errorLog result.2 = errorLog s) /\
  (forall e, error response = Some e -> code e <> lit "PGRST116" ->
     result.1 = Rejected e /\
     errorLog result.2 = errorLog s ++ [("getById"%string, tableName, e)]).
Proof.
  intros query response result. unfold result, response, getById. fold query.
  destruct (await query (store s)) as [r st'] eqn:E. cbn [fst snd].
  split; [reflexivity|].
  destruct (error r) as [e|] eqn:Ee.
  - case_bool_decide as Hc; cbn [fst snd sent store errorLog logError];
      (split; [reflexivity|]); (split; [reflexivity|]); (split; [discriminate|]);
      split; intros e' [= <-] H'; done.
  - cbn [fst snd sent store errorLog].
    split; [reflexivity|]. split; [reflexivity|]. split; [done|].
    split; intros e'; discriminate.
Qed.

(** X23: [getAll] sends one query and never resolves with nothing: a
    response without error and without data gives the empty array, and
    data that is there is passed on; an error rejects with that error
    and is printed once under the name of the method. *)
Theorem getAll_outcomes (tableName : str) (options : option GetAllOptions)
    (s : @Session PostgrestError Store) :
  let query := getAllQuery tableName options in
  let response := (await query (store s)).1 in
  let result := getAll await tableName options s in
  sent result.2 = sent s ++ [query] /\
  store result.2 = (await query (store s)).2 /\
  result.1 <> Resolved NoData /\
  (error response = None ->
     errorLog result.2 = errorLog s /\
     (data response = NoData -> result.1 = Resolved (Rows [])) /\
     (data response <> NoData -> result.1 = Resolved (data response))) /\
  (forall e, error response = Some e ->
     result.1 = Rejected e /\
     errorLog result.2 = errorLog s ++ [("getAll"%string, tableName, e)]).
Proof.
  intros query response result. unfold result, response, getAll. fold query.
  destruct (await query (store s)) as [r st'] eqn:E. cbn [fst snd].
  destruct (error r) as [e|] eqn:Ee; cbn [fst snd sent store errorLog logError].
  - split; [reflexivity|]. split; [reflexivity|]. split; [discriminate|].
    split; [discriminate|]. by intros e' [= <-].
  - split; [reflexivity|]. split; [reflexivity|].
    split; [by destruct (data r)|]. split; [|discriminate].
    split; [reflexivity|]. split; [by intros ->|]. by destruct (data r).
Qed.

End Client.

Lemma getById_outcomes_witness :
  let s := mkSession (PostgrestError := str) tt [] [] in
  let found := mkResponse (PostgrestError := str) (OneRow 7%Z) None in
  let missing := mkResponse (Row := Z) NoData (Some (lit "PGRST116")) in
  let failed := mkResponse (Row := Z) NoData (Some (lit "42501")) in
  (getById (answer found) id (lit "posts") (VNumber 7) None s).1 = Resolved (OneRow 7%Z) /\
  (getById (answer missing) id (lit "posts") (VNumber 7) None s).1 = Resolved NoData /\
  (getById (answer failed) id (lit "posts") (VNumber 7) None s).1 = Rejected (lit "42501") /\
  errorLog (getById (answer failed) id (lit "posts") (VNumber 7) None s).2 =
    [("getById"%string, lit "posts", lit "42501")].
Proof.
  intros s found missing failed.
  assert (Hne : id (lit "42501") <> lit "PGRST116") by discriminate.
  destruct (getById_outcomes (answer found) id (lit "posts") (VNumber 7) None s)
    as (_ & _ & _ & H1 & _ & _).
  destruct (getById_outcomes (answer missing) id (lit "posts") (VNumber 7) None s)
    as (_ & _ & _ & _ & H2 & _).
  destruct (getById_outcomes (answer failed) id (lit "posts") (VNumber 7) None s)
    as (_ & _ & _ & _ & _ & H3).
  split; [exact (proj1 (H1 eq_refl))|].
  split; [exact (proj1 (H2 (lit "PGRST116") eq_refl eq_refl))|].
  exact (H3 (lit "42501") eq_refl Hne).
Defined.

Lemma getAll_outcomes_witness :
  let s := mkSession (PostgrestError := str) tt [] [] in
  let empty := mkResponse (Row := Z) NoData (None (A := str)) in
  let failed := mkResponse (Row := Z) NoData (Some (lit "42501")) in
  (getAll (answer empty) (lit "posts") None s).1 = Resolved (Rows []) /\
  (getAll (answer failed) (lit "posts") None s).1 = Rejected (lit "42501") /\
  errorLog (getAll (answer failed) (lit "posts") None s).2 =
    [("getAll"%string, lit "posts", lit "42501")].
Proof.
  intros s empty failed.
  destruct (getAll_outcomes (answer empty) (lit "posts") None s) as (_ & _ & _ & H1 & _).
  destruct (getAll_outcomes (answer failed) (lit "posts") None s) as (_ & _ & _ & _ & H2).
  split; [exact (proj1 (proj2 (H1 eq_refl)) eq_refl)|].
  exact (H2 (lit "42501") eq_refl).
Defined.

End ApiFacts.
